(** * Verification of the convolution core of fast-equivariant-deconv

    A shallow embedding of the Chebyshev projector, the fused
    spherical x spatial kernels, the isotropic selection mask, the
    spherical-harmonic sampling set-up, the patch-size schedule and the
    checkpoint filter of [conv_benchmark/utils/graphconv.py] and
    [conv_benchmark/utils/sampling.py], with the properties the
    specification states about them (C1 to C10), and of the code around
    them: the voxel grid and the polynomial features of the fiber-bundle
    kernels, the least-squares inverse of the harmonic basis with the
    transforms of [model/shutils.py], the pooling and Laplacian hierarchy and
    the rows of the harmonic basis, with further properties read off the
    code (X1 onwards).

    Every module first gives the definitions that follow the source, then
    the lemmas, then the theorems. *)

From Stdlib Require Import ZArith Lia String.
From Stdlib Require QArith Reals Lra DecimalString.
From mathcomp Require Import boot order.
From mathcomp Require Import ssralg ssrnum ssrint rat matrix mxalgebra.

Set Implicit Arguments.
Unset Strict Implicit.
Unset Printing Implicit Defensive.

Import GRing.Theory.

(** ** Chebyshev basis projector ([graphconv.py]: [project_cheb_basis],
    [project_cheb_basis_dense], [precompute_projection], [Conv.__init__],
    [ChebConv.__init__], [cheb_conv], [cheb_conv_dense]) *)

Module Cheb.

Local Open Scope ring_scope.

Section Runtime.

(** The tensor runtime as the two projection functions use it: the type of
    the Laplacian, the type of a [V x D] tensor, [torch.sparse.mm],
    [torch.mm], [2 * x] and [x - y]. Nothing is assumed about them, so what
    is proved of the two functions holds for floating-point tensors as well
    as for exact ones. A [K x V x D] tensor is the sequence of its [K] slices
    along dimension 0, which [unsqueeze(0)] and [torch.cat(..., 0)] build. *)
Variables operator tensor : Type.
Variable sparse_mm : operator -> tensor -> tensor.
Variable mm : operator -> tensor -> tensor.
Variable twice : tensor -> tensor.
Variable minus : tensor -> tensor -> tensor.

(** [x.unsqueeze(0)] *)
Definition unsqueeze0 (x : tensor) : seq tensor := [:: x].

(** [torch.cat((a, b), 0)] *)
Definition cat0 (a b : seq tensor) : seq tensor := a ++ b.

(** The variables the loop of [project_cheb_basis] updates: [inputs], [x0]
    and [x1]. *)
Definition cheb_state : Type := (seq tensor * tensor * tensor)%type.

(** One pass of [for _ in range(2, K)]. *)
Definition cheb_step (laplacian : operator) (st : cheb_state) (_ : nat) : cheb_state :=
  let '(inputs, x0, x1) := st in
  let x2 := minus (twice (sparse_mm laplacian x1)) x0 in
  let inputs := cat0 inputs (unsqueeze0 x2) in
  (inputs, x1, x2).

Definition project_cheb_basis (laplacian : operator) (x0 : tensor) (K : nat)
  : seq tensor :=
  let inputs := unsqueeze0 x0 in
  if (1 < K)%N then
    let x1 := sparse_mm laplacian x0 in
    let inputs := cat0 inputs (unsqueeze0 x1) in
    (foldl (cheb_step laplacian) (inputs, x0, x1) (iota 2 (K - 2))).1.1
  else inputs.

Definition cheb_step_dense (laplacian : operator) (st : cheb_state) (_ : nat)
  : cheb_state :=
  let '(inputs, x0, x1) := st in
  let x2 := minus (twice (mm laplacian x1)) x0 in
  let inputs := cat0 inputs (unsqueeze0 x2) in
  (inputs, x1, x2).

Definition project_cheb_basis_dense (laplacian : operator) (x0 : tensor) (K : nat)
  : seq tensor :=
  let inputs := unsqueeze0 x0 in
  if (1 < K)%N then
    let x1 := mm laplacian x0 in
    let inputs := cat0 inputs (unsqueeze0 x1) in
    (foldl (cheb_step_dense laplacian) (inputs, x0, x1) (iota 2 (K - 2))).1.1
  else inputs.

(** The three-term recurrence on its own, for an operator application
    [apply]: the pair of the terms of order [k] and [k+1]. *)
Fixpoint cheb_pair (apply : tensor -> tensor) (x0 : tensor) (k : nat) : tensor * tensor :=
  match k with
  | 0%N => (x0, apply x0)
  | k'.+1 =>
      let p := cheb_pair apply x0 k' in (p.2, minus (twice (apply p.2)) p.1)
  end.

Definition cheb_term (apply : tensor -> tensor) (x0 : tensor) (k : nat) : tensor :=
  (cheb_pair apply x0 k).1.

(** What the specification asks of a stacked basis: [K] slices, slice 0 is
    [x0], slice 1 is the operator applied to [x0] when [K > 1], and every
    later slice is twice the operator applied to the slice before, minus
    the slice before that. *)
Definition cheb_recurrence (apply : tensor -> tensor) (x0 : tensor) (K : nat)
  (basis : seq tensor) : Prop :=
  [/\ size basis = K,
      nth x0 basis 0 = x0,
      (1 < K)%N -> nth x0 basis 1 = apply x0 &
      forall k, (2 <= k < K)%N ->
        nth x0 basis k =
        minus (twice (apply (nth x0 basis (k - 1)))) (nth x0 basis (k - 2))].

End Runtime.

Section Exact.

(** Exact tensors: matrices over a commutative ring [R]. *)
Variable R : comPzRingType.
Variables V D : nat.

Definition mx_mm (n : nat) (A : 'M[R]_V) (B : 'M[R]_(V, n)) : 'M[R]_(V, n) := A *m B.
Definition mx_twice (n : nat) (A : 'M[R]_(V, n)) : 'M[R]_(V, n) := 2%:R *: A.
Definition mx_minus (n : nat) (A B : 'M[R]_(V, n)) : 'M[R]_(V, n) := A - B.

(** [project_cheb_basis] on exact tensors. *)
Definition mx_project_cheb_basis (laplacian : 'M[R]_V) (x0 : 'M[R]_(V, D)) (K : nat)
  : seq 'M[R]_(V, D) :=
  project_cheb_basis (@mx_mm D) (@mx_twice D) (@mx_minus D) laplacian x0 K.

(** [project_cheb_basis_dense] on exact tensors. *)
Definition mx_project_cheb_basis_dense (laplacian : 'M[R]_V) (x0 : 'M[R]_(V, D))
  (K : nat) : seq 'M[R]_(V, D) :=
  project_cheb_basis_dense (@mx_mm D) (@mx_twice D) (@mx_minus D) laplacian x0 K.

(** [precompute_projection]: the [K x V x V] tensor is allocated as zeros and
    filled slice by slice; [projector[0] = ...] on a tensor with no slice
    (K = 0) raises, which is [None] here. *)
Definition projector_step (lap : 'M[R]_V) (projector : seq 'M[R]_V) (i : nat)
  : seq 'M[R]_V :=
  set_nth 0 projector i
    (mx_minus (mx_twice (mx_mm lap (nth 0 projector (i - 1)))) (nth 0 projector (i - 2))).

Definition precompute_projection (lap : 'M[R]_V) (K : nat) : option (seq 'M[R]_V) :=
  let projector := nseq K (0 : 'M[R]_V) in
  if K is 0%N then None else
  let projector := set_nth 0 projector 0 1%:M in
  if (1 < K)%N then
    let projector := set_nth 0 projector 1 lap in
    Some (foldl (projector_step lap) projector (iota 2 (K - 2)))
  else Some projector.

(** [projector.permute(0, 2, 1)]: every [V x V] slice is transposed. *)
Definition permute021 (projector : seq 'M[R]_V) : seq 'M[R]_V :=
  [seq A^T | A <- projector].

(** [.view(K * V, n)] of a contiguous [K x V x n] tensor: the slices stacked
    row block after row block. *)
Fixpoint view_rows (n K : nat) (t : seq 'M[R]_(V, n)) : 'M[R]_(K * V, n) :=
  match K with
  | 0%N => 0
  | K'.+1 => col_mx (head 0 t) (view_rows K' (behead t))
  end.

(** [.view([K, V, n])] (and [.reshape]) of a [K * V x n] matrix: its [K] row
    blocks. *)
Fixpoint view_slices (n K : nat) : 'M[R]_(K * V, n) -> seq 'M[R]_(V, n) :=
  match K with
  | 0%N => fun _ => [::]
  | K'.+1 => fun M =>
      @usubmx R V (K' * V) n M :: view_slices (@dsubmx R V (K' * V) n M)
  end.

(** [torch.einsum('bfvxyz,kvw->bfkwxyz', inputs, laplacian)] on the
    [V x Fin*B*X*Y*Z] view of the input: slice [k] of the result has, at
    vertex [w], the sum over [v] of [inputs[v] * laplacian[k][v][w]]. *)
Definition einsum_kvw (laplacian : seq 'M[R]_V) (x0 : 'M[R]_(V, D)) : seq 'M[R]_(V, D) :=
  map (fun A : 'M[R]_V => \matrix_(w, d) \sum_v x0 v d * A v w) laplacian.

(** The layout of a Laplacian tensor: a [torch.sparse.FloatTensor], as the
    sampling hierarchy delivers it, or a strided tensor, as [to_dense()]
    returns it. The entries are the same in both. *)
Inductive layout : Type := Sparse | Strided.

Definition lap_tensor : Type := (layout * 'M[R]_V)%type.

Definition is_sparse (lap : lap_tensor) : bool :=
  if lap.1 is Sparse then true else false.

(** [lap.to_dense()] *)
Definition to_dense (lap : lap_tensor) : lap_tensor := (Strided, lap.2).

(** [precompute_projection] on a Laplacian tensor of either layout: the
    assignment [projector[1] = lap], reached for [K > 1], copies a strided
    tensor into the slice and raises for a sparse one. *)
Definition precompute_projection_of (lap : lap_tensor) (K : nat)
  : option (seq 'M[R]_V) :=
  if is_sparse lap && (1 < K)%N then None else precompute_projection lap.2 K.

(** The buffer [Conv.__init__] registers under the name "laplacian": the
    Laplacian itself, or with [precompute] the projector, flattened when
    [einsum] is off and as the [K x V x V] tensor when it is on. *)
Inductive laplacian_buffer (K : nat) : Type :=
  | Laplacian (lap : lap_tensor)
  | Projector (projector : 'M[R]_(K * V, V))
  | ProjectorStack (projector : seq 'M[R]_V).

(** The layer: the flags [Conv.__init__] stores, the buffer, and the choice
    [ChebConv.__init__] makes with [dense] between [cheb_conv_dense] and
    [cheb_conv]. *)
Record Conv (K : nat) : Type := MkConv {
  einsum : bool;
  precompute : bool;
  dense : bool;
  laplacian : laplacian_buffer K
}.

Definition Conv_init (lap : lap_tensor) (kernel_sizeSph : nat)
  (dense precompute einsum : bool) : option (Conv kernel_sizeSph) :=
  let lap := if dense then to_dense lap else lap in
  if precompute then
    if precompute_projection_of lap kernel_sizeSph is Some projector then
      if ~~ einsum then
        let projector := view_rows kernel_sizeSph (permute021 projector) in
        Some (MkConv einsum true dense (Projector projector))
      else Some (MkConv einsum true dense (ProjectorStack kernel_sizeSph projector))
    else None
  else Some (MkConv einsum false dense (Laplacian kernel_sizeSph lap)).

(** Whether the layer with [precompute] is built: unless the Laplacian
    stays sparse and the order is above 1. *)
Definition precompute_builds (lap : lap_tensor) (K : nat) (dense : bool) : bool :=
  [|| dense, ~~ is_sparse lap | (K <= 1)%N].

(** Whether [torch.sparse.mm] takes a strided first argument is left to the
    runtime: with [sparse_mm_strided] it multiplies, without it the call
    raises. What is proved below holds either way. *)
Variable sparse_mm_strided : bool.

(** [project_cheb_basis] on a Laplacian tensor: [torch.sparse.mm] is called
    for [K > 1] only. *)
Definition project_cheb_basis_of (lap : lap_tensor) (x0 : 'M[R]_(V, D)) (K : nat)
  : option (seq 'M[R]_(V, D)) :=
  if [|| is_sparse lap, sparse_mm_strided | (K <= 1)%N]
  then Some (mx_project_cheb_basis lap.2 x0 K) else None.

(** The "Transform to Chebyshev basis" stage of [cheb_conv] on the
    [V x Fin*B*X*Y*Z] view [x0] of the input, up to the [K] slices of the
    result. A buffer of the wrong shape, or a basis that is not [K] slices,
    is a shape error of the runtime ([None]). *)
Definition cheb_conv_projection (K : nat) (laplacian : laplacian_buffer K)
  (x0 : 'M[R]_(V, D)) (precompute einsum : bool) : option (seq 'M[R]_(V, D)) :=
  if precompute then
    if einsum then
      match laplacian with
      | ProjectorStack projector => Some (einsum_kvw projector x0)
      | _ => None
      end
    else
      match laplacian with
      | Projector projector => Some (view_slices (projector *m x0))
      | _ => None
      end
  else
    match laplacian with
    | Laplacian lap =>
        if project_cheb_basis_of lap x0 K is Some inputs then
          if size inputs == K then Some inputs else None
        else None
    | _ => None
    end.

(** The same stage of [cheb_conv_dense], which differs in the runtime
    branch only: [project_cheb_basis_dense] multiplies with [torch.mm], which
    takes a Laplacian of either layout. *)
Definition cheb_conv_dense_projection (K : nat) (laplacian : laplacian_buffer K)
  (x0 : 'M[R]_(V, D)) (precompute einsum : bool) : option (seq 'M[R]_(V, D)) :=
  if precompute then
    if einsum then
      match laplacian with
      | ProjectorStack projector => Some (einsum_kvw projector x0)
      | _ => None
      end
    else
      match laplacian with
      | Projector projector => Some (view_slices (projector *m x0))
      | _ => None
      end
  else
    match laplacian with
    | Laplacian lap =>
        let inputs := mx_project_cheb_basis_dense lap.2 x0 K in
        if size inputs == K then Some inputs else None
    | _ => None
    end.

(** [Conv.forward], up to the same stage. *)
Definition Conv_forward_projection (K : nat) (self : Conv K) (x0 : 'M[R]_(V, D))
  : option (seq 'M[R]_(V, D)) :=
  let _conv :=
    if dense self then @cheb_conv_dense_projection K else @cheb_conv_projection K in
  _conv (laplacian self) x0 (precompute self) (einsum self).

(** Building the layer and running it on [x0]: the K-way projection a
    convolution of order [K] over [lap] computes, on either path. *)
Definition Conv_projection (lap : lap_tensor) (K : nat) (dense precompute einsum : bool)
  (x0 : 'M[R]_(V, D)) : option (seq 'M[R]_(V, D)) :=
  if Conv_init lap K dense precompute einsum is Some self
  then Conv_forward_projection self x0
  else None.

(** The Chebyshev polynomial [T_k] of the operator, as a [V x V] matrix. *)
Definition cheb_poly (L : 'M[R]_V) (k : nat) : 'M[R]_V :=
  cheb_term (@mx_twice V) (@mx_minus V) (mx_mm L) 1%:M k.

End Exact.

(** A Laplacian that is not symmetric, and a signal, over the integers:
    [skew_lap] has its single 1 at row 0, column 1; [unit_signal] is the
    column (0, 1). *)
Definition skew_lap : 'M[int]_2 := delta_mx ord0 (lift ord0 ord0).
Definition unit_signal : 'M[int]_(2, 1) := delta_mx (lift ord0 ord0) ord0.

(** A symmetric Laplacian over the integers: 1 at (0, 1) and at (1, 0). *)
Definition swap_lap : 'M[int]_2 := skew_lap + skew_lap^T.

Section RuntimeTheory.

Variables operator tensor : Type.
Variable sparse_mm : operator -> tensor -> tensor.
Variable mm : operator -> tensor -> tensor.
Variable twice : tensor -> tensor.
Variable minus : tensor -> tensor -> tensor.
Variable L : operator.

Let term := cheb_term twice minus.

Lemma cheb_termSS (apply : tensor -> tensor) x0 k :
  term apply x0 k.+2 = minus (twice (apply (term apply x0 k.+1))) (term apply x0 k).
Proof. by []. Qed.

Lemma foldl_cheb_step x0 n i j inputs :
  foldl (cheb_step sparse_mm twice minus L)
    (inputs, term (sparse_mm L) x0 j, term (sparse_mm L) x0 j.+1) (iota i n) =
  (inputs ++ [seq term (sparse_mm L) x0 k | k <- iota j.+2 n],
   term (sparse_mm L) x0 (j + n), term (sparse_mm L) x0 (j + n).+1).
Proof.
elim: n i j inputs => [|n IH] i j inputs /=; first by rewrite cats0 addn0.
by rewrite /cat0 /unsqueeze0 -cheb_termSS IH -catA /= addSnnS.
Qed.

Lemma foldl_cheb_step_dense x0 n i j inputs :
  foldl (cheb_step_dense mm twice minus L)
    (inputs, term (mm L) x0 j, term (mm L) x0 j.+1) (iota i n) =
  (inputs ++ [seq term (mm L) x0 k | k <- iota j.+2 n],
   term (mm L) x0 (j + n), term (mm L) x0 (j + n).+1).
Proof.
elim: n i j inputs => [|n IH] i j inputs /=; first by rewrite cats0 addn0.
by rewrite /cat0 /unsqueeze0 -cheb_termSS IH -catA /= addSnnS.
Qed.

Lemma project_cheb_basisE x0 K :
  (0 < K)%N ->
  project_cheb_basis sparse_mm twice minus L x0 K =
  [seq term (sparse_mm L) x0 k | k <- iota 0 K].
Proof.
case: K => [|[|K]] // _.
rewrite /project_cheb_basis /= /cat0 /unsqueeze0.
by rewrite subn2 /= (foldl_cheb_step x0 K 2 0).
Qed.

Lemma project_cheb_basis_denseE x0 K :
  (0 < K)%N ->
  project_cheb_basis_dense mm twice minus L x0 K =
  [seq term (mm L) x0 k | k <- iota 0 K].
Proof.
case: K => [|[|K]] // _.
rewrite /project_cheb_basis_dense /= /cat0 /unsqueeze0.
by rewrite subn2 /= (foldl_cheb_step_dense x0 K 2 0).
Qed.

Lemma nth_cheb_terms (apply : tensor -> tensor) x0 K k :
  (k < K)%N -> nth x0 [seq term apply x0 k | k <- iota 0 K] k = term apply x0 k.
Proof. by move=> ltkK; rewrite (nth_map 0%N) ?size_iota // nth_iota. Qed.

Lemma cheb_terms_recurrence (apply : tensor -> tensor) x0 K :
  cheb_recurrence twice minus apply x0 K [seq term apply x0 k | k <- iota 0 K].
Proof.
split; first by rewrite size_map size_iota.
- by case: K.
- by move=> lt1K; rewrite nth_cheb_terms.
case=> [|[|k]] // /andP[_ ltkK].
rewrite subn1 subn2 /= !nth_cheb_terms //; first exact: ltnW.
by apply: ltnW; apply: ltnW.
Qed.

End RuntimeTheory.

(** On scalars, with the operator 3 and the signal 1: the Chebyshev
    polynomials at 3. *)
Example project_cheb_basis_scalar :
  project_cheb_basis *%R (fun x => 2 * x) (fun x y => x - y) (3 : int) 1 5 =
  [:: 1; 3; 17; 99; 577].
Proof. by vm_compute. Qed.

Section ExactTheory.

Variable R : comPzRingType.
Variables V D : nat.

Lemma cheb_term_poly (L : 'M[R]_V) (x0 : 'M[R]_(V, D)) k :
  cheb_term (@mx_twice R V D) (@mx_minus R V D) (mx_mm L) x0 k = cheb_poly L k *m x0.
Proof.
suff: cheb_pair (@mx_twice R V D) (@mx_minus R V D) (mx_mm L) x0 k =
  ((cheb_pair (@mx_twice R V V) (@mx_minus R V V) (mx_mm L) 1%:M k).1 *m x0,
   (cheb_pair (@mx_twice R V V) (@mx_minus R V V) (mx_mm L) 1%:M k).2 *m x0).
  by rewrite /cheb_poly /cheb_term => ->.
elim: k => [|k IH] /=; first by rewrite /mx_mm mul1mx mulmx1.
by rewrite IH /= /mx_minus /mx_twice /mx_mm mulmxBl -scalemxAl mulmxA.
Qed.

Lemma cheb_polySS (L : 'M[R]_V) k :
  cheb_poly L k.+2 = 2%:R *: (L *m cheb_poly L k.+1) - cheb_poly L k.
Proof. by []. Qed.

Lemma cheb_poly_comm (L : 'M[R]_V) k : L *m cheb_poly L k = cheb_poly L k *m L.
Proof.
suff: L *m cheb_poly L k = cheb_poly L k *m L /\
      L *m cheb_poly L k.+1 = cheb_poly L k.+1 *m L by case.
elim: k => [|k [IH1 IH2]]; first by rewrite /cheb_poly /cheb_term /= /mx_mm !mulmx1 mul1mx.
split=> //.
by rewrite cheb_polySS mulmxBr mulmxBl -scalemxAr -scalemxAl IH1 -mulmxA IH2.
Qed.

Lemma trmx_cheb_poly (L : 'M[R]_V) k : (cheb_poly L k)^T = cheb_poly L^T k.
Proof.
suff: (cheb_poly L k)^T = cheb_poly L^T k /\
      (cheb_poly L k.+1)^T = cheb_poly L^T k.+1 by case.
elim: k => [|k [IH1 IH2]]; first by rewrite /cheb_poly /cheb_term /= /mx_mm !mulmx1 trmx1.
split=> //.
by rewrite !cheb_polySS linearB /= linearZ /= trmx_mul IH1 IH2 -cheb_poly_comm.
Qed.

Lemma set_nth_fill (T : Type) (x0 : T) (f : nat -> T) (m K : nat) (v : T) :
  (m < K)%N ->
  set_nth x0 ([seq f k | k <- iota 0 m] ++ nseq (K - m) x0) m v =
  [seq f k | k <- iota 0 m] ++ v :: nseq (K - m.+1) x0.
Proof.
move=> ltmK.
rewrite set_nthE size_cat size_map size_iota size_nseq (subnKC (ltnW ltmK)).
rewrite ltmK take_size_cat ?size_map ?size_iota //.
rewrite drop_cat size_map size_iota ltnNge leqnSn /= subSnn.
by rewrite -[(K - m)%N]prednK ?subn_gt0 //= drop0 subnS.
Qed.

Lemma nth_fill (T : Type) (x0 : T) (f : nat -> T) (m K k : nat) :
  (k < m)%N -> nth x0 ([seq f k | k <- iota 0 m] ++ nseq (K - m) x0) k = f k.
Proof.
move=> ltkm; rewrite nth_cat size_map size_iota ltkm.
by rewrite (nth_map 0%N) ?size_iota // nth_iota.
Qed.

Lemma map_iota_rcons (T : Type) (f : nat -> T) (m : nat) (s : seq T) :
  [seq f k | k <- iota 0 m] ++ f m :: s = [seq f k | k <- iota 0 m.+1] ++ s.
Proof. by rewrite -addn1 iotaD map_cat /= add0n -catA. Qed.

Lemma foldl_projector_step (L : 'M[R]_V) (K n i : nat) :
  (1 < i)%N -> (i + n <= K)%N ->
  foldl (projector_step L)
    ([seq cheb_poly L k | k <- iota 0 i] ++ nseq (K - i) 0) (iota i n) =
  [seq cheb_poly L k | k <- iota 0 (i + n)] ++ nseq (K - (i + n)) 0.
Proof.
elim: n i => [|n IH] i lt1i leK /=; first by rewrite addn0.
have ltiK : (i < K)%N by apply: leq_trans leK; rewrite -addSnnS leq_addr.
have [j eq_i] : exists j, i = j.+2 by case: i lt1i {leK ltiK} => [|[|j]] //; exists j.
rewrite [projector_step _ _ i]/projector_step set_nth_fill // !nth_fill.
- by rewrite eq_i subn1.
- by rewrite eq_i subn2 /= ltnW.
have -> : mx_minus (mx_twice (mx_mm L (cheb_poly L (i - 1)))) (cheb_poly L (i - 2)) =
          cheb_poly L i.
  by rewrite eq_i subn1 subn2.
by rewrite map_iota_rcons IH ?addSnnS // ltnW.
Qed.

Lemma precompute_projectionE (L : 'M[R]_V) (K : nat) :
  (0 < K)%N ->
  precompute_projection L K = Some [seq cheb_poly L k | k <- iota 0 K].
Proof.
case: K => [|[|K]] // _; congr Some.
rewrite /precompute_projection.
have -> : set_nth 0 (set_nth 0 (nseq K.+2 (0 : 'M[R]_V)) 0 1%:M) 1 L =
  [seq cheb_poly L k | k <- iota 0 2] ++ nseq (K.+2 - 2) 0.
  by rewrite /= subn2 /= /cheb_poly /cheb_term /= /mx_mm mulmx1.
rewrite foldl_projector_step //; first by rewrite subn2 /= add2n.
by rewrite subn2 /= add2n subnn cats0.
Qed.

Lemma view_rowsK (n K : nat) (t : seq 'M[R]_(V, n)) (x : 'M[R]_(n, D)) :
  size t = K -> view_slices (view_rows K t *m x) = [seq A *m x | A <- t].
Proof.
elim: K t => [|K IH] [|A t] //= [sz_t].
by rewrite mul_col_mx col_mxKu col_mxKd IH.
Qed.

Lemma einsum_kvwE (P : seq 'M[R]_V) (x0 : 'M[R]_(V, D)) :
  einsum_kvw P x0 = [seq A^T *m x0 | A <- P].
Proof.
apply: eq_map => A; apply/matrixP => w d; rewrite !mxE.
by apply: eq_bigr => v _; rewrite mxE mulrC.
Qed.

Lemma mx_project_cheb_basis_denseE (L : 'M[R]_V) (x0 : 'M[R]_(V, D)) (K : nat) :
  mx_project_cheb_basis_dense L x0 K = mx_project_cheb_basis L x0 K.
Proof. by []. Qed.

Lemma mx_project_cheb_basisE (L : 'M[R]_V) (x0 : 'M[R]_(V, D)) (K : nat) :
  (0 < K)%N ->
  mx_project_cheb_basis L x0 K = [seq cheb_poly L k *m x0 | k <- iota 0 K].
Proof.
move=> lt0K; rewrite /mx_project_cheb_basis project_cheb_basisE //.
by apply: eq_map => k; rewrite cheb_term_poly.
Qed.

Lemma size_mx_project_cheb_basis (L : 'M[R]_V) (x0 : 'M[R]_(V, D)) (K : nat) :
  (0 < K)%N -> size (mx_project_cheb_basis L x0 K) = K.
Proof. by move=> lt0K; rewrite mx_project_cheb_basisE // size_map size_iota. Qed.

Lemma precompute_pathE (s : bool) (lap : lap_tensor R V) (x0 : 'M[R]_(V, D))
  (K : nat) (dense einsum : bool) :
  (0 < K)%N -> precompute_builds lap K dense ->
  Conv_projection s lap K dense true einsum x0 =
  Some [seq (cheb_poly lap.2 k)^T *m x0 | k <- iota 0 K].
Proof.
move=> lt0K builds; rewrite /Conv_projection.
have -> : Conv_init lap K dense true einsum =
    if ~~ einsum
    then Some (MkConv einsum true dense
           (Projector (view_rows K (permute021 [seq cheb_poly lap.2 k | k <- iota 0 K]))))
    else Some (MkConv einsum true dense
           (ProjectorStack K [seq cheb_poly lap.2 k | k <- iota 0 K])).
  rewrite /Conv_init /precompute_projection_of.
  case: dense builds => [_|] /=; first by rewrite precompute_projectionE.
  rewrite /precompute_builds /=; case: (is_sparse lap) => /=.
    by rewrite leqNgt => /negbTE ->; rewrite precompute_projectionE.
  by rewrite precompute_projectionE.
case: einsum; rewrite /Conv_forward_projection /=.
  by case: dense {builds}; rewrite /= einsum_kvwE -map_comp.
have -> : (if dense then @cheb_conv_dense_projection R V D K
           else @cheb_conv_projection R V D s K)
            (Projector (view_rows K (permute021 [seq cheb_poly lap.2 k | k <- iota 0 K])))
            x0 true false =
          Some (view_slices
            (view_rows K (permute021 [seq cheb_poly lap.2 k | k <- iota 0 K]) *m x0)).
  by case: dense {builds}.
rewrite view_rowsK ?size_map ?size_iota //.
by rewrite /permute021 -!map_comp.
Qed.

Lemma precompute_path_sparse (s : bool) (lap : lap_tensor R V) (x0 : 'M[R]_(V, D))
  (K : nat) (einsum : bool) :
  is_sparse lap -> (1 < K)%N -> Conv_projection s lap K false true einsum x0 = None.
Proof.
by move=> sp lt1K; rewrite /Conv_projection /Conv_init /precompute_projection_of sp lt1K.
Qed.

Lemma runtime_dense_pathE (s : bool) (lap : lap_tensor R V) (x0 : 'M[R]_(V, D))
  (K : nat) (einsum : bool) :
  (0 < K)%N ->
  Conv_projection s lap K true false einsum x0 = Some (mx_project_cheb_basis lap.2 x0 K).
Proof.
move=> lt0K; rewrite /Conv_projection /Conv_forward_projection /=.
by rewrite mx_project_cheb_basis_denseE size_mx_project_cheb_basis // eqxx.
Qed.

Lemma runtime_sparse_pathE (s : bool) (L : 'M[R]_V) (x0 : 'M[R]_(V, D))
  (K : nat) (einsum : bool) :
  (0 < K)%N ->
  Conv_projection s (Sparse, L) K false false einsum x0 =
  Some (mx_project_cheb_basis L x0 K).
Proof.
move=> lt0K; rewrite /Conv_projection /Conv_forward_projection /=.
by rewrite /project_cheb_basis_of /= size_mx_project_cheb_basis // eqxx.
Qed.

Lemma runtime_path_some (s : bool) (lap : lap_tensor R V) (x0 : 'M[R]_(V, D))
  (K : nat) (dense einsum : bool) (r : seq 'M[R]_(V, D)) :
  (0 < K)%N ->
  Conv_projection s lap K dense false einsum x0 = Some r ->
  r = mx_project_cheb_basis lap.2 x0 K.
Proof.
move=> lt0K; case: dense; first by rewrite runtime_dense_pathE // => -[].
rewrite /Conv_projection /Conv_forward_projection /= /project_cheb_basis_of.
case: ifP => // _.
by rewrite size_mx_project_cheb_basis // eqxx => -[].
Qed.

Lemma precompute_path_some (s : bool) (lap : lap_tensor R V) (x0 : 'M[R]_(V, D))
  (K : nat) (dense einsum : bool) (p : seq 'M[R]_(V, D)) :
  (0 < K)%N ->
  Conv_projection s lap K dense true einsum x0 = Some p ->
  p = [seq (cheb_poly lap.2 k)^T *m x0 | k <- iota 0 K].
Proof.
move=> lt0K.
case builds: (precompute_builds lap K dense).
  by rewrite precompute_pathE // => -[].
move: builds; rewrite /precompute_builds.
case: dense => //=; case sp: (is_sparse lap) => //=.
by rewrite leqNgt => /negbFE lt1K; rewrite precompute_path_sparse.
Qed.

End ExactTheory.

(** C1. For every Laplacian [L], signal [x0] and [K >= 1], the basis
    returned by [project_cheb_basis] and the one returned by
    [project_cheb_basis_dense] have [K] slices, slice 0 is [x0], slice 1 is
    [L x0] when [K > 1], and slice [k] is [2 L basis[k-1] - basis[k-2]] for
    every [2 <= k <= K-1]; the equalities are exact whatever the arithmetic
    of the tensor runtime is. *)
Theorem project_cheb_basis_recurrence (operator tensor : Type)
  (sparse_mm mm : operator -> tensor -> tensor)
  (twice : tensor -> tensor) (minus : tensor -> tensor -> tensor)
  (L : operator) (x0 : tensor) (K : nat) :
  (0 < K)%N ->
  cheb_recurrence twice minus (sparse_mm L) x0 K
    (project_cheb_basis sparse_mm twice minus L x0 K) /\
  cheb_recurrence twice minus (mm L) x0 K
    (project_cheb_basis_dense mm twice minus L x0 K).
Proof.
move=> lt0K; rewrite project_cheb_basisE // project_cheb_basis_denseE //.
by split; apply: cheb_terms_recurrence.
Qed.

Lemma project_cheb_basis_recurrence_witness :
  cheb_recurrence (@mx_twice int 2 1) (@mx_minus int 2 1) (mx_mm swap_lap)
    unit_signal 4
    (project_cheb_basis (@mx_mm int 2 1) (@mx_twice int 2 1) (@mx_minus int 2 1)
       swap_lap unit_signal 4) /\
  cheb_recurrence (@mx_twice int 2 1) (@mx_minus int 2 1) (mx_mm swap_lap)
    unit_signal 4
    (project_cheb_basis_dense (@mx_mm int 2 1) (@mx_twice int 2 1) (@mx_minus int 2 1)
       swap_lap unit_signal 4).
Proof. exact: (@project_cheb_basis_recurrence _ _ _ _ _ _ swap_lap unit_signal 4 _). Defined.

(** C2. For every symmetric Laplacian [L] (as the sampling hierarchy
    builds it), signal [x0] and order [K >= 1], in exact arithmetic: the
    layer with [dense] and [precompute], which applies the projector to [x0]
    by one matrix product (or, with [einsum], by the contraction with the
    [K x V x V] tensor), returns the K-way projection that the layer without
    [precompute] returns, and that is the basis of the runtime recurrence;
    wherever the layer with [precompute] is built, through [cheb_conv] as
    through [cheb_conv_dense], it returns the basis that [project_cheb_basis]
    computes, which is what the layer without [precompute] returns through
    [cheb_conv] for the sparse Laplacian; under either value of [dense],
    whenever the precomputed and the runtime layer both return, they return
    the same projection; and the slices of the projector are symmetric, so
    that transposing them before the flattening, as [Conv.__init__] does,
    leaves the [K x V x V] tensor as the recurrence built it. *)
Theorem precompute_runtime_parity (R : comPzRingType) (V D : nat)
  (sparse_mm_strided : bool) (lap : lap_tensor R V) (x0 : 'M[R]_(V, D))
  (K : nat) (einsum : bool) :
  (0 < K)%N -> lap.2^T = lap.2 ->
  [/\ Conv_projection sparse_mm_strided lap K true true einsum x0 =
      Conv_projection sparse_mm_strided lap K true false einsum x0 /\
      Conv_projection sparse_mm_strided lap K true false einsum x0 =
      Some (mx_project_cheb_basis_dense lap.2 x0 K),
      forall dense : bool,
        precompute_builds lap K dense ->
        Conv_projection sparse_mm_strided lap K dense true einsum x0 =
        Some (mx_project_cheb_basis lap.2 x0 K),
      Conv_projection sparse_mm_strided (Sparse, lap.2) K false false einsum x0 =
      Some (mx_project_cheb_basis lap.2 x0 K),
      forall (dense : bool) (p r : seq 'M[R]_(V, D)),
        Conv_projection sparse_mm_strided lap K dense true einsum x0 = Some p ->
        Conv_projection sparse_mm_strided lap K dense false einsum x0 = Some r ->
        p = r /\ r = mx_project_cheb_basis lap.2 x0 K
    & forall projector : seq 'M[R]_V,
        precompute_projection lap.2 K = Some projector ->
        permute021 projector = projector].
Proof.
move=> lt0K symL.
have sym k : (cheb_poly lap.2 k)^T = cheb_poly lap.2 k by rewrite trmx_cheb_poly symL.
have pre : [seq (cheb_poly lap.2 k)^T *m x0 | k <- iota 0 K] =
           mx_project_cheb_basis lap.2 x0 K.
  by rewrite mx_project_cheb_basisE //; apply: eq_map => k; rewrite sym.
split.
- split; first by rewrite precompute_pathE // runtime_dense_pathE // pre.
  by rewrite runtime_dense_pathE // mx_project_cheb_basis_denseE.
- by move=> dense builds; rewrite precompute_pathE // pre.
- exact: runtime_sparse_pathE.
- move=> dense p r /(precompute_path_some lt0K) -> /(runtime_path_some lt0K) ->.
  by rewrite pre.
move=> projector; rewrite precompute_projectionE // => -[<-].
by rewrite /permute021 -map_comp; apply: eq_map => k /=; rewrite sym.
Qed.

Lemma precompute_runtime_parity_witness :
  [/\ Conv_projection true (Sparse, swap_lap) 3 true true false unit_signal =
      Conv_projection true (Sparse, swap_lap) 3 true false false unit_signal /\
      Conv_projection true (Sparse, swap_lap) 3 true false false unit_signal =
      Some (mx_project_cheb_basis_dense swap_lap unit_signal 3),
      forall dense : bool,
        precompute_builds (Sparse, swap_lap) 3 dense ->
        Conv_projection true (Sparse, swap_lap) 3 dense true false unit_signal =
        Some (mx_project_cheb_basis swap_lap unit_signal 3),
      Conv_projection true (Sparse, swap_lap) 3 false false false unit_signal =
      Some (mx_project_cheb_basis swap_lap unit_signal 3),
      forall (dense : bool) (p r : seq 'M[int]_(2, 1)),
        Conv_projection true (Sparse, swap_lap) 3 dense true false unit_signal = Some p ->
        Conv_projection true (Sparse, swap_lap) 3 dense false false unit_signal = Some r ->
        p = r /\ r = mx_project_cheb_basis swap_lap unit_signal 3
    & forall projector : seq 'M[int]_2,
        precompute_projection swap_lap 3 = Some projector ->
        permute021 projector = projector].
Proof.
apply: (@precompute_runtime_parity _ 2 1 true (Sparse, swap_lap) unit_signal 3 false) => //.
by rewrite /swap_lap linearD /= trmxK addrC.
Defined.

(** *** Further properties of the projector *)

Section ProjectorTheory.

Variable R : comPzRingType.
Variables V D : nat.

Lemma project_cheb_basis0 (L : 'M[R]_V) (x0 : 'M[R]_(V, D)) :
  mx_project_cheb_basis L x0 0 = [:: x0].
Proof. by []. Qed.

Lemma nth_mx_project_cheb_basis (L : 'M[R]_V) (x0 : 'M[R]_(V, D)) (K k : nat) :
  nth 0 (mx_project_cheb_basis L x0 K) k =
  if (k < maxn K 1)%N then cheb_poly L k *m x0 else 0.
Proof.
case: K => [|K].
  rewrite project_cheb_basis0 max0n; case: k => [|k] /=; last by rewrite nth_nil.
  by rewrite /cheb_poly /cheb_term /= mul1mx.
rewrite mx_project_cheb_basisE //; have /maxn_idPl -> : (0 < K.+1)%N by [].
case: ltnP => [ltk|lek]; last by rewrite nth_default // size_map size_iota.
by rewrite (nth_map 0%N) ?size_iota // nth_iota.
Qed.

Lemma cheb_poly_commute (L P : 'M[R]_V) (k : nat) :
  P *m L = L *m P -> P *m cheb_poly L k = cheb_poly L k *m P.
Proof.
move=> comm.
suff: P *m cheb_poly L k = cheb_poly L k *m P /\
      P *m cheb_poly L k.+1 = cheb_poly L k.+1 *m P by case.
elim: k => [|k [IH1 IH2]].
  by rewrite /cheb_poly /cheb_term /= /mx_mm !mulmx1 mul1mx.
split=> //.
rewrite cheb_polySS mulmxBr mulmxBl -scalemxAr -scalemxAl IH1.
by rewrite mulmxA comm -!mulmxA IH2.
Qed.

End ProjectorTheory.

(** X1. [precompute_projection] raises for [K = 0], where there is no slice
    to assign the identity to, and for every [K >= 1] it returns [K] slices
    that follow the recurrence of the runtime basis, started from the
    identity matrix: slice 0 is the identity, slice 1 the Laplacian, and slice
    [k] is [2 lap P[k-1] - P[k-2]]. *)
Theorem precompute_projection_recurrence (R : comPzRingType) (V : nat)
  (lap : 'M[R]_V) (K : nat) :
  match precompute_projection lap K with
  | Some projector =>
      (0 < K)%N /\
      cheb_recurrence (@mx_twice R V V) (@mx_minus R V V) (mx_mm lap) 1%:M K projector
  | None => K = 0%N
  end.
Proof.
case: K => [|K] //; rewrite precompute_projectionE //; split=> //.
exact: cheb_terms_recurrence.
Qed.

(** X2. For every Laplacian, symmetric or not, and every order [K >= 1], the
    layer built with [dense] and [precompute] computes the K-way projection
    that the runtime recurrence computes for the transposed Laplacian, with
    the flattened projector and with the einsum contraction alike; so does
    the layer built with [precompute] alone from a strided Laplacian, or
    with [K = 1]; and for a sparse Laplacian without [dense] and [K >= 2]
    the construction raises (at [projector[1] = lap]), so that there is no
    precomputed layer. *)
Theorem precompute_transposed_runtime (R : comPzRingType) (V D : nat)
  (sparse_mm_strided : bool) (lap : lap_tensor R V) (x0 : 'M[R]_(V, D))
  (K : nat) (einsum : bool) :
  (0 < K)%N ->
  [/\ Conv_projection sparse_mm_strided lap K true true einsum x0 =
      Conv_projection sparse_mm_strided (lap.1, lap.2^T) K true false einsum x0,
      forall dense : bool,
        precompute_builds lap K dense ->
        Conv_projection sparse_mm_strided lap K dense true einsum x0 =
        Some (mx_project_cheb_basis lap.2^T x0 K)
    & is_sparse lap -> (1 < K)%N ->
      Conv_projection sparse_mm_strided lap K false true einsum x0 = None].
Proof.
move=> lt0K.
have tr : [seq (cheb_poly lap.2 k)^T *m x0 | k <- iota 0 K] =
          mx_project_cheb_basis lap.2^T x0 K.
  rewrite mx_project_cheb_basisE //.
  by apply: eq_map => k; rewrite trmx_cheb_poly.
split.
- by rewrite precompute_pathE // runtime_dense_pathE //= tr.
- by move=> dense builds; rewrite precompute_pathE // tr.
exact: precompute_path_sparse.
Qed.

Lemma precompute_transposed_runtime_witness :
  [/\ Conv_projection true (Sparse, skew_lap) 2 true true false unit_signal =
      Conv_projection true (Sparse, skew_lap^T) 2 true false false unit_signal,
      forall dense : bool,
        precompute_builds (Sparse, skew_lap) 2 dense ->
        Conv_projection true (Sparse, skew_lap) 2 dense true false unit_signal =
        Some (mx_project_cheb_basis skew_lap^T unit_signal 2)
    & is_sparse (Sparse, skew_lap) -> (1 < 2)%N ->
      Conv_projection true (Sparse, skew_lap) 2 false true false unit_signal = None].
Proof.
exact: (@precompute_transposed_runtime _ 2 1 true (Sparse, skew_lap) unit_signal 2 false _).
Defined.

(** X3. The einsum contraction with the [K x V x V] projector and the single
    matrix product with the flattened projector give the same K-way
    projection, for every Laplacian of either layout, signal and order, with
    and without [dense]; without [precompute] the projection does not look
    at the flag, and where the construction of the precomputed layer raises
    ([K = 0], or a sparse Laplacian without [dense] and [K >= 2]) it raises
    under either flag. *)
Theorem einsum_projection_parity (R : comPzRingType) (V D : nat)
  (sparse_mm_strided : bool) (lap : lap_tensor R V) (x0 : 'M[R]_(V, D))
  (K : nat) (dense precompute : bool) :
  Conv_projection sparse_mm_strided lap K dense precompute true x0 =
  Conv_projection sparse_mm_strided lap K dense precompute false x0.
Proof.
case: precompute; last by case: dense.
case: K => [|K].
  by rewrite /Conv_projection /Conv_init /precompute_projection_of /= andbF.
case builds: (precompute_builds lap K.+1 dense); first by rewrite !precompute_pathE.
move: builds; rewrite /precompute_builds.
case: dense => //=; case sp: (is_sparse lap) => //=.
by rewrite leqNgt => /negbFE lt1K; rewrite !precompute_path_sparse.
Qed.

(** X4. The basis of order [K] is the beginning of the basis of any larger
    order: raising the kernel size of a layer appends slices and leaves the
    first ones as they were, for the sparse and the dense projection and
    whatever the arithmetic of the runtime. *)
Theorem project_cheb_basis_prefix (operator tensor : Type)
  (sparse_mm mm : operator -> tensor -> tensor)
  (twice : tensor -> tensor) (minus : tensor -> tensor -> tensor)
  (L : operator) (x0 : tensor) (K K' : nat) :
  (0 < K <= K')%N ->
  project_cheb_basis sparse_mm twice minus L x0 K =
    take K (project_cheb_basis sparse_mm twice minus L x0 K') /\
  project_cheb_basis_dense mm twice minus L x0 K =
    take K (project_cheb_basis_dense mm twice minus L x0 K').
Proof.
case/andP=> lt0K leK; have lt0K' := leq_trans lt0K leK.
rewrite !project_cheb_basisE // !project_cheb_basis_denseE //.
by rewrite -!map_take take_iota; move/minn_idPl: leK => ->.
Qed.

Lemma project_cheb_basis_prefix_witness :
  project_cheb_basis *%R (fun x => 2 * x) (fun x y => x - y) (3 : int) 1 2 =
    take 2 (project_cheb_basis *%R (fun x => 2 * x) (fun x y => x - y) (3 : int) 1 5) /\
  project_cheb_basis_dense *%R (fun x => 2 * x) (fun x y => x - y) (3 : int) 1 2 =
    take 2 (project_cheb_basis_dense *%R (fun x => 2 * x) (fun x y => x - y) (3 : int) 1 5).
Proof.
exact: (@project_cheb_basis_prefix _ _ *%R *%R (fun x => 2 * x) (fun x y => x - y)
          (3 : int) 1 2 5 _).
Defined.

(** X5. The projection is linear in the signal: every slice of the basis of
    [a x + y] is [a] times the slice of [x] plus the slice of [y], in exact
    arithmetic, for every order (0 included, where the basis is the signal
    alone). *)
Theorem project_cheb_basis_linear (R : comPzRingType) (V D : nat)
  (L : 'M[R]_V) (a : R) (x y : 'M[R]_(V, D)) (K k : nat) :
  nth 0 (mx_project_cheb_basis L (a *: x + y) K) k =
  a *: nth 0 (mx_project_cheb_basis L x K) k + nth 0 (mx_project_cheb_basis L y K) k.
Proof.
rewrite !nth_mx_project_cheb_basis; case: ifP => _; last by rewrite scaler0 addr0.
by rewrite mulmxDr -scalemxAr.
Qed.

(** X6. Equivariance: when a matrix [P] acting on the vertices (a
    permutation of the sampling, say) commutes with the Laplacian, projecting
    the transformed signal [P x0] gives the transformed slices of the
    projection of [x0], in exact arithmetic, for every order. *)
Theorem project_cheb_basis_equivariant (R : comPzRingType) (V D : nat)
  (L P : 'M[R]_V) (x0 : 'M[R]_(V, D)) (K : nat) :
  P *m L = L *m P ->
  mx_project_cheb_basis L (P *m x0) K = [seq P *m s | s <- mx_project_cheb_basis L x0 K].
Proof.
move=> comm; case: K => [|K]; first by rewrite !project_cheb_basis0.
rewrite !mx_project_cheb_basisE // -map_comp; apply: eq_map => k /=.
by rewrite !mulmxA cheb_poly_commute.
Qed.

Lemma project_cheb_basis_equivariant_witness :
  mx_project_cheb_basis swap_lap (swap_lap *m unit_signal) 3 =
  [seq swap_lap *m s | s <- mx_project_cheb_basis swap_lap unit_signal 3].
Proof. exact: (@project_cheb_basis_equivariant _ 2 1 swap_lap swap_lap unit_signal 3 _). Defined.

End Cheb.

(** ** Nested-list tensors shared by the kernel-building code *)

Module Tensor.

Section Helpers.

Variables A B C : Type.

(** Element-wise combination of two tensors of one shape, along one axis. *)
Fixpoint zip_with (f : A -> B -> C) (s : seq A) (t : seq B) : seq C :=
  match s, t with
  | a :: s', b :: t' => f a b :: zip_with f s' t'
  | _, _ => [::]
  end.

Definition map3 (f : A -> B) (t : seq (seq (seq A))) : seq (seq (seq B)) :=
  [seq [seq [seq f v | v <- row] | row <- plane] | plane <- t].

(** The [n x n x n] tensor with entry [f a b c] at position [(a, b, c)]. *)
Definition mk3 (n : nat) (f : nat -> nat -> nat -> A) : seq (seq (seq A)) :=
  mkseq (fun a => mkseq (fun b => mkseq (fun c => f a b c) n) n) n.

(** The entry at position [(a, b, c)]. *)
Definition nth3 (d : A) (t : seq (seq (seq A))) (a b c : nat) : A :=
  nth d (nth [::] (nth [::] t a) b) c.

(** [t.shape == (n1, n2, n3)] *)
Definition shape3 (n1 n2 n3 : nat) (t : seq (seq (seq A))) : bool :=
  (size t == n1) && all (fun p => (size p == n2) && all (fun r => size r == n3) p) t.

End Helpers.

Definition zip_with3 (A B C : Type) (f : A -> B -> C) :
  seq (seq (seq A)) -> seq (seq (seq B)) -> seq (seq (seq C)) :=
  zip_with (zip_with (zip_with f)).

Lemma zip_with_mkseq (A B C : Type) (f : A -> B -> C)
  (g : nat -> A) (h : nat -> B) (n : nat) :
  zip_with f (mkseq g n) (mkseq h n) = mkseq (fun i => f (g i) (h i)) n.
Proof.
rewrite /mkseq; elim: n 0%N => [|n IH] i //=.
by rewrite IH.
Qed.

Lemma nth3_mk3 (A : Type) (d : A) (n : nat) (f : nat -> nat -> nat -> A) a b c :
  a < n -> b < n -> c < n -> nth3 d (mk3 n f) a b c = f a b c.
Proof. by move=> lta ltb ltc; rewrite /nth3 /mk3 !nth_mkseq. Qed.

Lemma map3_mk3 (A B : Type) (g : A -> B) (n : nat) (f : nat -> nat -> nat -> A) :
  map3 g (mk3 n f) = mk3 n (fun a b c => g (f a b c)).
Proof.
rewrite /map3 /mk3 /mkseq -map_comp; apply: eq_map => a /=.
by rewrite -map_comp; apply: eq_map => b /=; rewrite -map_comp.
Qed.

Lemma zip_with3_mk3 (A B C : Type) (g : A -> B -> C) (n : nat)
  (f : nat -> nat -> nat -> A) (h : nat -> nat -> nat -> B) :
  zip_with3 g (mk3 n f) (mk3 n h) = mk3 n (fun a b c => g (f a b c) (h a b c)).
Proof.
rewrite /zip_with3 /mk3 zip_with_mkseq; apply: eq_map => a.
by rewrite zip_with_mkseq; apply: eq_map => b; rewrite zip_with_mkseq.
Qed.

Lemma eq_mk3 (A : Type) (n : nat) (f g : nat -> nat -> nat -> A) :
  (forall a b c, a < n -> b < n -> c < n -> f a b c = g a b c) ->
  mk3 n f = mk3 n g.
Proof.
move=> eq_fg; rewrite /mk3 /mkseq.
apply/eq_in_map => a; rewrite mem_iota add0n => /andP[_ lta].
apply/eq_in_map => b; rewrite mem_iota add0n => /andP[_ ltb].
by apply/eq_in_map => c; rewrite mem_iota add0n => /andP[_ ltc]; apply: eq_fg.
Qed.

Lemma mem_flatten_mk3 (T : eqType) (n : nat) (f : nat -> nat -> nat -> T) a b c :
  a < n -> b < n -> c < n -> f a b c \in flatten (flatten (mk3 n f)).
Proof.
move=> lta ltb ltc; apply/flattenP.
exists (mkseq (f a b) n); last by apply/mapP; exists c; rewrite ?mem_iota.
apply/flattenP; exists (mkseq (fun b' => mkseq (f a b') n) n).
  by apply/mapP; exists a; rewrite ?mem_iota.
by apply/mapP; exists b; rewrite ?mem_iota.
Qed.

Lemma iota0_rcons (n : nat) : iota 0 n.+1 = rcons (iota 0 n) n.
Proof. by rewrite -addn1 iotaD cats1. Qed.

Lemma in_range (i n m : nat) : i < n -> m = n -> i < m.
Proof. by move=> lti ->. Qed.

Lemma size_zip_with (A B C : Type) (f : A -> B -> C) (s : seq A) (t : seq B) :
  size (zip_with f s t) = minn (size s) (size t).
Proof. by elim: s t => [|a s IH] [|b t] //=; rewrite IH minnSS. Qed.

Lemma nth_zip_with (A B C : Type) (f : A -> B -> C) (a0 : A) (b0 : B) (c0 : C)
  (s : seq A) (t : seq B) (i : nat) :
  i < size s -> i < size t ->
  nth c0 (zip_with f s t) i = f (nth a0 s i) (nth b0 t i).
Proof. by elim: s t i => [|a s IH] [|b t] [|i] //=; apply: IH. Qed.

Lemma nth_flatten_rect (T : Type) (x0 : T) (K : nat) (ss : seq (seq T)) (f k : nat) :
  all (fun r => size r == K) ss -> (f < size ss)%N -> (k < K)%N ->
  nth x0 (flatten ss) (f * K + k) = nth x0 (nth [::] ss f) k.
Proof.
elim: ss f => [|r ss IH] [|f] //= /andP[/eqP szr rect] ltf ltk.
  by rewrite mul0n add0n nth_cat szr ltk.
by rewrite nth_cat szr mulSn -addnA ltnNge leq_addr /= addKn IH.
Qed.

Lemma size_flatten_rect (T : Type) (K : nat) (ss : seq (seq T)) :
  all (fun r => size r == K) ss -> size (flatten ss) = (size ss * K)%N.
Proof.
by elim: ss => [|r ss IH] //= /andP[/eqP szr /IH]; rewrite size_cat szr mulSn => ->.
Qed.

Lemma nth3_zip_with3 (A B C : Type) (f : A -> B -> C) (a0 : A) (b0 : B) (c0 : C)
  (s : seq (seq (seq A))) (t : seq (seq (seq B))) (x y z : nat) :
  x < size s -> y < size (nth [::] s x) -> z < size (nth [::] (nth [::] s x) y) ->
  x < size t -> y < size (nth [::] t x) -> z < size (nth [::] (nth [::] t x) y) ->
  nth3 c0 (zip_with3 f s t) x y z = f (nth3 a0 s x y z) (nth3 b0 t x y z).
Proof.
move=> sx sy sz tx ty tz; rewrite /nth3 /zip_with3.
rewrite (nth_zip_with _ [::] [::]) // (nth_zip_with _ [::] [::]) //.
by rewrite (nth_zip_with _ a0 b0).
Qed.

End Tensor.

(** ** Isotropic kernel collapser ([graphconv.py]: [get_index] of
    [SO3SE3Conv], [SpatialConv] and their precomputed variants, which share
    one body) *)

Module Isotropic.

Import Tensor.
Import Order.Theory.
Local Open Scope ring_scope.

(** [np.unique(a)] on the flattened array: the sorted distinct values. *)
Definition np_unique (s : seq rat) : seq rat := undup (sort <=%O s).

Section Mask.

(** Entries of the mask ([torch.zeros], then ones). *)
Variable R : pzSemiRingType.

(** [self.out_channels], [self.in_channels]. *)
Variables out_channels in_channels : nat.

(** [torch.zeros((out_channels, in_channels, size, size, size, n))] *)
Definition zeros6 (size n : nat) : seq (seq (seq (seq (seq (seq R))))) :=
  nseq out_channels (nseq in_channels (mk3 size (fun _ _ _ => nseq n 0))).

(** [weight_tmp[:, :, :, :, :, i][:, :, mask] = 1]: at every spatial offset
    the boolean [mask] selects, for every pair of channels, entry [i] of the
    bucket axis becomes 1. *)
Definition assign_bucket (mask : seq (seq (seq bool))) (i : nat)
  (weight_tmp : seq (seq (seq (seq (seq (seq R)))))) :=
  [seq [seq zip_with3
              (fun (m : bool) buckets => if m then set_nth 0 buckets i 1 else buckets)
              mask t
       | t <- per_out]
  | per_out <- weight_tmp].

(** [get_index]. The distance tensor holds the squared distances: [np.sqrt]
    is strictly increasing, so the sorted distinct values and the index of
    every offset in them are those of the distances themselves. [ind] is kept
    in the [size x size x size] shape that [ind.reshape] restores. *)
Definition get_index (size : nat) :
  seq (seq (seq (seq (seq (seq R))))) * seq (seq (seq nat)) * seq (seq (seq rat)) :=
  let x_mid : rat := (size%:R - 1) / 2%:R in
  let x := [seq i%:R - x_mid | i <- iota 0 size] in
  let distance :=
    [seq [seq [seq xc ^+ 2 + xb ^+ 2 + xa ^+ 2 | xc <- x] | xb <- x] | xa <- x] in
  let unique := np_unique (flatten (flatten distance)) in
  let ind := map3 (fun d => index d unique) distance in
  let weight_tmp := zeros6 size (seq.size unique) in
  let weight_tmp :=
    foldl (fun weight_tmp i => assign_bucket (map3 (fun j => j == i) ind) i weight_tmp)
      weight_tmp (iota 0 (seq.size unique)) in
  (weight_tmp, ind, distance).

(** The coordinate of index [i] along one axis of a kernel of the given
    size, relative to the kernel centre, and the squared Euclidean distance
    of offset [(a, b, c)] from the centre. *)
Definition coordinate (size i : nat) : rat := i%:R - (size%:R - 1) / 2%:R.

Definition distance2 (size a b c : nat) : rat :=
  coordinate size c ^+ 2 + coordinate size b ^+ 2 + coordinate size a ^+ 2.

(** The sorted distinct squared distances of a kernel, and the bucket of an
    offset among them. *)
Definition buckets_of (size : nat) : seq rat :=
  np_unique (flatten (flatten (mk3 size (distance2 size)))).

Definition bucket (size a b c : nat) : nat :=
  index (distance2 size a b c) (buckets_of size).

(** The mask after the buckets below [n] have been assigned. *)
Definition mask_upto (size n : nat) : seq (seq (seq (seq (seq (seq R))))) :=
  nseq out_channels (nseq in_channels (mk3 size (fun a b c =>
    mkseq (fun j => ((j < n)%N && (bucket size a b c == j))%:R)
          (seq.size (buckets_of size))))).

End Mask.

Section MaskTheory.

Variable R : pzSemiRingType.
Variables Fout Fin : nat.

Lemma get_index_distance size :
  (get_index R Fout Fin size).2 = mk3 size (distance2 size).
Proof.
rewrite /get_index /= /mk3 /mkseq -map_comp; apply: eq_map => a /=.
by rewrite -map_comp; apply: eq_map => b /=; rewrite -map_comp.
Qed.

Lemma get_index_ind size : (get_index R Fout Fin size).1.2 = mk3 size (bucket size).
Proof.
have := get_index_distance size; rewrite /get_index /= => ->.
by rewrite map3_mk3.
Qed.

Lemma distance2_in_buckets size a b c :
  (a < size)%N -> (b < size)%N -> (c < size)%N ->
  distance2 size a b c \in buckets_of size.
Proof.
by move=> lta ltb ltc; rewrite /buckets_of /np_unique mem_undup mem_sort mem_flatten_mk3.
Qed.

Lemma bucket_lt size a b c :
  (a < size)%N -> (b < size)%N -> (c < size)%N ->
  (bucket size a b c < seq.size (buckets_of size))%N.
Proof. by move=> lta ltb ltc; rewrite index_mem distance2_in_buckets. Qed.

Lemma buckets_sorted size : sorted <%O (buckets_of size).
Proof.
rewrite lt_sorted_uniq_le undup_uniq /=.
by apply: undup_sorted; [apply: le_trans | apply: sort_le_sorted].
Qed.

Lemma zeros6E size :
  zeros6 R Fout Fin size (seq.size (buckets_of size)) = mask_upto R Fout Fin size 0.
Proof.
rewrite /zeros6 /mask_upto; congr (nseq _ (nseq _ _)); apply: eq_mk3 => a b c _ _ _.
rewrite /mkseq (@eq_map _ _ _ (fun=> 0)) //.
by elim: (seq.size _) 0%N => [|n IH] i //=; rewrite -IH.
Qed.

Lemma assign_bucket_upto size n :
  (n < seq.size (buckets_of size))%N ->
  assign_bucket (map3 (fun j => j == n) (mk3 size (bucket size))) n
    (mask_upto R Fout Fin size n) =
  mask_upto R Fout Fin size n.+1.
Proof.
move=> ltn; rewrite /assign_bucket /mask_upto !map_nseq map3_mk3 zip_with3_mk3.
congr (nseq _ (nseq _ _)); apply: eq_mk3 => a b c _ _ _.
apply: (@eq_from_nth _ 0) => [|j].
  case: ifP => _; rewrite ?size_set_nth !size_mkseq //.
  by apply/maxn_idPr.
move=> ltj.
have {}ltj : (j < seq.size (buckets_of size))%N.
  move: ltj; case: ifP => _; rewrite ?size_set_nth !size_mkseq //.
  by move/maxn_idPr: ltn => ->.
rewrite [RHS]nth_mkseq // ltnS leq_eqVlt.
case: ifP => [/eqP eq_b|neq_b].
  rewrite nth_set_nth /= nth_mkseq // eq_b [n == j]eq_sym.
  by case: (j == n); rewrite //= !andbF.
rewrite nth_mkseq //.
by case: (eqVneq j n) => [->|_] //=; rewrite ltnn neq_b.
Qed.

Lemma foldl_assign_bucket size n i :
  (i + n <= seq.size (buckets_of size))%N ->
  foldl (fun weight_tmp i =>
           assign_bucket (map3 (fun j => j == i) (mk3 size (bucket size))) i weight_tmp)
    (mask_upto R Fout Fin size i) (iota i n) = mask_upto R Fout Fin size (i + n).
Proof.
elim: n i => [|n IH] i le_in /=; first by rewrite addn0.
rewrite assign_bucket_upto ?IH ?addSnnS //.
by apply: leq_trans le_in; rewrite -addSnnS leq_addr.
Qed.

Lemma get_index_mask size :
  (get_index R Fout Fin size).1.1 =
  mask_upto R Fout Fin size (seq.size (buckets_of size)).
Proof.
have := get_index_distance size; have := get_index_ind size.
rewrite /get_index /= => -> ->.
by rewrite -/(buckets_of size) zeros6E foldl_assign_bucket.
Qed.

End MaskTheory.

(** A kernel of size 3 has four distances (centre, faces, edges, corners),
    one of size 2 a single one; the buckets of the offsets of size 3. *)
Example buckets_of_size3 :
  seq.size (buckets_of 3) = 4%N /\ seq.size (buckets_of 2) = 1%N.
Proof. by vm_compute. Qed.

Example get_index_ind_size3 :
  (get_index int 1 1 3).1.2 =
  [:: [:: [:: 3; 2; 3]; [:: 2; 1; 2]; [:: 3; 2; 3]];
      [:: [:: 2; 1; 2]; [:: 1; 0; 1]; [:: 2; 1; 2]];
      [:: [:: 3; 2; 3]; [:: 2; 1; 2]; [:: 3; 2; 3]]]%N.
Proof. by vm_compute. Qed.

(** C4. For every kernel size and every (out-channel, in-channel, x, y, z)
    position of the mask built by [get_index], the stored distance is that
    of the offset from the kernel centre (squared), the row of the mask over
    the bucket axis has one entry per distinct distance, sums to 1, and is 1
    exactly at the index of the offset's distance in the sorted (strictly
    increasing) list of distinct distances. *)
Theorem get_index_one_hot (R : pzSemiRingType) (Fout Fin size o c x y z : nat) :
  (o < Fout)%N -> (c < Fin)%N -> (x < size)%N -> (y < size)%N -> (z < size)%N ->
  let weight_tmp := (get_index R Fout Fin size).1.1 in
  let distance := (get_index R Fout Fin size).2 in
  let unique := np_unique (flatten (flatten distance)) in
  let d := nth3 0 distance x y z in
  let buckets := nth3 [::] (nth [::] (nth [::] weight_tmp o) c) x y z in
  [/\ d = coordinate size x ^+ 2 + coordinate size y ^+ 2 + coordinate size z ^+ 2,
      sorted <%O unique /\ d \in unique,
      seq.size buckets = seq.size unique,
      \sum_(v <- buckets) v = 1 &
      forall i, nth 0 buckets i = (i == index d unique)%:R].
Proof.
move=> lto ltc ltx lty ltz weight_tmp distance unique d buckets.
rewrite {}/buckets {}/d {}/unique {}/distance {}/weight_tmp.
rewrite get_index_mask get_index_distance -/(buckets_of size) /mask_upto.
rewrite nth_nseq lto nth_nseq ltc !nth3_mk3 // -/(bucket size x y z).
have ltb := bucket_lt ltx lty ltz.
split.
- by rewrite /distance2 addrC [X in _ + X]addrC addrA.
- by split; [exact: buckets_sorted | exact: distance2_in_buckets].
- by rewrite size_mkseq.
- rewrite /mkseq big_map.
  have -> : iota 0 (seq.size (buckets_of size)) = index_iota 0 (seq.size (buckets_of size)).
    by rewrite /index_iota subn0.
  rewrite (@eq_big_nat _ _ _ _ _ _ (fun j => if j == bucket size x y z then 1 else 0)).
    by move=> j /andP[_ ->]; rewrite eq_sym; case: (j == _).
  by rewrite -big_mkcond big_nat1_eq /= ltb.
move=> i; case: (ltnP i (seq.size (buckets_of size))) => [lti|lei].
  by rewrite nth_mkseq // lti eq_sym.
rewrite nth_default ?size_mkseq //.
by case: eqP lei => [->|//]; rewrite leqNgt ltb.
Qed.

Lemma get_index_one_hot_witness :
  let weight_tmp := (get_index int 2 3 3).1.1 in
  let distance := (get_index int 2 3 3).2 in
  let unique := np_unique (flatten (flatten distance)) in
  let d := nth3 0 distance 0 1 2 in
  let buckets := nth3 [::] (nth [::] (nth [::] weight_tmp 1) 2) 0 1 2 in
  [/\ d = coordinate 3 0 ^+ 2 + coordinate 3 1 ^+ 2 + coordinate 3 2 ^+ 2,
      sorted <%O unique /\ d \in unique,
      seq.size buckets = seq.size unique,
      \sum_(v <- buckets) v = 1 &
      forall i, nth 0 buckets i = (i == index d unique)%:R].
Proof. exact: (@get_index_one_hot int 2 3 3 1 2 0 1 2). Defined.

(** *** The symmetries of the distance to the kernel centre *)

Lemma coordinate_reflect (size i : nat) :
  (i < size)%N -> coordinate size (size - 1 - i) = - coordinate size i.
Proof.
move=> lti; rewrite /coordinate.
have lt0 : (0 < size)%N by apply: leq_ltn_trans lti.
rewrite natrB; first by rewrite subn1 -ltnS prednK.
rewrite natrB // opprB.
set a : rat := size%:R - 1; set h := a / 2%:R.
have -> : a = h + h by rewrite /h -Num.Theory.splitr.
by rewrite addrAC addrK.
Qed.

Lemma distance2_swap_xy (size a b c : nat) :
  distance2 size b a c = distance2 size a b c.
Proof. by rewrite /distance2 -!addrA [X in _ + X]addrC. Qed.

Lemma distance2_swap_yz (size a b c : nat) :
  distance2 size a c b = distance2 size a b c.
Proof. by rewrite /distance2 [X in X + _]addrC. Qed.

Lemma distance2_reflect (size a b c : nat) :
  (a < size)%N -> distance2 size (size - 1 - a) b c = distance2 size a b c.
Proof. by move=> lta; rewrite /distance2 coordinate_reflect // sqrrN. Qed.

Lemma reflect_lt (size a : nat) : (a < size)%N -> (size - 1 - a < size)%N.
Proof.
move=> lta; have lt0 : (0 < size)%N by apply: leq_ltn_trans lta.
by rewrite -subnDA add1n ltn_subrL.
Qed.

End Isotropic.

(** ** The voxel grid of the fiber-bundle kernels ([graphconv.py],
    [ConvPrecomputed.__init__] for 'bekkers' and
    [FiberBundleConvFixedGraphMLP.__init__]) *)

Module KernelGrid.

Import Tensor.
Local Open Scope ring_scope.

(** Entry [i] of [np.arange(kernel_size) - kernel_size//2 +
    ((kernel_size+1)%2)*0.5]. *)
Definition grid_coordinate (kernel_size i : nat) : rat :=
  i%:R - (kernel_size %/ 2)%:R + ((kernel_size + 1) %% 2)%:R * (1 / 2%:R).

(** [pos]: [np.meshgrid(xx, yy, zz, indexing='ij')] stacked, with the
    coordinate axis moved last and the three grid axes flattened in row-major
    order. *)
Definition pos (kernel_size : nat) : seq (rat * rat * rat) :=
  flatten (flatten (mk3 kernel_size (fun a b c =>
    (grid_coordinate kernel_size a, grid_coordinate kernel_size b,
     grid_coordinate kernel_size c)))).

(** The float32 nearest to a natural number, ties to even: the number is
    rounded to a multiple of [2 ** s], where [s] is the number of bits it has
    beyond the 24 that a float32 keeps. *)
Definition float32 (n : nat) : nat :=
  let s := (trunc_log 2 n - 23)%N in
  let q := (n %/ 2 ^ s)%N in
  let r := (n %% 2 ^ s)%N in
  ((if [|| (2 * r < 2 ^ s)%N | (2 * r == 2 ^ s)%N && ~~ odd q] then q else q.+1)
   * 2 ^ s)%N.

(** [edge_index]: row 0 holds [kernel_size**3 // 2] for every edge, row 1
    the index of the edge. [torch.ones(...) * (kernel_size**3 // 2)] is a
    float32 tensor, so [torch.stack] converts the indices of [torch.arange]
    to float32 as well, before [.to(torch.long)] reads both rows back as
    integers. *)
Definition edge_index (kernel_size : nat) : seq nat * seq nat :=
  (nseq (kernel_size ^ 3) (float32 (kernel_size ^ 3 %/ 2)),
   [seq float32 i | i <- iota 0 (kernel_size ^ 3)]).

(** [rel_pos = pos_send - pos_receive] of [invariant_attr_r3s2_fiber_bundle]
    for edge [j], with [pos_send = pos[edge_index[0]]] and
    [pos_receive = pos[edge_index[1]]]. *)
Definition rel_pos (kernel_size j : nat) : rat * rat * rat :=
  let send := nth 0%N (edge_index kernel_size).1 j in
  let receive := nth 0%N (edge_index kernel_size).2 j in
  let: (sx, sy, sz) := nth (0, 0, 0) (pos kernel_size) send in
  let: (rx, ry, rz) := nth (0, 0, 0) (pos kernel_size) receive in
  (sx - rx, sy - ry, sz - rz).

Lemma grid_coordinateE (kernel_size i : nat) :
  grid_coordinate kernel_size i = Isotropic.coordinate kernel_size i.
Proof.
rewrite /grid_coordinate /Isotropic.coordinate divn2 modn2 addn1 /= -addrA.
congr (_ + _).
have := odd_double_half kernel_size; case: (odd kernel_size) => /= eqk.
  by rewrite mul0r addr0 -[in RHS]eqk natrD -muln2 natrM [1 + _]addrC addrK mulfK.
rewrite mul1r -[in RHS]eqk add0n -muln2 natrM mulrBl mulfK // opprB addrC.
by rewrite mul1r.
Qed.

Lemma nth_pos (kernel_size a b c : nat) :
  (a < kernel_size)%N -> (b < kernel_size)%N -> (c < kernel_size)%N ->
  nth (0, 0, 0) (pos kernel_size) ((a * kernel_size + b) * kernel_size + c) =
  (grid_coordinate kernel_size a, grid_coordinate kernel_size b,
   grid_coordinate kernel_size c).
Proof.
move=> lta ltb ltc; rewrite /pos /mk3.
set planes := mkseq _ _.
have rect_planes : all (fun p => size p == kernel_size) planes.
  by apply/allP => p /mapP[i _ ->]; rewrite size_mkseq.
have rect_rows : all (fun r => size r == kernel_size) (flatten planes).
  apply/allP => r /flattenP[p /mapP[i _ ->]] /mapP[j _ ->].
  by rewrite size_mkseq.
have lt_row : (a * kernel_size + b < size (flatten planes))%N.
  rewrite (size_flatten_rect rect_planes) size_mkseq.
  apply: (@leq_trans (a.+1 * kernel_size)); first by rewrite mulSn addnC ltn_add2r.
  by rewrite leq_mul2r lta orbT.
have lt_plane : (a < size planes)%N by rewrite size_mkseq.
rewrite (nth_flatten_rect _ rect_rows lt_row ltc) (nth_flatten_rect _ rect_planes lt_plane ltb).
by rewrite !nth_mkseq.
Qed.

Lemma cube_half (q : nat) :
  ((2 * q + 1) ^ 3 %/ 2 = (q * (2 * q + 1) + q) * (2 * q + 1) + q)%N.
Proof.
have -> : ((2 * q + 1) ^ 3 =
           1 + ((q * (2 * q + 1) + q) * (2 * q + 1) + q) * 2)%N.
  by rewrite !expnS expn0 -?plusE -?multE; lia.
by rewrite addnC divnMDl // divn_small // addn0.
Qed.

Lemma float32_exact (n : nat) : (n < 2 ^ 24)%N -> float32 n = n.
Proof.
move=> lt24; rewrite /float32.
have -> : (trunc_log 2 n - 23 = 0)%N.
  apply/eqP; rewrite subn_eq0; case: n lt24 => [|n] lt24; first by rewrite trunc_log0.
  have /andP[le_n _] := @trunc_log_bounds 2 n.+1 isT isT.
  by rewrite -ltnS -(@ltn_exp2l 2) //; apply: leq_ltn_trans lt24.
by rewrite expn0 divn1 modn1 muln0 /= muln1.
Qed.

Lemma cube_le_2_24 (k : nat) : (k <= 256)%N -> (k ^ 3 <= 2 ^ 24)%N.
Proof.
move=> le256.
have -> : (2 ^ 24 = (2 ^ 8) ^ 3)%N by rewrite -expnM.
by rewrite leq_exp2r.
Qed.

Lemma odd_centre (q : nat) : grid_coordinate (2 * q + 1) q = 0.
Proof.
rewrite grid_coordinateE /Isotropic.coordinate natrD natrM addrK.
by rewrite [2%:R * _]mulrC mulfK // subrr.
Qed.

(** X7. The voxel positions of the fiber-bundle kernels are those of the
    isotropic mask: row [(a*k + b)*k + c] of [pos] holds the coordinates of
    voxel [(a, b, c)] relative to the kernel centre, since
    [arange(k) - k//2 + ((k+1)%2)*0.5] and [arange(k) - (k-1)/2] are the same
    numbers for every kernel size, even or odd. *)
Theorem grid_matches_get_index (kernel_size a b c : nat) :
  (a < kernel_size)%N -> (b < kernel_size)%N -> (c < kernel_size)%N ->
  nth (0, 0, 0) (pos kernel_size) ((a * kernel_size + b) * kernel_size + c) =
  (Isotropic.coordinate kernel_size a, Isotropic.coordinate kernel_size b,
   Isotropic.coordinate kernel_size c).
Proof. by move=> lta ltb ltc; rewrite nth_pos // !grid_coordinateE. Qed.

Lemma grid_matches_get_index_witness :
  nth (0, 0, 0) (pos 4) ((1 * 4 + 2) * 4 + 3) =
  (Isotropic.coordinate 4 1, Isotropic.coordinate 4 2, Isotropic.coordinate 4 3).
Proof. exact: (@grid_matches_get_index 4 1 2 3). Defined.

(** X8. For an odd kernel size of at most 256 (so that
    [kernel_size**3 <= 2**24] and float32 holds every index as it is) every
    edge of the fiber-bundle kernel leaves from the voxel at the origin: the
    position of index [k**3 // 2] is (0, 0, 0), so the relative position of
    the edge to voxel [(a, b, c)] is minus the centred coordinates of that
    voxel. *)
Theorem odd_kernel_edges_from_centre (kernel_size a b c : nat) :
  odd kernel_size -> (kernel_size <= 256)%N ->
  (a < kernel_size)%N -> (b < kernel_size)%N -> (c < kernel_size)%N ->
  let j := ((a * kernel_size + b) * kernel_size + c)%N in
  [/\ nth 0%N (edge_index kernel_size).1 j = (kernel_size ^ 3 %/ 2)%N,
      nth (0, 0, 0) (pos kernel_size) (nth 0%N (edge_index kernel_size).1 j) = (0, 0, 0) &
      rel_pos kernel_size j =
      (- Isotropic.coordinate kernel_size a, - Isotropic.coordinate kernel_size b,
       - Isotropic.coordinate kernel_size c)].
Proof.
move=> oddk le256 lta ltb ltc.
have lt_i : ((a * kernel_size + b) * kernel_size + c < kernel_size ^ 3)%N.
  rewrite !expnS expn0 muln1 [(kernel_size * _)%N]mulnC.
  apply: (@leq_trans ((a * kernel_size + b).+1 * kernel_size)).
    by rewrite mulSn addnC ltn_add2r.
  rewrite leq_mul2r; apply/orP; right.
  apply: (@leq_trans (a.+1 * kernel_size)); first by rewrite mulSn addnC ltn_add2r.
  by rewrite leq_mul2r lta orbT.
have eqk : kernel_size = (2 * kernel_size./2 + 1)%N.
  by rewrite -[LHS]odd_double_half oddk addnC mul2n.
have ltq : (kernel_size./2 < kernel_size)%N.
  by rewrite [X in (_ < X)%N]eqk -plusE -multE; apply/ltP; lia.
have centre : nth (0, 0, 0) (pos kernel_size) (kernel_size ^ 3 %/ 2) = (0, 0, 0).
  rewrite [X in (X ^ 3)%N]eqk cube_half -eqk nth_pos //.
  by rewrite [X in grid_coordinate X]eqk odd_centre.
have le24 := cube_le_2_24 le256.
have send : float32 (kernel_size ^ 3 %/ 2) = (kernel_size ^ 3 %/ 2)%N.
  have lt0k : (0 < kernel_size)%N by apply: leq_ltn_trans lta.
  apply: float32_exact; apply: (leq_trans _ le24).
  by apply: ltn_Pdiv => //; rewrite expn_gt0 lt0k.
have receive : float32 ((a * kernel_size + b) * kernel_size + c) =
               ((a * kernel_size + b) * kernel_size + c)%N.
  by apply: float32_exact; apply: (leq_trans _ le24).
rewrite /rel_pos /= nth_nseq lt_i (nth_map 0%N) ?size_iota // nth_iota // add0n.
rewrite send receive centre; split=> //.
by rewrite nth_pos // !sub0r !grid_coordinateE.
Qed.

Lemma odd_kernel_edges_from_centre_witness :
  let j := ((0 * 3 + 1) * 3 + 2)%N in
  [/\ nth 0%N (edge_index 3).1 j = (3 ^ 3 %/ 2)%N,
      nth (0, 0, 0) (pos 3) (nth 0%N (edge_index 3).1 j) = (0, 0, 0) &
      rel_pos 3 j =
      (- Isotropic.coordinate 3 0, - Isotropic.coordinate 3 1,
       - Isotropic.coordinate 3 2)].
Proof. exact: (@odd_kernel_edges_from_centre 3 0 1 2). Defined.

(** X9. For an even kernel size [k = 2q >= 2] the voxel of index
    [k**3 // 2], from which every edge leaves, is not at the origin (no voxel
    is): it is the voxel [(q, 0, 0)], at (1/2, 1/2 - q, 1/2 - q). *)
Theorem even_kernel_edges_off_centre (q : nat) :
  (0 < q)%N ->
  nth (0, 0, 0) (pos (2 * q)) ((2 * q) ^ 3 %/ 2) =
  (1 / 2%:R, 1 / 2%:R - q%:R, 1 / 2%:R - q%:R).
Proof.
move=> lt0q.
have -> : ((2 * q) ^ 3 %/ 2 = (q * (2 * q) + 0) * (2 * q) + 0)%N.
  have -> : ((2 * q) ^ 3 = ((q * (2 * q) + 0) * (2 * q) + 0) * 2)%N.
    by rewrite !expnS expn0 -?plusE -?multE; lia.
  by rewrite mulnK.
have lt0k : (0 < 2 * q)%N by rewrite muln_gt0.
have ltq : (q < 2 * q)%N by rewrite -multE; apply/ltP; move/ltP: lt0q; lia.
rewrite nth_pos // /grid_coordinate mulKn // -modnDml modnMr add0n /= mul1r.
by rewrite subrr add0r sub0r addrC.
Qed.

Lemma even_kernel_edges_off_centre_witness :
  nth (0, 0, 0) (pos (2 * 2)) ((2 * 2) ^ 3 %/ 2) =
  (1 / 2%:R, 1 / 2%:R - 2%:R, 1 / 2%:R - 2%:R).
Proof. exact: (@even_kernel_edges_off_centre 2 _). Defined.

End KernelGrid.

(** ** Polynomial features of the fiber-bundle kernels ([graphconv.py],
    [PolynomialFeatures], [FiberBundleConvFixedGraphMLP.__init__]) *)

Module Features.

Import Tensor.
Local Open Scope ring_scope.

(** A pair of spatial invariants, over the integers. *)
Definition sample_invariants : seq int := [:: 2; 5].

Section Polynomial.

Variable R : pzSemiRingType.

(** [torch.einsum('...i,...j->...ij', a, x).flatten(-2, -1)] on the last
    axis: the products [a[i] * x[j]], [i] major. *)
Definition outer_flatten (a x : seq R) : seq R :=
  flatten [seq [seq ai * xj | xj <- x] | ai <- a].

(** [PolynomialFeatures.forward] on the last axis. *)
Definition PolynomialFeatures_forward (degree : nat) (x : seq R) : seq R :=
  let polynomial_list :=
    foldl (fun polynomial_list (_ : nat) =>
             rcons polynomial_list (outer_flatten (last [::] polynomial_list) x))
          [:: x] (iota 1 (degree - 1)) in
  flatten polynomial_list.

(** The features of one degree: [block k] holds the products of [k + 1]
    entries. *)
Definition block (x : seq R) (k : nat) : seq R :=
  iter k (fun a => outer_flatten a x) x.

(** The input widths of the first [Linear] layer after
    [PolynomialFeatures(degree)] in [self.basis] and in [self.fiber_basis]. *)
Definition basis_in_features (degree : nat) : nat := (2 * (2 ^ degree - 1))%N.
Definition fiber_basis_in_features (degree : nat) : nat := degree.

Lemma size_outer_flatten (a x : seq R) :
  size (outer_flatten a x) = (size a * size x)%N.
Proof.
rewrite /outer_flatten (@size_flatten_rect _ (size x)) ?size_map //.
by apply/allP => r /mapP[ai _ ->]; rewrite size_map.
Qed.

Lemma size_block (x : seq R) (k : nat) : size (block x k) = (size x ^ k.+1)%N.
Proof.
elim: k => [|k IH]; first by rewrite expn1.
by rewrite /block iterS size_outer_flatten -/(block x k) IH -expnSr.
Qed.

Lemma map_block_rcons (x : seq R) (j : nat) :
  [seq block x k | k <- iota 0 j.+1] = rcons [seq block x k | k <- iota 0 j] (block x j).
Proof. by rewrite -addn1 iotaD map_cat cats1. Qed.

Lemma foldl_polynomial_list (x : seq R) (n i : nat) :
  foldl (fun polynomial_list (_ : nat) =>
           rcons polynomial_list (outer_flatten (last [::] polynomial_list) x))
        [:: x] (iota i n) =
  [seq block x k | k <- iota 0 n.+1].
Proof.
have gen j : foldl (fun polynomial_list (_ : nat) =>
                 rcons polynomial_list (outer_flatten (last [::] polynomial_list) x))
               (rcons [seq block x k | k <- iota 0 j] (block x j)) (iota i n) =
             rcons [seq block x k | k <- iota 0 (j + n)] (block x (j + n)).
  elim: n i j => [|n IH] i j /=; first by rewrite addn0.
  by rewrite last_rcons -[outer_flatten _ _]/(block x j.+1) -map_block_rcons IH addSnnS.
by rewrite map_block_rcons -(gen 0%N).
Qed.

Lemma PolynomialFeatures_forwardE (degree : nat) (x : seq R) :
  PolynomialFeatures_forward degree x =
  flatten [seq block x k | k <- iota 0 (degree - 1).+1].
Proof. by rewrite /PolynomialFeatures_forward foldl_polynomial_list. Qed.

Lemma sumn_pow2 (d : nat) : (sumn [seq 2 ^ k.+1 | k <- iota 0 d] + 2 = 2 ^ d.+1)%N.
Proof.
elim: d => [|d IH] //.
rewrite iota0_rcons map_rcons sumn_rcons addnAC IH.
by rewrite addnn -mul2n -expnS.
Qed.

Lemma sumn_pow1 (d : nat) : sumn [seq (1 ^ k.+1)%N | k <- iota 0 d] = d.
Proof.
elim: d => [|d IH] //.
by rewrite iota0_rcons map_rcons sumn_rcons IH exp1n addn1.
Qed.

End Polynomial.

(** X10. [PolynomialFeatures(degree)] maps a vector of [n] entries to the
    concatenation of its powers: [n + n^2 + ... + n^degree] entries for
    [degree >= 1]. For the two-component spatial invariants this is
    [2*(2**degree - 1)], and for the one-component spherical invariant
    [degree]: the input widths of the [Linear] layers that follow it in
    [FiberBundleConvFixedGraphMLP]. *)
Theorem polynomial_features_width (R : pzSemiRingType) (degree : nat) (x : seq R) :
  (0 < degree)%N ->
  [/\ size (PolynomialFeatures_forward degree x) =
        sumn [seq (size x ^ k.+1)%N | k <- iota 0 degree],
      size x = 2%N ->
        size (PolynomialFeatures_forward degree x) = basis_in_features degree &
      size x = 1%N ->
        size (PolynomialFeatures_forward degree x) = fiber_basis_in_features degree].
Proof.
move=> lt0d.
have width : size (PolynomialFeatures_forward degree x) =
             sumn [seq (size x ^ k.+1)%N | k <- iota 0 degree].
  rewrite PolynomialFeatures_forwardE size_flatten /shape -map_comp subn1 prednK //.
  by congr sumn; apply: eq_map => k /=; rewrite size_block.
split=> // [sz2|sz1]; rewrite width.
  rewrite sz2 /basis_in_features mulnBr muln1 -expnS -(sumn_pow2 degree).
  by rewrite addnK.
by rewrite sz1 sumn_pow1.
Qed.

Lemma polynomial_features_width_witness :
  [/\ size (PolynomialFeatures_forward 3 sample_invariants) =
        sumn [seq (size sample_invariants ^ k.+1)%N | k <- iota 0 3],
      size sample_invariants = 2%N ->
        size (PolynomialFeatures_forward 3 sample_invariants) = basis_in_features 3 &
      size sample_invariants = 1%N ->
        size (PolynomialFeatures_forward 3 sample_invariants) =
        fiber_basis_in_features 3].
Proof. exact: (@polynomial_features_width int 3 sample_invariants _). Defined.

End Features.

(** ** Fused spherical x spatial kernels ([graphconv.py], [se3so3_conv],
    [se3so3_conv_dense], [SO3SE3ConvPrecomputer.se3so3_conv]) *)

Module Fusion.

Import Tensor.
Local Open Scope ring_scope.

Section Kernels.

(** Entries of the weights. A [kX x kY x kZ] volume is a three-level list, a
    weight [Fout x C x kX x kY x kZ] a list of lists of volumes. *)
Variable R : pzSemiRingType.

Definition volume : Type := seq (seq (seq R)).

(** [t.expand(..., n, ...)] along one axis: a dimension of size 1 is
    repeated [n] times, any other is kept (the [-1] of the source). *)
Definition expand_dim (T : Type) (n : nat) (s : seq T) : seq T :=
  if s is [:: x] then nseq n x else s.

(** [weightSph.view([Fout, Fin*K, 1, 1, 1])] of a [Fout x Fin x K] weight. *)
Definition view_sph (weightSph : seq (seq (seq R))) : seq (seq volume) :=
  [seq [seq [:: [:: [:: w]]] | w <- flatten per_out] | per_out <- weightSph].

(** [.expand(-1, -1, kX, kY, kZ)] *)
Definition expand_spatial (kX kY kZ : nat) (w : seq (seq volume)) : seq (seq volume) :=
  [seq [seq [seq [seq expand_dim kZ row | row <- expand_dim kY plane]
            | plane <- expand_dim kX v]
       | v <- per_out]
  | per_out <- w].

(** [weightSpa.repeat_interleave(K, dim=1)]: along dimension 1 every entry
    is repeated [K] times in a row. *)
Fixpoint repeat_interleave (T : Type) (K : nat) (s : seq T) : seq T :=
  if s is x :: s' then nseq K x ++ repeat_interleave K s' else [::].

Definition repeat_interleave_dim1 (K : nat) (weightSpa : seq (seq volume)) :=
  [seq repeat_interleave K per_out | per_out <- weightSpa].

(** [weightSpa[:, :, None]], [.expand(-1, -1, K, -1, -1, -1)] and
    [.flatten(1, 2)]. *)
Definition unsqueeze2 (weightSpa : seq (seq volume)) : seq (seq (seq volume)) :=
  [seq [seq [:: v] | v <- per_out] | per_out <- weightSpa].

Definition expand_dim2 (K : nat) (t : seq (seq (seq volume))) : seq (seq (seq volume)) :=
  [seq [seq expand_dim K s | s <- per_out] | per_out <- t].

Definition flatten12 (t : seq (seq (seq volume))) : seq (seq volume) :=
  [seq flatten per_out | per_out <- t].

(** [wSph * wSpa], entry by entry. *)
Definition mul5 (a b : seq (seq volume)) : seq (seq volume) :=
  zip_with (zip_with (zip_with3 *%R)) a b.

(** The two layouts of the spatial factor, and the fused kernel of
    [se3so3_conv] ("Expand spherical and Spatial filters"). [K] and
    [kX, kY, kZ] are the entries of [weightSph.shape] and [weightSpa.shape]. *)
Definition wSpa_layout (repeat_interleave : bool) (K : nat)
  (weightSpa : seq (seq volume)) : seq (seq volume) :=
  if repeat_interleave then repeat_interleave_dim1 K weightSpa
  else flatten12 (expand_dim2 K (unsqueeze2 weightSpa)).

Definition fused_weight (repeat_interleave : bool) (K kX kY kZ : nat)
  (weightSph : seq (seq (seq R))) (weightSpa : seq (seq volume)) : seq (seq volume) :=
  let wSph := expand_spatial kX kY kZ (view_sph weightSph) in
  let wSpa := wSpa_layout repeat_interleave K weightSpa in
  mul5 wSph wSpa.

(** The shape entries the source unpacks from [weightSph.shape] and
    [weightSpa.shape]. *)
Definition shape_K (weightSph : seq (seq (seq R))) : nat :=
  size (head [::] (head [::] weightSph)).

Definition shape_kX (weightSpa : seq (seq volume)) : nat :=
  size (head [::] (head [::] weightSpa)).

Definition shape_kY (weightSpa : seq (seq volume)) : nat :=
  size (head [::] (head [::] (head [::] weightSpa))).

Definition shape_kZ (weightSpa : seq (seq volume)) : nat :=
  size (head [::] (head [::] (head [::] (head [::] weightSpa)))).

(** What the kernel construction does not look into: the tensors of the
    input side, the "Transform to Chebyshev basis" stage with its views (the
    sparse and the dense one, and the precomputed one of the layer that owns
    its projector), the volumetric convolution of the runtime with
    [padding='same'], and the final view and permute. *)
Variables (lap_buffer input6 features5 output5 : Type).
Variable cheb_features : lap_buffer -> input6 -> nat -> bool -> bool -> features5.
Variable cheb_features_dense : lap_buffer -> input6 -> nat -> bool -> bool -> features5.
Variable projector_features : lap_buffer -> input6 -> nat -> features5.
Variable conv3d : features5 -> seq (seq volume) -> option (seq R) -> output5.
Variable view_output : output5 -> input6.

Definition se3so3_conv (laplacian : lap_buffer) (inputs : input6)
  (weightSph : seq (seq (seq R))) (weightSpa : seq (seq volume))
  (precompute einsum repeat_interleave : bool) : input6 :=
  let K := shape_K weightSph in
  let kX := shape_kX weightSpa in
  let kY := shape_kY weightSpa in
  let kZ := shape_kZ weightSpa in
  let inputs := cheb_features laplacian inputs K precompute einsum in
  let weight := fused_weight repeat_interleave K kX kY kZ weightSph weightSpa in
  let inputs := conv3d inputs weight None in
  view_output inputs.

Definition se3so3_conv_dense (laplacian : lap_buffer) (inputs : input6)
  (weightSph : seq (seq (seq R))) (weightSpa : seq (seq volume))
  (precompute einsum repeat_interleave : bool) : input6 :=
  let K := shape_K weightSph in
  let kX := shape_kX weightSpa in
  let kY := shape_kY weightSpa in
  let kZ := shape_kZ weightSpa in
  let inputs := cheb_features_dense laplacian inputs K precompute einsum in
  let weight := fused_weight repeat_interleave K kX kY kZ weightSph weightSpa in
  let inputs := conv3d inputs weight None in
  view_output inputs.

(** The spatial parameter of a layer: [Fout x Fin x 1 x 1 x 1 x R] buckets
    under [isoSpa], a full [Fout x Fin x k x k x k] kernel otherwise. *)
Inductive spatial_weight : Type :=
  | BucketWeight (w : seq (seq (seq (seq (seq (seq R))))))
  | FullWeight (w : seq (seq volume)).

Record SO3SE3ConvPrecomputer : Type := MkPrecomputer {
  projector : lap_buffer;
  in_channels : nat;
  out_channels : nat;
  kernel_sizeSph : nat;
  kernel_sizeSpa : nat;
  isoSpa : bool;
  weightSph : seq (seq volume);
  weight_tmp : seq (seq (seq (seq (seq (seq R)))));
  weightSpa : spatial_weight;
  bias : option (seq R)
}.

(** [torch.sum((self.weight_tmp * self.weightSpa), -1)]: the buckets of a
    pair of channels, broadcast over the spatial offsets, weight the mask
    rows, which are summed over the bucket axis. *)
Definition sum_last (row : seq R) : R := \sum_(v <- row) v.

Definition collapse (weight_tmp weightSpa : seq (seq (seq (seq (seq (seq R))))))
  : seq (seq volume) :=
  zip_with (zip_with (fun mask (w : seq (seq (seq (seq R)))) =>
      let buckets := head [::] (head [::] (head [::] w)) in
      map3 (fun row => sum_last (zip_with *%R row buckets)) mask))
    weight_tmp weightSpa.

(** [SO3SE3ConvPrecomputer.se3so3_conv]; a spatial parameter of the other
    shape than [isoSpa] announces is a shape error of the runtime ([None]). *)
Definition precomputer_weight (self : SO3SE3ConvPrecomputer) : option (seq (seq volume)) :=
  if (1 < kernel_sizeSpa self)%N then
    let k := kernel_sizeSpa self in
    let wSph := expand_spatial k k k (weightSph self) in
    let weightSpa :=
      match isoSpa self, weightSpa self with
      | true, BucketWeight w => Some (collapse (weight_tmp self) w)
      | false, FullWeight w => Some w
      | _, _ => None
      end in
    if weightSpa is Some weightSpa then
      let wSpa := flatten12 (expand_dim2 (kernel_sizeSph self) (unsqueeze2 weightSpa)) in
      Some (mul5 wSph wSpa)
    else None
  else Some (weightSph self).

Definition precomputer_se3so3_conv (self : SO3SE3ConvPrecomputer) (inputs : input6)
  : option input6 :=
  let inputs := projector_features (projector self) inputs (kernel_sizeSph self) in
  if precomputer_weight self is Some weight then
    let inputs := conv3d inputs weight (bias self) in
    Some (view_output inputs)
  else None.

(** [w.shape == (Fout, C, kX, kY, kZ)] *)
Definition shape5 (Fout C kX kY kZ : nat) (w : seq (seq volume)) : bool :=
  (size w == Fout) &&
  all (fun per_out => (size per_out == C) && all (shape3 kX kY kZ) per_out) w.

(** [w.shape == (Fout, Fin, 1, 1, 1, n)], the shape of the spatial parameter
    of an isotropic layer. *)
Definition bucket_shape (Fout Fin n : nat) (w : seq (seq (seq (seq (seq (seq R))))))
  : bool :=
  (size w == Fout) &&
  all (fun per_out => (size per_out == Fin) && all (shape3 1 1 1) per_out &&
                      all (fun v => size (head [::] (head [::] (head [::] v))) == n) per_out) w.

(** The layer with another value of its spatial parameter. *)
Definition with_weightSpa (self : SO3SE3ConvPrecomputer) (w : spatial_weight) :=
  MkPrecomputer (projector self) (in_channels self) (out_channels self)
    (kernel_sizeSph self) (kernel_sizeSpa self) (isoSpa self) (weightSph self)
    (weight_tmp self) w (bias self).

End Kernels.

(** A layer over the integers with one input and one output channel, order
    2 and spatial size 1; the input side is a list of integers that the
    stand-in convolution scales by the first kernel entry. *)
Definition unit_layer : SO3SE3ConvPrecomputer int unit :=
  MkPrecomputer tt 1 1 2 1 false
    [:: [:: [:: [:: [:: 3]]]; [:: [:: [:: 5]]]]]
    [::] (FullWeight [:: [:: [:: [:: [:: 7]]]]]) None.

Definition scale_conv3d (x : seq int) (w : seq (seq (volume int)))
  (b : option (seq int)) : seq int :=
  [seq nth3 0 (head [::] (head [::] w)) 0 0 0 * v | v <- x].

(** Weights over the integers: a [1 x 2 x 2] spherical weight, a
    [1 x 2 x 1 x 1 x 2] spatial weight, and the bucket weights of an isotropic
    layer with one input and one output channel and a kernel of size 3 (four
    distances). *)
Definition sph_1x2x2 : seq (seq (seq int)) := [:: [:: [:: 1; 2]; [:: 3; 4]]].

Definition spa_1x2x1x1x2 : seq (seq (volume int)) :=
  [:: [:: [:: [:: [:: 10; 11]]]; [:: [:: [:: 20; 21]]]]].

Definition buckets_1x1x4 : seq (seq (seq (seq (seq (seq int))))) :=
  [:: [:: [:: [:: [:: [:: 10; 20; 30; 40]]]]]].

Section KernelTheory.

Variable R : pzSemiRingType.

Lemma expand_layoutE (K : nat) (per_out : seq (volume R)) :
  flatten [seq expand_dim K s | s <- [seq [:: v] | v <- per_out]] =
  repeat_interleave K per_out.
Proof. by elim: per_out => [|v per_out IH] //=; rewrite IH. Qed.

Lemma wSpa_layoutE (K : nat) (weightSpa : seq (seq (volume R))) :
  wSpa_layout false K weightSpa = wSpa_layout true K weightSpa.
Proof.
rewrite /wSpa_layout /flatten12 /expand_dim2 /unsqueeze2 /repeat_interleave_dim1.
by rewrite -!map_comp; apply: eq_map => per_out /=; rewrite expand_layoutE.
Qed.

End KernelTheory.

(** Two input channels, order 2 and a 1 x 1 x 2 spatial kernel: channel
    [f*K + k] of the fused kernel is entry [(f, k)] of the spherical weight
    times the spatial kernel of input channel [f], in either layout. *)
Example fused_weight_2x2 :
  fused_weight false 2 1 1 2
    [:: [:: [:: 1; 2]; [:: 3; 4]]]
    [:: [:: [:: [:: [:: 10; 11]]]; [:: [:: [:: 20; 21]]]]] =
  [:: [:: [:: [:: [:: 10; 11 : int]]]; [:: [:: [:: 20; 22]]];
          [:: [:: [:: 60; 63]]]; [:: [:: [:: 80; 84]]]]] /\
  fused_weight true 2 1 1 2
    [:: [:: [:: 1; 2]; [:: 3; 4]]]
    [:: [:: [:: [:: [:: 10; 11]]]; [:: [:: [:: 20; 21]]]]] =
  [:: [:: [:: [:: [:: 10; 11 : int]]]; [:: [:: [:: 20; 22]]];
          [:: [:: [:: 60; 63]]]; [:: [:: [:: 80; 84]]]]].
Proof. by vm_compute. Qed.

(** C3. For every spherical and spatial weight, the "expand" layout and the
    "repeat-interleave" layout of the spatial factor are the same tensor, so
    the fused kernel is the same and [se3so3_conv] and [se3so3_conv_dense]
    return the same output for every input, whatever the runtime's
    convolution is. *)
Theorem fusion_layouts_agree (R : pzSemiRingType)
  (lap_buffer input6 features5 output5 : Type)
  (cheb_features cheb_features_dense :
     lap_buffer -> input6 -> nat -> bool -> bool -> features5)
  (conv3d : features5 -> seq (seq (volume R)) -> option (seq R) -> output5)
  (view_output : output5 -> input6)
  (laplacian : lap_buffer) (inputs : input6)
  (weightSph : seq (seq (seq R))) (weightSpa : seq (seq (volume R)))
  (precompute einsum : bool) (K kX kY kZ : nat) :
  [/\ wSpa_layout false K weightSpa = wSpa_layout true K weightSpa,
      fused_weight false K kX kY kZ weightSph weightSpa =
      fused_weight true K kX kY kZ weightSph weightSpa,
      se3so3_conv cheb_features conv3d view_output laplacian inputs
        weightSph weightSpa precompute einsum false =
      se3so3_conv cheb_features conv3d view_output laplacian inputs
        weightSph weightSpa precompute einsum true &
      se3so3_conv_dense cheb_features_dense conv3d view_output laplacian inputs
        weightSph weightSpa precompute einsum false =
      se3so3_conv_dense cheb_features_dense conv3d view_output laplacian inputs
        weightSph weightSpa precompute einsum true].
Proof.
split; first exact: wSpa_layoutE.
- by rewrite /fused_weight wSpa_layoutE.
- by rewrite /se3so3_conv /fused_weight wSpa_layoutE.
by rewrite /se3so3_conv_dense /fused_weight wSpa_layoutE.
Qed.

(** C10. Two runs of [SO3SE3ConvPrecomputer.se3so3_conv] on a layer with
    [kernel_sizeSpa = 1] that differ only in the value of [weightSpa] return
    the same output on every input: the kernel handed to the convolution is
    [weightSph] alone. *)
Theorem precomputer_ignores_weightSpa (R : pzSemiRingType)
  (lap_buffer input6 features5 output5 : Type)
  (projector_features : lap_buffer -> input6 -> nat -> features5)
  (conv3d : features5 -> seq (seq (volume R)) -> option (seq R) -> output5)
  (view_output : output5 -> input6)
  (self : SO3SE3ConvPrecomputer R lap_buffer) (w1 w2 : spatial_weight R)
  (inputs : input6) :
  kernel_sizeSpa self = 1%N ->
  precomputer_weight (with_weightSpa self w1) = Some (weightSph self) /\
  precomputer_se3so3_conv projector_features conv3d view_output
    (with_weightSpa self w1) inputs =
  precomputer_se3so3_conv projector_features conv3d view_output
    (with_weightSpa self w2) inputs.
Proof.
by move=> k1; rewrite /precomputer_se3so3_conv /precomputer_weight /= k1.
Qed.

Lemma precomputer_ignores_weightSpa_witness :
  precomputer_weight
    (with_weightSpa unit_layer (FullWeight [:: [:: [:: [:: [:: 7]]]]])) =
    Some (weightSph unit_layer) /\
  precomputer_se3so3_conv (fun _ x _ => x) scale_conv3d id
    (with_weightSpa unit_layer (FullWeight [:: [:: [:: [:: [:: 7]]]]]))
    [:: 1; 2] =
  precomputer_se3so3_conv (fun _ x _ => x) scale_conv3d id
    (with_weightSpa unit_layer (FullWeight [:: [:: [:: [:: [:: 11]]]]]))
    [:: 1; 2].
Proof. exact: precomputer_ignores_weightSpa. Defined.

(** *** The entries of the collapsed and of the fused kernel *)

Section EntryTheory.

Variable R : pzSemiRingType.

Lemma sum_one_hot (n b : nat) (buckets : seq R) :
  size buckets = n -> (b < n)%N ->
  sum_last (zip_with *%R (mkseq (fun j => ((j < n)%N && (b == j))%:R) n) buckets) =
  nth 0 buckets b.
Proof.
move=> sz ltb; rewrite /sum_last -[buckets in zip_with _ _ buckets](mkseq_nth 0) sz.
rewrite zip_with_mkseq /mkseq big_map.
have -> : iota 0 n = index_iota 0 n by rewrite /index_iota subn0.
rewrite (@eq_big_nat _ _ _ _ _ _ (fun j => if j == b then nth 0 buckets b else 0)).
  move=> j /andP[_ ->] /=; rewrite eq_sym.
  by case: eqP => [->|_]; rewrite ?mul1r ?mul0r.
by rewrite -big_mkcond big_nat1_eq /= ltb.
Qed.

Lemma collapse_get_index (Fout Fin ks : nat)
  (weightSpa : seq (seq (seq (seq (seq (seq R)))))) (o c x y z : nat) :
  bucket_shape Fout Fin (size (Isotropic.buckets_of ks)) weightSpa ->
  (o < Fout)%N -> (c < Fin)%N -> (x < ks)%N -> (y < ks)%N -> (z < ks)%N ->
  nth3 0 (nth [::] (nth [::]
    (collapse (Isotropic.get_index R Fout Fin ks).1.1 weightSpa) o) c) x y z =
  nth 0 (head [::] (head [::] (head [::] (nth [::] (nth [::] weightSpa o) c))))
    (Isotropic.bucket ks x y z).
Proof.
case/andP=> /eqP szw /all_nthP shw lto ltc ltx lty ltz.
have /andP[/andP[/eqP szo _] /all_nthP sho] : _ := shw [::] o (in_range lto szw).
have /eqP szb : _ := sho [::] c (in_range ltc szo).
rewrite Isotropic.get_index_mask /collapse /Isotropic.mask_upto.
rewrite (nth_zip_with _ [::] [::]) ?size_nseq ?szw // nth_nseq lto.
rewrite (nth_zip_with _ [::] [::]) ?size_nseq ?szo // nth_nseq ltc.
rewrite map3_mk3 nth3_mk3 // sum_one_hot //.
exact: Isotropic.bucket_lt.
Qed.

Lemma size_repeat_interleave (T : Type) (K : nat) (s : seq T) :
  size (repeat_interleave K s) = (size s * K)%N.
Proof. by elim: s => [|v s IH] //=; rewrite size_cat size_nseq IH mulSn. Qed.

Lemma nth_repeat_interleave (T : Type) (x0 : T) (K : nat) (s : seq T) (f k : nat) :
  (f < size s)%N -> (k < K)%N ->
  nth x0 (repeat_interleave K s) (f * K + k) = nth x0 s f.
Proof.
elim: s f => [|v s IH] [|f] //= ltf ltk.
  by rewrite mul0n add0n nth_cat size_nseq ltk nth_nseq ltk.
by rewrite nth_cat size_nseq mulSn -addnA ltnNge leq_addr /= addKn IH.
Qed.

Lemma channel_lt (Fin K f k : nat) : (f < Fin)%N -> (k < K)%N -> (f * K + k < Fin * K)%N.
Proof.
move=> ltf ltk; apply: (@leq_trans (f.+1 * K)); first by rewrite mulSn addnC ltn_add2r.
by rewrite leq_mul2r ltf orbT.
Qed.

Lemma fused_weight_nth (ri : bool) (Fout Fin K kX kY kZ : nat)
  (weightSph : seq (seq (seq R))) (weightSpa : seq (seq (volume R)))
  (o f k x y z : nat) :
  shape3 Fout Fin K weightSph -> shape5 Fout Fin kX kY kZ weightSpa ->
  (o < Fout)%N -> (f < Fin)%N -> (k < K)%N ->
  (x < kX)%N -> (y < kY)%N -> (z < kZ)%N ->
  nth3 0 (nth [::] (nth [::]
    (fused_weight ri K kX kY kZ weightSph weightSpa) o) (f * K + k)) x y z =
  nth 0 (nth [::] (nth [::] weightSph o) f) k *
  nth3 0 (nth [::] (nth [::] weightSpa o) f) x y z.
Proof.
case/andP=> /eqP szh /all_nthP shh /andP[/eqP sza /all_nthP sha].
move=> lto ltf ltk ltx lty ltz.
have /andP[/eqP szho /allP rowK] : _ := shh [::] o (in_range lto szh).
have {rowK} rowK : all (fun r => size r == K) (nth [::] weightSph o).
  by apply/allP => r /rowK.
have /andP[/eqP szao /all_nthP vols] : _ := sha [::] o (in_range lto sza).
have /andP[/eqP szx /all_nthP shx] : _ := vols [::] f (in_range ltf szao).
have /andP[/eqP szy /all_nthP shy] : _ := shx [::] x (in_range ltx szx).
have /eqP szz : _ := shy [::] y (in_range lty szy).
have ltc := channel_lt ltf ltk.
have -> : fused_weight ri K kX kY kZ weightSph weightSpa =
          fused_weight true K kX kY kZ weightSph weightSpa.
  by case: ri => //; rewrite /fused_weight wSpa_layoutE.
rewrite /fused_weight /mul5 /wSpa_layout /repeat_interleave_dim1 /expand_spatial /view_sph.
rewrite (nth_zip_with _ [::] [::]) ?size_map ?szh ?sza //.
rewrite !(nth_map [::]) ?size_map ?szh ?sza // -map_comp.
have szfl : size (flatten (nth [::] weightSph o)) = (Fin * K)%N.
  by rewrite (size_flatten_rect rowK) szho.
have szri : size (repeat_interleave K (nth [::] weightSpa o)) = (Fin * K)%N.
  by rewrite size_repeat_interleave szao.
rewrite (nth_zip_with _ [::] [::]) ?size_map ?szfl ?szri //.
rewrite (nth_map 0) ?szfl // nth_flatten_rect ?szho //.
rewrite nth_repeat_interleave ?szao // /expand_dim /= !map_nseq /=.
set w := nth 0 _ k.
have e1 : nth [::] (nseq kX (nseq kY (nseq kZ w))) x = nseq kY (nseq kZ w).
  by rewrite nth_nseq ltx.
have e2 : nth [::] (nseq kY (nseq kZ w)) y = nseq kZ w by rewrite nth_nseq lty.
rewrite (nth3_zip_with3 _ 0 0) ?e1 ?e2 ?size_nseq ?szx ?szy ?szz //.
by rewrite /nth3 e1 e2 nth_nseq ltz.
Qed.

End EntryTheory.

(** X11. The kernel an isotropic layer hands to the convolution,
    [torch.sum(weight_tmp * weightSpa, -1)] with the mask of [get_index], has
    at every spatial offset the bucket weight of that offset: entry
    [(o, c, x, y, z)] is [weightSpa[o, c, 0, 0, 0, r]] where [r] is the index
    of the offset's distance to the kernel centre among the sorted distinct
    distances. *)
Theorem collapse_selects_bucket (R : pzSemiRingType) (Fout Fin ks : nat)
  (weightSpa : seq (seq (seq (seq (seq (seq R)))))) (o c x y z : nat) :
  bucket_shape Fout Fin (size (Isotropic.buckets_of ks)) weightSpa ->
  (o < Fout)%N -> (c < Fin)%N -> (x < ks)%N -> (y < ks)%N -> (z < ks)%N ->
  nth3 0 (nth [::] (nth [::]
    (collapse (Isotropic.get_index R Fout Fin ks).1.1 weightSpa) o) c) x y z =
  nth 0 (head [::] (head [::] (head [::] (nth [::] (nth [::] weightSpa o) c))))
    (index (Isotropic.distance2 ks x y z) (Isotropic.buckets_of ks)).
Proof. exact: collapse_get_index. Qed.

Lemma collapse_selects_bucket_witness :
  nth3 0 (nth [::] (nth [::]
    (collapse (Isotropic.get_index int 1 1 3).1.1 buckets_1x1x4) 0) 0) 0 1 2 =
  nth 0 (head [::] (head [::] (head [::] (nth [::] (nth [::] buckets_1x1x4 0) 0))))
    (index (Isotropic.distance2 3 0 1 2) (Isotropic.buckets_of 3)).
Proof. by apply: (@collapse_selects_bucket int 1 1 3 _ 0 0 0 1 2). Defined.

(** X12. The collapsed kernel of an isotropic layer is isotropic: two offsets
    at the same distance from the kernel centre get the same value, for every
    pair of channels and all bucket weights; in particular the kernel is
    unchanged by exchanging two axes and by reflecting an axis, the
    generators of the 48 symmetries of the cube. *)
Theorem collapse_isotropic (R : pzSemiRingType) (Fout Fin ks : nat)
  (weightSpa : seq (seq (seq (seq (seq (seq R)))))) (o c x y z : nat) :
  bucket_shape Fout Fin (size (Isotropic.buckets_of ks)) weightSpa ->
  (o < Fout)%N -> (c < Fin)%N -> (x < ks)%N -> (y < ks)%N -> (z < ks)%N ->
  let kernel :=
    nth3 0 (nth [::] (nth [::]
      (collapse (Isotropic.get_index R Fout Fin ks).1.1 weightSpa) o) c) in
  [/\ forall x' y' z', (x' < ks)%N -> (y' < ks)%N -> (z' < ks)%N ->
        Isotropic.distance2 ks x' y' z' = Isotropic.distance2 ks x y z ->
        kernel x' y' z' = kernel x y z,
      kernel y x z = kernel x y z,
      kernel x z y = kernel x y z &
      kernel (ks - 1 - x)%N y z = kernel x y z].
Proof.
move=> shw lto ltc ltx lty ltz kernel.
have same x' y' z' : (x' < ks)%N -> (y' < ks)%N -> (z' < ks)%N ->
    Isotropic.distance2 ks x' y' z' = Isotropic.distance2 ks x y z ->
    kernel x' y' z' = kernel x y z.
  move=> ltx' lty' ltz' eq_d.
  by rewrite /kernel !(collapse_get_index shw) // /Isotropic.bucket eq_d.
split=> //.
- by apply: same => //; exact: Isotropic.distance2_swap_xy.
- by apply: same => //; exact: Isotropic.distance2_swap_yz.
by apply: same; rewrite ?Isotropic.reflect_lt //; exact: Isotropic.distance2_reflect.
Qed.

Lemma collapse_isotropic_witness :
  let kernel :=
    nth3 0 (nth [::] (nth [::]
      (collapse (Isotropic.get_index int 1 1 3).1.1 buckets_1x1x4) 0) 0) in
  [/\ forall x' y' z', (x' < 3)%N -> (y' < 3)%N -> (z' < 3)%N ->
        Isotropic.distance2 3 x' y' z' = Isotropic.distance2 3 0 1 2 ->
        kernel x' y' z' = kernel 0%N 1%N 2%N,
      kernel 1%N 0%N 2%N = kernel 0%N 1%N 2%N,
      kernel 0%N 2%N 1%N = kernel 0%N 1%N 2%N &
      kernel (3 - 1 - 0)%N 1%N 2%N = kernel 0%N 1%N 2%N].
Proof. by apply: (@collapse_isotropic int 1 1 3 _ 0 0 0 1 2). Defined.

(** X13. The fused kernel of the mixed convolution is the outer product of
    its two factors: for weights of shapes [Fout x Fin x K] and
    [Fout x Fin x kX x kY x kZ], channel [f*K + k] of output channel [o] holds,
    at every offset, the spherical coefficient [weightSph[o, f, k]] times the
    spatial kernel entry [weightSpa[o, f, x, y, z]], in either layout. *)
Theorem fused_weight_entry (R : pzSemiRingType) (ri : bool) (Fout Fin K kX kY kZ : nat)
  (weightSph : seq (seq (seq R))) (weightSpa : seq (seq (volume R)))
  (o f k x y z : nat) :
  shape3 Fout Fin K weightSph -> shape5 Fout Fin kX kY kZ weightSpa ->
  (o < Fout)%N -> (f < Fin)%N -> (k < K)%N ->
  (x < kX)%N -> (y < kY)%N -> (z < kZ)%N ->
  size (nth [::] (fused_weight ri K kX kY kZ weightSph weightSpa) o) = (Fin * K)%N /\
  nth3 0 (nth [::] (nth [::]
    (fused_weight ri K kX kY kZ weightSph weightSpa) o) (f * K + k)) x y z =
  nth 0 (nth [::] (nth [::] weightSph o) f) k *
  nth3 0 (nth [::] (nth [::] weightSpa o) f) x y z.
Proof.
move=> shh sha lto ltf ltk ltx lty ltz; split; last exact: (fused_weight_nth ri shh sha lto ltf ltk ltx lty ltz).
case/andP: shh => /eqP szh /all_nthP shh; case/andP: sha => /eqP sza /all_nthP sha.
have /andP[/eqP szho /allP rowK] : _ := shh [::] o (in_range lto szh).
have {rowK} rowK : all (fun r => size r == K) (nth [::] weightSph o).
  by apply/allP => r /rowK.
have /andP[/eqP szao _] : _ := sha [::] o (in_range lto sza).
have -> : fused_weight ri K kX kY kZ weightSph weightSpa =
          fused_weight true K kX kY kZ weightSph weightSpa.
  by case: ri => //; rewrite /fused_weight wSpa_layoutE.
rewrite /fused_weight /mul5 /wSpa_layout /repeat_interleave_dim1 /expand_spatial /view_sph.
rewrite (nth_zip_with _ [::] [::]) ?size_map ?szh ?sza //.
rewrite !(nth_map [::]) ?size_map ?szh ?sza //.
by rewrite size_zip_with !size_map size_repeat_interleave (size_flatten_rect rowK) szho szao minnn.
Qed.

Lemma fused_weight_entry_witness :
  (size (nth [::] (fused_weight false 2 1 1 2 sph_1x2x2 spa_1x2x1x1x2) 0) = 2 * 2)%N /\
  nth3 0 (nth [::] (nth [::]
    (fused_weight false 2 1 1 2 sph_1x2x2 spa_1x2x1x1x2) 0) (1 * 2 + 0)) 0 0 1 =
  nth 0 (nth [::] (nth [::] sph_1x2x2 0) 1) 0 *
  nth3 0 (nth [::] (nth [::] spa_1x2x1x1x2 0) 1) 0 0 1.
Proof. exact: (@fused_weight_entry int false 1 2 2 1 1 2 _ _ 0 1 0 0 0 1). Defined.

End Fusion.

(** ** Least-squares inverse of the harmonic basis ([sampling.py], the end
    of [_sh_matrix] and [_s2sh_from_sh2s]; [model/shutils.py], [ComputeSHC]
    and [ComputeSignal]) *)

Module Harmonics.

Local Open Scope ring_scope.

Section LeastSquares.

(** Exact arithmetic: the entries live in a field. *)
Variable F : fieldType.

(** [np.linalg.inv]. It factorises the matrix in floating point: on a matrix
    that has an inverse it returns it (up to rounding), and on one that has
    none it raises [LinAlgError] ([None]) or, when rounding hides the
    singularity, returns a matrix that is no inverse. Nothing is fixed about
    it here; what a theorem needs of it is a hypothesis of that theorem. *)
Variable linalg_inv : forall n : nat, 'M[F]_n -> option 'M[F]_n.

(** [C] coefficients, [N] directions. *)
Variables C N : nat.

(** The last statements of [_sh_matrix], from the matrix [b] that its loop
    nest has filled. *)
Definition sh_matrix_of_basis (b : 'M[F]_(C, N))
  : option ('M[F]_(N, C) * 'M[F]_(C, N)) :=
  if linalg_inv (b *m b^T) is Some b_inv then
    let spatial2spectral := b^T *m b_inv in
    let spectral2spatial := b in
    Some (spatial2spectral, spectral2spatial)
  else None.

Definition _s2sh_from_sh2s (spectral2spatial : 'M[F]_(C, N)) : option 'M[F]_(N, C) :=
  if linalg_inv (spectral2spatial *m spectral2spatial^T) is Some spectral2spatial_inv then
    let spatial2spectral := spectral2spatial^T *m spectral2spatial_inv in
    Some spatial2spectral
  else None.

(** [torch.einsum('ijklmn,kp->ijplmn', x, M)] on the view of [x] that keeps
    the contracted axis [k] and gathers the five others in one: entry
    [(d, p)] is the sum over [k] of [x[d, k] * M[k, p]]. *)
Definition einsum_kp (D V P : nat) (x : 'M[F]_(D, V)) (M : 'M[F]_(V, P)) : 'M[F]_(D, P) :=
  \matrix_(d, p) \sum_k x d k * M k p.

(** [ComputeSHC.forward] and [ComputeSignal.forward] *)
Definition ComputeSHC (D : nat) (S2SH : 'M[F]_(N, C)) (x : 'M[F]_(D, N)) : 'M[F]_(D, C) :=
  einsum_kp x S2SH.

Definition ComputeSignal (D : nat) (SH2S : 'M[F]_(C, N)) (x : 'M[F]_(D, C)) : 'M[F]_(D, N) :=
  einsum_kp x SH2S.

End LeastSquares.

(** Two behaviours [np.linalg.inv] may have: the exact inverse, which raises
    on every singular matrix, and an inverse that always returns, with a
    matrix of no use (here the argument itself) on a singular one. *)
Definition exact_inv (F : fieldType) (n : nat) (A : 'M[F]_n) : option 'M[F]_n :=
  if A \in unitmx then Some (invmx A) else None.

Definition total_inv (F : fieldType) (n : nat) (A : 'M[F]_n) : option 'M[F]_n :=
  Some (invmx A).

(** A basis over the rationals with an inverse: the identity on two
    directions. *)
Definition unit_basis : 'M[rat]_2 := 1%:M.

(** A basis with two coefficients on a single direction. *)
Definition tall_basis : 'M[rat]_(2, 1) := const_mx 1.

Section LeastSquaresTheory.

Variable F : fieldType.
Variables C N : nat.

Lemma einsum_kpE (D V P : nat) (x : 'M[F]_(D, V)) (M : 'M[F]_(V, P)) :
  einsum_kp x M = x *m M.
Proof. by apply/matrixP => d p; rewrite !mxE. Qed.

Lemma gram_singular (b : 'M[F]_(C, N)) : (N < C)%N -> b *m b^T \in unitmx = false.
Proof.
move=> ltNC; apply/negP => /mxrank_unit rankC.
have := leq_trans (mxrankM_maxl b b^T) (rank_leq_col b).
by rewrite rankC leqNgt ltNC.
Qed.

(** With more coefficients than directions no matrix is a right inverse of
    the basis. *)
Lemma no_right_inverse (b : 'M[F]_(C, N)) (S : 'M[F]_(N, C)) :
  (N < C)%N -> b *m S != 1%:M.
Proof.
move=> ltNC; apply/eqP => inv.
have := leq_trans (mxrankM_maxl b S) (rank_leq_col b).
by rewrite inv mxrank1 leqNgt ltNC.
Qed.

End LeastSquaresTheory.

(** X14. For a basis whose Gram matrix [b b^T] has an inverse, which
    [np.linalg.inv] returns, [_sh_matrix] returns, and its two matrices are
    inverse to each other on the coefficients, in exact arithmetic: SH2S is
    the basis itself, S2SH is [b^T (b b^T)^-1], SH2S times S2SH is the
    identity, so [ComputeSHC] after [ComputeSignal] gives back every
    coefficient tensor, [ComputeSignal] after [ComputeSHC] is a projection
    (applying it twice is applying it once), and [_s2sh_from_sh2s] rebuilds
    the same S2SH from SH2S. *)
Theorem sh_matrix_round_trip (F : fieldType)
  (linalg_inv : forall n : nat, 'M[F]_n -> option 'M[F]_n) (C N : nat)
  (b : 'M[F]_(C, N)) :
  b *m b^T \in unitmx ->
  linalg_inv C (b *m b^T) = Some (invmx (b *m b^T)) ->
  let S2SH := b^T *m invmx (b *m b^T) in
  [/\ sh_matrix_of_basis linalg_inv b = Some (S2SH, b),
      b *m S2SH = 1%:M,
      _s2sh_from_sh2s linalg_inv b = Some S2SH,
      forall (D : nat) (c : 'M[F]_(D, C)), ComputeSHC S2SH (ComputeSignal b c) = c &
      forall (D : nat) (x : 'M[F]_(D, N)),
        ComputeSignal b (ComputeSHC S2SH (ComputeSignal b (ComputeSHC S2SH x))) =
        ComputeSignal b (ComputeSHC S2SH x)].
Proof.
move=> unit_g inv_g S2SH.
have inv : b *m S2SH = 1%:M by rewrite /S2SH mulmxA mulmxV.
split=> //.
- by rewrite /sh_matrix_of_basis inv_g.
- by rewrite /_s2sh_from_sh2s inv_g.
- by move=> D c; rewrite /ComputeSHC /ComputeSignal !einsum_kpE -mulmxA inv mulmx1.
move=> D x; rewrite /ComputeSHC /ComputeSignal !einsum_kpE.
by rewrite -[x *m _ *m b *m _]mulmxA inv mulmx1.
Qed.

Lemma sh_matrix_round_trip_witness :
  let S2SH := unit_basis^T *m invmx (unit_basis *m unit_basis^T) in
  [/\ sh_matrix_of_basis (@exact_inv _) unit_basis = Some (S2SH, unit_basis),
      unit_basis *m S2SH = 1%:M,
      _s2sh_from_sh2s (@exact_inv _) unit_basis = Some S2SH,
      forall (D : nat) (c : 'M[rat]_(D, 2)),
        ComputeSHC S2SH (ComputeSignal unit_basis c) = c &
      forall (D : nat) (x : 'M[rat]_(D, 2)),
        ComputeSignal unit_basis (ComputeSHC S2SH
          (ComputeSignal unit_basis (ComputeSHC S2SH x))) =
        ComputeSignal unit_basis (ComputeSHC S2SH x)].
Proof.
have unit_g : unit_basis *m unit_basis^T \in unitmx.
  by rewrite /unit_basis trmx1 mulmx1 unitmx1.
apply: (@sh_matrix_round_trip _ (@exact_inv _) 2 2 unit_basis unit_g).
by rewrite /exact_inv unit_g.
Defined.

(** X15. With more coefficients than directions the Gram matrix of the basis
    has no inverse in exact arithmetic, whatever the directions are, and
    whatever [_sh_matrix] returns when [np.linalg.inv] returns something, SH2S
    times S2SH is not the identity: there is a coefficient row that
    [ComputeSHC] after [ComputeSignal] does not give back. *)
Theorem sh_matrix_underdetermined (F : fieldType)
  (linalg_inv : forall n : nat, 'M[F]_n -> option 'M[F]_n) (C N : nat)
  (b : 'M[F]_(C, N)) (S2SH : 'M[F]_(N, C)) (SH2S : 'M[F]_(C, N)) :
  (N < C)%N ->
  sh_matrix_of_basis linalg_inv b = Some (S2SH, SH2S) ->
  [/\ b *m b^T \in unitmx = false,
      SH2S = b /\ SH2S *m S2SH != 1%:M &
      exists c : 'M[F]_(1, C), ComputeSHC S2SH (ComputeSignal SH2S c) != c].
Proof.
move=> ltNC; rewrite /sh_matrix_of_basis.
case: (linalg_inv _ _) => // b_inv [<- <-].
have not_inv := @no_right_inverse _ _ _ b (b^T *m b_inv) ltNC.
split=> //; first exact: gram_singular.
have : ~~ [forall i, forall j, (b *m (b^T *m b_inv)) i j == (1%:M : 'M[F]_C) i j].
  apply: contra not_inv => /forallP all_eq.
  by apply/eqP/matrixP => i j; apply/eqP/(forallP (all_eq i)).
rewrite negb_forall => /existsP[i]; rewrite negb_forall => /existsP[j neq_ij].
exists (delta_mx ord0 i).
rewrite /ComputeSHC /ComputeSignal !einsum_kpE -mulmxA -rowE.
apply: contra neq_ij => /eqP /matrixP /(_ ord0 j).
by rewrite !mxE eqxx /= [j == i]eq_sym => ->.
Qed.

Lemma sh_matrix_underdetermined_witness :
  [/\ tall_basis *m tall_basis^T \in unitmx = false,
      tall_basis = tall_basis /\
      tall_basis *m (tall_basis^T *m invmx (tall_basis *m tall_basis^T)) != 1%:M &
      exists c : 'M[rat]_(1, 2),
        ComputeSHC (tall_basis^T *m invmx (tall_basis *m tall_basis^T))
          (ComputeSignal tall_basis c) != c].
Proof.
exact: (@sh_matrix_underdetermined _ (@total_inv _) 2 1 tall_basis
          (tall_basis^T *m invmx (tall_basis *m tall_basis^T)) tall_basis isT erefl).
Defined.

End Harmonics.

(** ** Patch-size schedule ([sampling.py],
    [HealpixSampling.get_healpix_poolings]) *)

Module Pooling.

Import QArith.
Local Close Scope Q_scope.
Local Open Scope Z_scope.

(** Python's [int(x)] on a float: truncation toward zero. A finite float is
    the rational it stands for. *)
Definition py_int (q : Q) : Z := Z.quot (Qnum q) (Zpos (Qden q)).

(** The integer nearest to [num / den], the even one of the two when the
    quotient lies half-way. *)
Definition round_half_even (num den : Z) : Z :=
  let q := num / den in
  let r := num mod den in
  if 2 * r <? den then q
  else if den <? 2 * r then q + 1
  else if Z.even q then q else q + 1.

(** The float64 nearest to a rational, ties to even: with [e] the exponent
    of [x] (at least -1022, below which the spacing stays that of the
    subnormal numbers), [x] is rounded to a multiple of [2 ** (e - 52)], which
    leaves 53 significant bits. The exponent is not bounded above: values of
    [2 ** 1024] and more, where Python raises [OverflowError], are returned
    as rounded rationals. *)
Definition float64 (x : Q) : Q :=
  let a := Z.abs (Qnum x) in
  let d := Zpos (Qden x) in
  let e := Z.max (- 1022) (Z.log2 (a * 2 ^ 1074 / d) - 1074) in
  let t := 52 - e in
  let m := round_half_even (a * 2 ^ Z.max 0 t) (d * 2 ^ Z.max 0 (- t)) in
  Qmake (Z.sgn (Qnum x) * m * 2 ^ Z.max 0 (- t)) (Z.to_pos (2 ^ Z.max 0 t)).

(** [a / b] on Python integers: the float nearest to the quotient. *)
Definition true_div (a b : Z) : Q := float64 (inject_Z a / inject_Z b)%Q.

(** The conversion of an integer operand to a float, and the product and
    the sum of two floats. *)
Definition float (i : Z) : Q := float64 (inject_Z i).
Definition float_mul (x y : Q) : Q := float64 (x * y)%Q.
Definition float_add (x y : Q) : Q := float64 (x + y)%Q.

(** [int(((patch_size - 2) / 2) * (patch_size%2) + patch_size / 2)] *)
Definition shrink (patch_size : Z) : Z :=
  py_int (float_add (float_mul (true_div (patch_size - 2) 2) (float (patch_size mod 2)))
                    (true_div patch_size 2)).

(** The pooling layers, with the spatial kernel size and stride where the
    source passes them (the hemisphere index arrays are left out). *)
Inductive pooling : Type :=
  | IdentityPooling
  | MixedPooling (kernel_size_spa stride : Z * Z * Z)
  | HealpixPooling
  | SpatialPooling (kernel_size_spa_stride : option ((Z * Z * Z) * (Z * Z * Z))).

Definition stride_of (patch_size : Z) : Z * Z * Z :=
  let s := - (patch_size mod 2) + 2 in (s, s, s).

Definition kernel_size_spa_of (patch_size : Z) : Z * Z * Z :=
  let k := (if 1 <? patch_size then 1 else 0) + 1 in (k, k, k).

(** One pass of the loop body for [pooling_name in ['mixed', 'bekkers']]:
    the layer and the new [patch_size] and [n_side]. *)
Definition mixed_step (patch_size n_side : Z) : pooling * Z * Z :=
  if (patch_size =? 1) && (n_side =? 1) then
    (IdentityPooling, patch_size, n_side)
  else if negb (patch_size =? 1) && negb (n_side =? 1) then
    (MixedPooling (kernel_size_spa_of patch_size) (stride_of patch_size),
     shrink patch_size, n_side / 2)
  else if patch_size =? 1 then
    (HealpixPooling, patch_size, n_side / 2)
  else
    (SpatialPooling None, shrink patch_size, n_side).

(** For [pooling_name in ['spherical']]. *)
Definition spherical_step (patch_size n_side : Z) : pooling * Z * Z :=
  if negb (n_side =? 1) then (HealpixPooling, patch_size, n_side / 2)
  else (IdentityPooling, patch_size, n_side).

(** For [pooling_name in ['spatial', 'spatial_vec', 'spatial_sh']]. *)
Definition spatial_step (patch_size n_side : Z) : pooling * Z * Z :=
  if negb (patch_size =? 1) then
    (SpatialPooling (Some (kernel_size_spa_of patch_size, stride_of patch_size)),
     shrink patch_size, n_side)
  else (IdentityPooling, patch_size, n_side).

Definition mem_string (s : string) (l : seq string) : bool :=
  has (String.eqb s) l.

(** [for depth_i in range(depth-1)]: the layers and the patch sizes in the
    order the loop appends them. *)
Fixpoint pooling_loop (step : Z -> Z -> pooling * Z * Z) (n : nat)
  (patch_size n_side : Z) : seq pooling * seq Z * Z :=
  match n with
  | O => ([::], [::], patch_size)
  | S n' =>
      let '(pool, patch_size', n_side') := step patch_size n_side in
      let '(poolings, patch_size_list, last) := pooling_loop step n' patch_size' n_side' in
      (pool :: poolings, patch_size :: patch_size_list, last)
  end.

Definition get_healpix_poolings (depth : nat) (patch_size n_side : Z)
  (pooling_name : string) : seq pooling * seq Z :=
  let '(poolings, patch_size_list, patch_size) :=
    if mem_string pooling_name [:: "mixed"; "bekkers"]%string then
      pooling_loop mixed_step (depth - 1)%nat patch_size n_side
    else if mem_string pooling_name [:: "spherical"]%string then
      pooling_loop spherical_step (depth - 1)%nat patch_size n_side
    else if mem_string pooling_name [:: "spatial"; "spatial_vec"; "spatial_sh"]%string then
      pooling_loop spatial_step (depth - 1)%nat patch_size n_side
    else if String.eqb pooling_name "muller" then
      (nseq (depth - 1)%nat IdentityPooling, [:: patch_size], patch_size)
    else ([::], [::], patch_size) in
  (rev poolings, rev (patch_size_list ++ [:: patch_size])).

(** [BvecSampling.get_bvec_poolings]: the loop of the spatial schedule, on
    [image_size]. *)
Fixpoint bvec_loop (n : nat) (image_size : Z) : seq pooling :=
  match n with
  | O => [::]
  | S n' =>
      if negb (image_size =? 1) then
        SpatialPooling (Some (kernel_size_spa_of image_size, stride_of image_size))
        :: bvec_loop n' (shrink image_size)
      else IdentityPooling :: bvec_loop n' image_size
  end.

Definition get_bvec_poolings (depth : nat) (image_size : Z) : seq pooling :=
  rev (bvec_loop (depth - 1)%nat image_size).

Section Laplacians.

(** What [SphereHealpix(n_side, nest=True, k)], [compute_laplacian],
    [prepare_laplacian], the restriction to a hemisphere and
    [scipy_csr_to_sparse_tensor] build at one resolution: the Laplacian and
    the coordinates. *)
Variables laplacian coords : Type.
Variable healpix_graph : Z -> Z -> bool -> laplacian * coords.

Definition graph_at (n_side neighbor : Z) (hemisphere : bool) : laplacian * coords :=
  if 0 <? n_side then healpix_graph n_side neighbor hemisphere
  else healpix_graph n_side 8 hemisphere.

(** [HealpixSampling.get_healpix_laplacians]. The last branch reads, in its
    first pass, a name that no earlier statement binds, which raises
    ([None]). *)
Definition get_healpix_laplacians (starting_nside : Z) (depth : nat) (neighbor : Z)
  (pooling_name : string) (hemisphere : bool) : option (seq laplacian * seq coords) :=
  let spatial :=
    mem_string pooling_name [:: "spatial"; "spatial_vec"; "spatial_sh"]%string in
  if negb spatial then
    let graphs :=
      [seq graph_at (starting_nside / 2 ^ Z.of_nat i) neighbor hemisphere
      | i <- iota 0 depth] in
    Some (rev [seq g.1 | g <- graphs], rev [seq g.2 | g <- graphs])
  else if spatial then
    let g := graph_at starting_nside neighbor hemisphere in
    Some (rev (nseq depth g.1), rev (nseq depth g.2))
  else if depth is O then Some ([::], [::]) else None.

End Laplacians.

(** The assertion of [HealpixSampling.__init__] on the resolution:
    [n_side / (2**(depth-1)) >= 1]. *)
Definition resolution_ok (n_side : Z) (depth : nat) : Prop :=
  2 ^ Z.of_nat (depth - 1) <= n_side.

(** The layers that pool the sphere. *)
Definition pools_sphere (p : pooling) : bool :=
  match p with
  | MixedPooling _ _ | HealpixPooling => true
  | _ => false
  end.

(** A stand-in for the graph builder: the resolution and the number of
    neighbours it was asked for. *)
Definition label_graph (n_side neighbor : Z) (hemisphere : bool) : Z * Z :=
  (n_side, neighbor).

(** The recurrence as the specification words it, with floors. *)
Definition floor_new_size (size : Z) : Z :=
  ((size - 2) / 2) * (size mod 2) + size / 2.

(** The new patch size a loop pass leaves. *)
Definition patch_after (r : pooling * Z * Z) : Z := snd (fst r).

Definition pool_of (r : pooling * Z * Z) : pooling := fst (fst r).

(** The size one loop pass leaves: 1 stays, any other size shrinks. *)
Definition next_patch_size (patch_size : Z) : Z :=
  if patch_size =? 1 then patch_size else shrink patch_size.

Lemma round_half_even_exact (q den : Z) :
  0 < den -> round_half_even (q * den) den = q.
Proof.
move=> gt0; have neq0 : den <> 0 by lia.
rewrite /round_half_even (Z.div_mul _ _ neq0) (Z.mod_mul _ _ neq0).
by have -> : (2 * 0 <? den) = true by apply/Z.ltb_lt.
Qed.

Lemma float64_exact (x : Q) (m k : Z) :
  0 <= k <= 1022 -> Z.abs m < 2 ^ 53 ->
  Qnum x * 2 ^ k = m * Zpos (Qden x) ->
  (float64 x == x)%Q.
Proof.
case: x => n d; rewrite /float64 /Qeq; cbn [Qnum Qden].
move=> [ge0k lek] ltm eq_x.
have gt0d : 0 < Z.pos d by [].
have gt0k : 0 < 2 ^ k by apply: Z.pow_pos_nonneg.
have eq_a : Z.abs n * 2 ^ k = Z.abs m * Z.pos d.
  have := congr1 Z.abs eq_x; rewrite !Z.abs_mul.
  by rewrite (Z.abs_eq (2 ^ k)) ?(Z.abs_eq (Z.pos d)); lia.
move: eq_a ltm; set a := Z.abs n; set M := Z.abs m => eq_a ltM.
have [M0|gt0M] : M = 0 \/ 0 < M by lia.
  have n0 : n = 0 by nia.
  by rewrite n0.
set L := Z.log2 M.
have [leL ltL] : 2 ^ L <= M < 2 ^ Z.succ L by apply: Z.log2_spec.
have ge0L : 0 <= L by apply: Z.log2_nonneg.
have le52 : L <= 52.
  by have /(Z.log2_lt_pow2 _ _ gt0M) : M < 2 ^ 53 by []; lia.
have ge0e : 0 <= 1074 - k by lia.
have quot : a * 2 ^ 1074 / Z.pos d = M * 2 ^ (1074 - k).
  have -> : a * 2 ^ 1074 = M * 2 ^ (1074 - k) * Z.pos d.
    have -> : 1074 = k + (1074 - k) by lia.
    by rewrite (Z.pow_add_r _ _ _ ge0k ge0e) Z.mul_assoc eq_a Z.add_simpl_l; ring.
  by rewrite Z.div_mul.
rewrite quot (Z.log2_mul_pow2 _ _ gt0M ge0e) -/L.
have -> : Z.max (- 1022) (1074 - k + L - 1074) = L - k by lia.
have -> : Z.max 0 (52 - (L - k)) = k + (52 - L) by lia.
have -> : Z.max 0 (- (52 - (L - k))) = 0 by lia.
have ge0s : 0 <= 52 - L by lia.
have num : a * 2 ^ (k + (52 - L)) = M * 2 ^ (52 - L) * Z.pos d.
  by rewrite (Z.pow_add_r _ _ _ ge0k ge0s) Z.mul_assoc eq_a; ring.
rewrite Z.pow_0_r !Z.mul_1_r num round_half_even_exact //.
have gt0p : 0 < 2 ^ (k + (52 - L)) by apply: Z.pow_pos_nonneg; lia.
cbn [Qnum Qden]; rewrite (Z2Pos.id _ gt0p).
have -> : n * 2 ^ (k + (52 - L)) = Z.sgn n * (a * 2 ^ (k + (52 - L))).
  by rewrite -{1}(Z.abs_sgn n) -/a; ring.
by rewrite num; ring.
Qed.

Lemma py_int_Qeq (x y : Q) : (x == y)%Q -> py_int x = py_int y.
Proof.
rewrite /Qeq /py_int => eq_xy.
have dx : Z.pos (Qden x) <> 0 by [].
have dy : Z.pos (Qden y) <> 0 by [].
rewrite -(Z.quot_mul_cancel_r (Qnum x) _ _ dx dy) eq_xy.
by rewrite [Z.pos (Qden x) * _]Z.mul_comm (Z.quot_mul_cancel_r _ _ _ dy dx).
Qed.

Lemma float64_half (x : Q) (m : Z) :
  (x == m # 2)%Q -> Z.abs m < 2 ^ 53 -> (float64 x == m # 2)%Q.
Proof.
move=> eq_x ltm; apply: (@Qeq_trans _ x _ _ eq_x).
by apply: (@float64_exact x m 1) => //; move: eq_x; rewrite /Qeq.
Qed.

Lemma float64_int (x : Q) (m : Z) :
  (x == inject_Z m)%Q -> Z.abs m < 2 ^ 53 -> (float64 x == inject_Z m)%Q.
Proof.
move=> eq_x ltm; apply: (@Qeq_trans _ x _ _ eq_x).
by apply: (@float64_exact x m 0) => //; move: eq_x; rewrite /Qeq.
Qed.

Lemma true_div_half (a : Z) : Z.abs a < 2 ^ 53 -> (true_div a 2 == a # 2)%Q.
Proof.
move=> lta; apply: float64_half; last exact: lta.
by rewrite /Qeq; cbn; ring.
Qed.

Lemma shrink_parity (size : Z) :
  0 <= size < 2 ^ 53 ->
  shrink size = if Z.even size then size / 2 else size - 1.
Proof.
move=> [ge0 lt53]; rewrite /shrink /float_add /float_mul /float.
have lt2 : Z.abs (size - 2) < 2 ^ 53 by lia.
have lts : Z.abs size < 2 ^ 53 by lia.
have lt1 : Z.abs (size - 1) < 2 ^ 53 by lia.
have h1 := true_div_half lt2.
have h4 := true_div_half lts.
have := Zmod_even size; case: (Z.even size) => ->.
  have h2 : (float64 (inject_Z 0) == inject_Z 0)%Q.
    by apply: float64_int; [exact: Qeq_refl|].
  have h3 : (float64 (true_div (size - 2) 2 * float64 (inject_Z 0)) == inject_Z 0)%Q.
    apply: float64_int; last by [].
    apply: (@Qeq_trans _ _ _ (Qmult_comp _ _ h1 _ _ h2)).
    by rewrite /Qeq; cbn; ring.
  have h5 : (float64 (float64 (true_div (size - 2) 2 * float64 (inject_Z 0))
                      + true_div size 2) == size # 2)%Q.
    apply: float64_half; last exact: lts.
    apply: (@Qeq_trans _ _ _ (Qplus_comp _ _ h3 _ _ h4)).
    by rewrite /Qeq; cbn; ring.
  rewrite (py_int_Qeq h5) /py_int; cbn [Qnum Qden].
  exact: Z.quot_div_nonneg.
have h2 : (float64 (inject_Z 1) == inject_Z 1)%Q.
  by apply: float64_int; [exact: Qeq_refl|].
have h3 : (float64 (true_div (size - 2) 2 * float64 (inject_Z 1)) == (size - 2) # 2)%Q.
  apply: float64_half; last exact: lt2.
  apply: (@Qeq_trans _ _ _ (Qmult_comp _ _ h1 _ _ h2)).
  by rewrite /Qeq; cbn; ring.
have h5 : (float64 (float64 (true_div (size - 2) 2 * float64 (inject_Z 1))
                    + true_div size 2) == inject_Z (size - 1))%Q.
  apply: float64_int; last exact: lt1.
  apply: (@Qeq_trans _ _ _ (Qplus_comp _ _ h3 _ _ h4)).
  by rewrite /Qeq; cbn; ring.
rewrite (py_int_Qeq h5) /py_int; cbn [Qnum Qden inject_Z].
exact: Z.quot_1_r.
Qed.

Example shrink_values :
  [seq shrink s | s <- [:: 2; 3; 4; 5; 6; 7; 9]] = [:: 1; 2; 2; 4; 3; 6; 8].
Proof. by vm_compute. Qed.

(** Two values of the rounding: the floats nearest to 1/3 and to 1/10. *)
Example float64_values :
  Qeq_bool (float64 (1 # 3)) (6004799503160661 # 18014398509481984) &&
  Qeq_bool (float64 (1 # 10)) (3602879701896397 # 36028797018963968) = true.
Proof. by vm_compute. Qed.

(** Beyond 53 bits the divisions and the sum round: an even size of 55 bits
    loses its last unit, and an odd size of 61 bits comes out larger than it
    went in. *)
Example shrink_rounds :
  [seq shrink s | s <- [:: 2 ^ 54 + 2; 2 ^ 60 + 255]] = [:: 2 ^ 53; 2 ^ 60 + 256].
Proof. by vm_compute. Qed.

Example get_healpix_poolings_mixed :
  get_healpix_poolings 4 5 4 "mixed" =
  ([:: SpatialPooling None; MixedPooling (2, 2, 2) (2, 2, 2);
       MixedPooling (2, 2, 2) (1, 1, 1)],
   [:: 1; 2; 4; 5]).
Proof. by vm_compute. Qed.

Lemma mixed_step_patch (patch_size n_side : Z) :
  patch_after (mixed_step patch_size n_side) = next_patch_size patch_size.
Proof.
rewrite /mixed_step /next_patch_size.
by case: (patch_size =? 1); case: (n_side =? 1).
Qed.

Lemma spatial_step_patch (patch_size n_side : Z) :
  patch_after (spatial_step patch_size n_side) = next_patch_size patch_size.
Proof. by rewrite /spatial_step /next_patch_size; case: (patch_size =? 1). Qed.



(** C6, as stated, fails: a patch of size 3 shrinks to 2 (pooling kernel 2,
    stride 1), where the recurrence with floors gives 1. *)
Lemma patch_size_floor_counterexample :
  patch_after (spatial_step 3 4) <> floor_new_size 3 /\
  patch_after (mixed_step 3 4) <> floor_new_size 3.
Proof. by vm_compute. Qed.

(** C6, amended. For every patch size from 2 up to and not including [2**53] (the
    sizes on which the float64 divisions of the source are exact), each
    depth transition that shrinks the spatial patch updates it to
    [int((size-2)/2 * (size mod 2) + size/2)] with true divisions, that is
    to [size/2] for an even size and to [size - 1] for an odd one; a patch
    size of 1 is left unchanged, under identity or spherical-only pooling. *)
Theorem patch_size_recurrence (size n_side : Z) :
  2 <= size -> size < 2 ^ 53 ->
  [/\ patch_after (mixed_step size n_side) = shrink size,
      patch_after (spatial_step size n_side) = shrink size,
      shrink size = (if Z.even size then size / 2 else size - 1),
      patch_after (mixed_step 1 n_side) = 1 /\
      patch_after (spatial_step 1 n_side) = 1 &
      pool_of (spatial_step 1 n_side) = IdentityPooling /\
      (pool_of (mixed_step 1 n_side) = IdentityPooling \/
       pool_of (mixed_step 1 n_side) = HealpixPooling)].
Proof.
move=> ge2 lt53.
have neq1 : (size =? 1) = false by apply/Z.eqb_neq; lia.
split.
- by rewrite /mixed_step neq1 /=; case: (n_side =? 1).
- by rewrite /spatial_step neq1.
- by apply: shrink_parity; lia.
- by rewrite /mixed_step /spatial_step /=; case: (n_side =? 1).
- by rewrite /mixed_step /spatial_step /=; case: (n_side =? 1); split; [|left| |right].
Qed.

Lemma patch_size_recurrence_witness :
  [/\ patch_after (mixed_step 5 4) = shrink 5,
      patch_after (spatial_step 5 4) = shrink 5,
      shrink 5 = (if Z.even 5 then 5 / 2 else 5 - 1),
      patch_after (mixed_step 1 4) = 1 /\
      patch_after (spatial_step 1 4) = 1 &
      pool_of (spatial_step 1 4) = IdentityPooling /\
      (pool_of (mixed_step 1 4) = IdentityPooling \/
       pool_of (mixed_step 1 4) = HealpixPooling)].
Proof. by apply: (@patch_size_recurrence 5 4); vm_compute. Defined.

(** *** The pooling and Laplacian hierarchy *)

Lemma spherical_step_patch (patch_size n_side : Z) :
  patch_after (spherical_step patch_size n_side) = patch_size.
Proof. by rewrite /spherical_step; case: (n_side =? 1). Qed.

Lemma next_patch_size_bounds (p : Z) :
  1 <= p < 2 ^ 53 -> 1 <= next_patch_size p <= p.
Proof.
move=> [ge1 lt53]; rewrite /next_patch_size.
case: Z.eqb_spec => [->|neq1]; first by lia.
have in53 : 0 <= p < 2 ^ 53 by lia.
rewrite (shrink_parity in53).
have := Zmod_even p; case: (Z.even p) => eq_mod; last by lia.
by Z.to_euclidean_division_equations; lia.
Qed.



(** The sizes a loop records, the last one included, start with the size it
    was given, stay between 1 and it, and never grow. *)
Lemma pooling_loop_bounds (step : Z -> Z -> pooling * Z * Z) (n : nat)
  (patch_size n_side bound : Z) :
  (forall p ns, 1 <= p < bound -> 1 <= patch_after (step p ns) <= p) ->
  1 <= patch_size < bound ->
  let r := pooling_loop step n patch_size n_side in
  exists tl,
    [/\ cat (snd (fst r)) [:: snd r] = patch_size :: tl,
        all (fun s => (1 <=? s) && (s <=? patch_size)) (patch_size :: tl) &
        path (fun x y => y <=? x) patch_size tl].
Proof.
move=> step_ok; elim: n patch_size n_side => [|n IH] p ns [ge1 ltb] /=.
  by exists [::]; split=> //=; rewrite andbT; apply/andP; split; apply/Z.leb_le; lia.
have := step_ok p ns (conj ge1 ltb); case: (step p ns) => [[pool p'] ns'].
rewrite /patch_after /= => -[ge1' le'].
have in' : 1 <= p' < bound by lia.
have [tl [eq_l all_l path_l]] := IH p' ns' in'.
move: eq_l; case: (pooling_loop step n p' ns') => [[pools sizes] last] /= eq_l.
exists (p' :: tl); split; first by rewrite eq_l.
  rewrite /= -/(all _ (p' :: tl)); apply/andP; split.
    by apply/andP; split; apply/Z.leb_le; lia.
  apply: sub_all all_l => s /andP[/Z.leb_le ges /Z.leb_le les].
  by apply/andP; split; apply/Z.leb_le; lia.
by rewrite /= path_l andbT; apply/Z.leb_le.
Qed.

Lemma mixed_loop_pools_sphere (n : nat) (patch_size n_side : Z) :
  2 ^ Z.of_nat n <= n_side ->
  all pools_sphere (fst (fst (pooling_loop mixed_step n patch_size n_side))).
Proof.
elim: n patch_size n_side => [|n IH] p ns //; rewrite Nat2Z.inj_succ Z.pow_succ_r; first by lia.
move=> le_ns.
have gt0 : 0 < 2 ^ Z.of_nat n by apply: Z.pow_pos_nonneg; lia.
have neq1 : (ns =? 1) = false by apply/Z.eqb_neq; lia.
have le_half : 2 ^ Z.of_nat n <= ns / 2 by apply: Z.div_le_lower_bound; lia.
rewrite /= /mixed_step neq1 andbF /= andbT.
case: (p =? 1) => /=.
  by have := IH p (ns / 2) le_half; case: (pooling_loop _ _ _ _) => [[pools sizes] last].
by have := IH (shrink p) (ns / 2) le_half; case: (pooling_loop _ _ _ _) => [[pools sizes] last].
Qed.

Lemma spherical_loop_pools_sphere (n : nat) (patch_size n_side : Z) :
  2 ^ Z.of_nat n <= n_side ->
  all (fun pool => match pool with HealpixPooling => true | _ => false end)
    (fst (fst (pooling_loop spherical_step n patch_size n_side))).
Proof.
elim: n patch_size n_side => [|n IH] p ns //; rewrite Nat2Z.inj_succ Z.pow_succ_r; first by lia.
move=> le_ns.
have gt0 : 0 < 2 ^ Z.of_nat n by apply: Z.pow_pos_nonneg; lia.
have neq1 : (ns =? 1) = false by apply/Z.eqb_neq; lia.
have le_half : 2 ^ Z.of_nat n <= ns / 2 by apply: Z.div_le_lower_bound; lia.
rewrite /= /spherical_step neq1 /=.
by have := IH p (ns / 2) le_half; case: (pooling_loop _ _ _ _) => [[pools sizes] last].
Qed.

Lemma spatial_loop_pools (n : nat) (patch_size n_side : Z) :
  all (fun pool => ~~ pools_sphere pool)
    (fst (fst (pooling_loop spatial_step n patch_size n_side))).
Proof.
elim: n patch_size n_side => [|n IH] p ns //=; rewrite /spatial_step.
case: (p =? 1) => /=.
  by have := IH p ns; case: (pooling_loop _ _ _ _) => [[pools sizes] last].
by have := IH (shrink p) ns; case: (pooling_loop _ _ _ _) => [[pools sizes] last].
Qed.

Lemma bvec_loopE (n : nat) (image_size n_side : Z) :
  bvec_loop n image_size = fst (fst (pooling_loop spatial_step n image_size n_side)).
Proof.
elim: n image_size => [|n IH] s //=; rewrite /spatial_step.
case: (s =? 1) => /=.
  by rewrite IH; case: (pooling_loop _ _ _ _) => [[pools sizes] last].
by rewrite IH; case: (pooling_loop _ _ _ _) => [[pools sizes] last].
Qed.

(** The branch [get_healpix_poolings] takes for each of the names. *)
Lemma mixed_dispatch (depth : nat) (patch_size n_side : Z) (pooling_name : string) :
  mem_string pooling_name [:: "mixed"; "bekkers"]%string ->
  get_healpix_poolings depth patch_size n_side pooling_name =
  let r := pooling_loop mixed_step (depth - 1) patch_size n_side in
  (rev (fst (fst r)), rev (cat (snd (fst r)) [:: snd r])).
Proof.
rewrite /get_healpix_poolings => ->.
by case: (pooling_loop _ _ _ _) => [[pools sizes] last].
Qed.

Lemma spherical_dispatch (depth : nat) (patch_size n_side : Z) :
  get_healpix_poolings depth patch_size n_side "spherical" =
  let r := pooling_loop spherical_step (depth - 1) patch_size n_side in
  (rev (fst (fst r)), rev (cat (snd (fst r)) [:: snd r])).
Proof.
rewrite /get_healpix_poolings /=.
by case: (pooling_loop _ _ _ _) => [[pools sizes] last].
Qed.

Lemma spatial_dispatch (depth : nat) (patch_size n_side : Z) (pooling_name : string) :
  mem_string pooling_name [:: "spatial"; "spatial_vec"; "spatial_sh"]%string ->
  get_healpix_poolings depth patch_size n_side pooling_name =
  let r := pooling_loop spatial_step (depth - 1) patch_size n_side in
  (rev (fst (fst r)), rev (cat (snd (fst r)) [:: snd r])).
Proof.
rewrite /mem_string /= orbF => /orP[|/orP[]] /String.eqb_eq ->;
  rewrite /get_healpix_poolings /=;
  by case: (pooling_loop _ _ _ _) => [[pools sizes] last].
Qed.





(** X18. Whatever the pooling name, a patch size of at least 1 and below
    [2**53] (where the float64 divisions of the source are exact) gives a
    list of patch sizes whose last entry (the finest level) is the input
    patch size, whose entries all lie between 1 and the input patch size, and
    which never decreases from the coarsest level to the finest. *)
Theorem patch_size_list_bounds (depth : nat) (patch_size n_side : Z)
  (pooling_name : string) :
  1 <= patch_size -> patch_size < 2 ^ 53 ->
  let l := snd (get_healpix_poolings depth patch_size n_side pooling_name) in
  [/\ last 0 l = patch_size,
      all (fun s => (1 <=? s) && (s <=? patch_size)) l &
      sorted Z.leb l].
Proof.
move=> ge1 lt53.
have loop step :
    (forall p ns, 1 <= p < 2 ^ 53 -> 1 <= patch_after (step p ns) <= p) ->
    let r := pooling_loop step (depth - 1) patch_size n_side in
    let l := rev (cat (snd (fst r)) [:: snd r]) in
    [/\ last 0 l = patch_size,
        all (fun s => (1 <=? s) && (s <=? patch_size)) l & sorted Z.leb l].
  move=> step_ok.
  have [tl [eq_l all_l path_l]] :=
    pooling_loop_bounds (depth - 1) n_side step_ok (conj ge1 lt53).
  move=> r l; rewrite {}/l {}/r eq_l; split.
  - by rewrite rev_cons last_rcons.
  - by rewrite all_rev.
  by rewrite rev_sorted.
have one : 1 <= patch_size <= patch_size by lia.
have in_range : (1 <=? patch_size) && (patch_size <=? patch_size).
  by apply/andP; split; apply/Z.leb_le; lia.
rewrite /get_healpix_poolings.
case: (mem_string _ _).
  have := loop mixed_step; case: (pooling_loop _ _ _ _) => [[pools sizes] lst] /=.
  by apply=> p ns gep; rewrite mixed_step_patch; apply: next_patch_size_bounds.
case: (mem_string _ _).
  have := loop spherical_step; case: (pooling_loop _ _ _ _) => [[pools sizes] lst] /=.
  by apply=> p ns gep; rewrite spherical_step_patch; lia.
case: (mem_string _ _).
  have := loop spatial_step; case: (pooling_loop _ _ _ _) => [[pools sizes] lst] /=.
  by apply=> p ns gep; rewrite spatial_step_patch; apply: next_patch_size_bounds.
case: (String.eqb _ _) => /=; split=> //; rewrite ?in_range //.
by rewrite andbT; apply/Z.leb_le; lia.
Qed.

Lemma patch_size_list_bounds_witness :
  let l := snd (get_healpix_poolings 4 5 4 "mixed") in
  [/\ last 0 l = 5, all (fun s => (1 <=? s) && (s <=? 5)) l & sorted Z.leb l].
Proof. by apply: (@patch_size_list_bounds 4 5 4 "mixed"); vm_compute. Defined.

(** X19. Under the assertion of the constructor on the resolution
    ([n_side / 2**(depth-1) >= 1]), every layer of the mixed pooling pools the
    sphere (it is a mixed or a spherical pooling, never the identity or a
    pooling of the patch alone) and every layer of the spherical pooling is a
    spherical pooling, so the resolution is halved at each of the [depth - 1]
    transitions as the Laplacian list expects; the layers of the spatial names
    never pool the sphere. *)
Theorem sphere_pooled_every_level (depth : nat) (patch_size n_side : Z)
  (pooling_name : string) :
  resolution_ok n_side depth ->
  [/\ mem_string pooling_name [:: "mixed"; "bekkers"]%string ->
      all pools_sphere (fst (get_healpix_poolings depth patch_size n_side pooling_name)),
      all (fun pool => match pool with HealpixPooling => true | _ => false end)
        (fst (get_healpix_poolings depth patch_size n_side "spherical")) &
      mem_string pooling_name [:: "spatial"; "spatial_vec"; "spatial_sh"]%string ->
      all (fun pool => ~~ pools_sphere pool)
        (fst (get_healpix_poolings depth patch_size n_side pooling_name))].
Proof.
rewrite /resolution_ok => ok; split=> [mixed||spatial].
- by rewrite mixed_dispatch //= all_rev; apply: mixed_loop_pools_sphere.
- by rewrite spherical_dispatch /= all_rev; apply: spherical_loop_pools_sphere.
by rewrite spatial_dispatch //= all_rev; apply: spatial_loop_pools.
Qed.

Lemma sphere_pooled_every_level_witness :
  [/\ mem_string "mixed" [:: "mixed"; "bekkers"]%string ->
      all pools_sphere (fst (get_healpix_poolings 3 5 4 "mixed")),
      all (fun pool => match pool with HealpixPooling => true | _ => false end)
        (fst (get_healpix_poolings 3 5 4 "spherical")) &
      mem_string "mixed" [:: "spatial"; "spatial_vec"; "spatial_sh"]%string ->
      all (fun pool => ~~ pools_sphere pool)
        (fst (get_healpix_poolings 3 5 4 "mixed"))].
Proof.
apply: (@sphere_pooled_every_level 3 5 4 "mixed").
by rewrite /resolution_ok /=; lia.
Defined.

(** X20. [BvecSampling.get_bvec_poolings] builds, for an image size, the
    layers that [HealpixSampling.get_healpix_poolings] builds for a patch of
    that size under the spatial pooling names, at every depth. *)
Theorem get_bvec_poolings_spatial (depth : nat) (image_size n_side : Z)
  (pooling_name : string) :
  mem_string pooling_name [:: "spatial"; "spatial_vec"; "spatial_sh"]%string ->
  get_bvec_poolings depth image_size =
  fst (get_healpix_poolings depth image_size n_side pooling_name).
Proof.
by move=> spatial; rewrite spatial_dispatch //= /get_bvec_poolings (bvec_loopE _ _ n_side).
Qed.

Lemma get_bvec_poolings_spatial_witness :
  get_bvec_poolings 4 5 = fst (get_healpix_poolings 4 5 8 "spatial_vec").
Proof. exact: (@get_bvec_poolings_spatial 4 5 8 "spatial_vec" _). Defined.

(** X21. [get_healpix_laplacians] returns [depth] Laplacians and [depth]
    coordinate arrays, from the coarsest level to the finest: under the
    assertion of the constructor on the resolution, entry [j] is the graph
    built at resolution [n_side // 2**(depth-1-j)], which is at least 1, with
    the number of neighbours asked for; for the spatial names every entry is
    the graph of the finest resolution. The branch for other names is never
    taken. *)
Theorem get_healpix_laplacians_schedule (laplacian coords : Type)
  (healpix_graph : Z -> Z -> bool -> laplacian * coords)
  (starting_nside : Z) (depth : nat) (neighbor : Z) (pooling_name : string)
  (hemisphere : bool) :
  resolution_ok starting_nside depth ->
  exists laps vec,
    [/\ get_healpix_laplacians healpix_graph starting_nside depth neighbor
          pooling_name hemisphere = Some (laps, vec),
        size laps = depth /\ size vec = depth &
        forall (j : nat) (d : laplacian * coords), (j < depth)%nat ->
          let n_side :=
            if mem_string pooling_name [:: "spatial"; "spatial_vec"; "spatial_sh"]%string
            then starting_nside
            else starting_nside / 2 ^ Z.of_nat (depth - 1 - j) in
          1 <= n_side /\
          (nth (fst d) laps j, nth (snd d) vec j) =
          healpix_graph n_side neighbor hemisphere].
Proof.
rewrite /resolution_ok /get_healpix_laplacians => ok.
have pow_le (i : nat) : (i <= depth - 1)%nat -> 0 < 2 ^ Z.of_nat i <= starting_nside.
  move=> /leP le_i; split; first by apply: Z.pow_pos_nonneg; lia.
  apply: Z.le_trans ok; apply: Z.pow_le_mono_r; lia.
case: (mem_string _ _) => /=.
  rewrite !rev_nseq.
  exists (nseq depth (graph_at healpix_graph starting_nside neighbor hemisphere).1).
  exists (nseq depth (graph_at healpix_graph starting_nside neighbor hemisphere).2).
  split=> //; first by rewrite !size_nseq.
  move=> j d ltj.
  have [_ le_s] := pow_le 0%nat (leq0n _).
  have ge1 : 1 <= starting_nside by move: le_s; rewrite Z.pow_0_r.
  split=> //.
  rewrite !nth_nseq ltj /graph_at.
  have -> : (0 <? starting_nside) = true by apply/Z.ltb_lt; lia.
  by case: (healpix_graph _ _ _).
set graphs := map _ (iota 0 depth).
exists (rev [seq g.1 | g <- graphs]), (rev [seq g.2 | g <- graphs]).
split=> //; first by rewrite !size_rev !size_map size_iota.
move=> j d ltj.
have le_i : (depth - 1 - j <= depth - 1)%nat by rewrite leq_subr.
have [gt0 le_s] := pow_le _ le_i.
have ge1 : 1 <= starting_nside / 2 ^ Z.of_nat (depth - 1 - j).
  by apply: Z.div_le_lower_bound; lia.
split=> //.
have lt_i : (depth - j.+1 < depth)%nat by rewrite ltn_subrL (leq_ltn_trans _ ltj).
rewrite !nth_rev ?size_map ?size_iota // !(nth_map d) ?size_map ?size_iota //.
rewrite (nth_map 0%nat) ?size_iota // nth_iota // add0n /graph_at.
have -> : (depth - j.+1 = depth - 1 - j)%nat by rewrite -subnDA add1n.
have -> : (0 <? starting_nside / 2 ^ Z.of_nat (depth - 1 - j)) = true.
  by apply/Z.ltb_lt; lia.
by case: (healpix_graph _ _ _).
Qed.

Lemma get_healpix_laplacians_schedule_witness :
  exists laps vec,
    [/\ get_healpix_laplacians label_graph 8 3 20 "mixed" false = Some (laps, vec),
        size laps = 3%nat /\ size vec = 3%nat &
        forall (j : nat) (d : Z * Z), (j < 3)%nat ->
          let n_side :=
            if mem_string "mixed" [:: "spatial"; "spatial_vec"; "spatial_sh"]%string
            then 8
            else 8 / 2 ^ Z.of_nat (3 - 1 - j) in
          1 <= n_side /\
          (nth (fst d) laps j, nth (snd d) vec j) = label_graph n_side 20 false].
Proof.
apply: (@get_healpix_laplacians_schedule Z Z label_graph 8 3 20 "mixed" false).
by rewrite /resolution_ok /=; lia.
Defined.


End Pooling.

(** ** Spherical-harmonic sampling set-up ([sampling.py], [Sampling.__init__],
    [_sh_matrix]) *)

Module Sampling.

Import Reals.
Local Close Scope R_scope.
Local Open Scope Z_scope.

(** Linear arithmetic on the reals of the Standard Library. *)
Ltac real_lra := Stdlib.micromega.Lra.lra.

(** What the source raises. *)
Inductive exn : Type :=
  | ValueError (msg : string)
  | IndexError
  | LinAlgError.

Definition result (T : Type) : Type := (exn + T)%type.

Definition raise (T : Type) (e : exn) : result T := inl e.
Definition ret (T : Type) (x : T) : result T := inr x.
Definition bind (T U : Type) (r : result T) (f : T -> result U) : result U :=
  match r with inl e => inl e | inr x => f x end.

(** [2*int((np.sqrt(8*N - 7) - 3) / 4)] for a count [N] of vectors, on the
    integers: [int] truncates toward zero, and truncating [(sqrt m - 3) / 4]
    gives [Z.quot (Z.sqrt m - 3) 4] for every [m >= 1] (lemma
    [degree_of_count_real_eq] below, on the real numbers; the rounding of
    [np.sqrt] is too small to reach an integer for any count below 2^49). A
    negative radicand gives nan, on which [int] raises. *)
Definition degree_of_count (N : Z) : result Z :=
  if 8 * N - 7 <? 0 then raise Z (ValueError "cannot convert float NaN to integer")
  else ret (2 * Z.quot (Z.sqrt (8 * N - 7) - 3) 4).

(** [(sh_degree+1)*(sh_degree//2+1)], the number of coefficients. *)
Definition n_coefficients (sh_degree : Z) : Z := (sh_degree + 1) * (sh_degree / 2 + 1).

Definition min_opt (d : Z) (max_sh_degree : option Z) : Z :=
  if max_sh_degree is Some m then Z.min d m else d.

Section Matrices.

(** Matrices are lists of rows of reals; a direction is a triple, so that
    [vectors.shape[1] == 3] holds by typing. *)
Definition matrix : Type := seq (seq R).
Definition direction : Type := (R * R * R)%type.

(** The numerical body of [_sh_matrix] after its two checks: the basis from
    scipy's [sph_harm] and the least-squares inverse from [np.linalg.inv],
    which may raise. It returns [(spatial2spectral, spectral2spatial)]. *)
Variable sh_body : Z -> seq direction -> Z -> bool -> result (matrix * matrix).

Definition _sh_matrix (sh_degree : Z) (vector : seq direction) (with_order : Z)
  (symmetric : bool) : result (matrix * matrix) :=
  if negb ((with_order =? 0) || (with_order =? 1)) then
    raise _ (ValueError "with_order must be 0 or 1")
  else if symmetric && negb (sh_degree mod 2 =? 0) then
    raise _ (ValueError "sh_degree must be even or symmetric must be False")
  else sh_body sh_degree vector with_order symmetric.

(** [Sampling.sh_matrix]: [symmetric] keeps its default. *)
Definition sh_matrix (sh_degree : Z) (vectors : seq direction) (with_order : Z) :=
  _sh_matrix sh_degree vectors with_order true.

Record Sampling : Type := MkSampling {
  vectors : seq direction;
  S2SH : matrix;
  SH2S : matrix
}.

(** [np.ones((n, m))], [np.zeros((n, m))] for dimensions that are not
    negative, scaling and division by a scalar, assignment of a row. *)
Definition ones (n m : Z) : matrix := nseq (Z.to_nat n) (nseq (Z.to_nat m) 1%R).
Definition zeros (n m : Z) : matrix := nseq (Z.to_nat n) (nseq (Z.to_nat m) 0%R).
Definition scale (a : matrix) (c : R) : matrix := [seq [seq (v * c)%R | v <- row] | row <- a].
Definition divide (a : matrix) (c : R) : matrix := [seq [seq (v / c)%R | v <- row] | row <- a].
Definition fill_row0 (a : matrix) (c : R) : result matrix :=
  if a is row :: rows then ret ([seq c | _ <- row] :: rows) else raise _ IndexError.

Definition Sampling_init (vectors : seq direction) (sh_degree max_sh_degree : option Z)
  (constant : bool) : result Sampling :=
  let N := Z.of_nat (size vectors) in
  bind (if sh_degree is Some d then ret d
        else bind (degree_of_count N) (fun d => ret (min_opt d max_sh_degree)))
  (fun sh_degree =>
  if constant then
    let S2SH := divide (scale (ones N 1) (sqrt (4 * PI))) (IZR N) in
    if n_coefficients sh_degree <? 0 then
      raise _ (ValueError "negative dimensions are not allowed")
    else
      bind (fill_row0 (zeros (n_coefficients sh_degree) N) (1 / sqrt (4 * PI))%R)
      (fun SH2S => ret (MkSampling vectors S2SH SH2S))
  else
    bind (sh_matrix sh_degree vectors 1) (fun '(_, SH2S) =>
    bind (degree_of_count N) (fun sh_degree_s2sh =>
    let sh_degree_s2sh := Z.min sh_degree_s2sh sh_degree in
    let sh_degree_s2sh := min_opt sh_degree_s2sh max_sh_degree in
    bind (sh_matrix sh_degree_s2sh vectors 1) (fun '(S2SH, _) =>
    ret (MkSampling vectors S2SH SH2S))))).

End Matrices.

(** The property the specification words: [L] is the largest even degree
    whose coefficient count is at most [bound]. *)
Definition largest_even_degree (bound L : Z) : Prop :=
  [/\ Z.even L = true, 0 <= L, n_coefficients L <= bound &
      forall L', Z.even L' = true -> 0 <= L' -> n_coefficients L' <= bound -> L' <= L].

(** A numerical body that always fails to invert, for the error path. *)
Definition singular_body (d : Z) (v : seq direction) (w : Z) (s : bool)
  : result (matrix * matrix) := raise _ LinAlgError.

(** Python's [int] on a real number: truncation toward zero. *)
Definition Rtrunc (r : R) : Z :=
  if Rle_dec 0 r then Int_part r else - Int_part (- r).

(** The degree formula of the source read on the real numbers, with the
    real square root. *)
Definition degree_of_count_real (N : Z) : Z :=
  2 * Rtrunc ((sqrt (IZR (8 * N - 7)) - 3) / 4).

Lemma n_coefficients_double (q : Z) : n_coefficients (2 * q) = (2 * q + 1) * (q + 1).
Proof.
rewrite /n_coefficients.
by have -> : 2 * q / 2 = q by Z.to_euclidean_division_equations; lia.
Qed.

Lemma n_coefficients_mono (a b : Z) :
  0 <= a <= b -> n_coefficients a <= n_coefficients b.
Proof.
move=> [ge0 leab]; rewrite /n_coefficients.
have : a / 2 <= b / 2 by apply: Z.div_le_mono; lia.
have : 0 <= a / 2 by apply: Z.div_pos; lia.
by nia.
Qed.

Lemma even_double (L : Z) : Z.even L = true -> L = 2 * (L / 2).
Proof. by move=> evL; have := Zmod_even L; rewrite evL; have := Z.div_mod L 2; lia. Qed.

Lemma sqrt_bounds (m : Z) :
  0 <= m -> 0 <= Z.sqrt m /\ Z.sqrt m * Z.sqrt m <= m < (Z.sqrt m + 1) * (Z.sqrt m + 1).
Proof.
move=> ge0; split; first exact: Z.sqrt_nonneg.
by have := Z.sqrt_spec m ge0; rewrite /Z.succ.
Qed.

Lemma degree_of_count_ret (N : Z) :
  1 <= N -> degree_of_count N = ret (2 * Z.quot (Z.sqrt (8 * N - 7) - 3) 4).
Proof.
move=> ge1; rewrite /degree_of_count.
by have -> : (8 * N - 7 <? 0) = false by apply/Z.ltb_ge; lia.
Qed.

Lemma sqrt_between (m : Z) :
  0 <= m -> (IZR (Z.sqrt m) <= sqrt (IZR m) < IZR (Z.sqrt m) + 1)%R.
Proof.
move=> ge0; have [ger [le_r lt_r]] := sqrt_bounds ge0.
have ger' : (0 <= IZR (Z.sqrt m))%R by apply: IZR_le.
split.
  rewrite -[X in (X <= _)%R]sqrt_square //; apply: sqrt_le_1_alt.
  by rewrite -mult_IZR; apply: IZR_le.
have <- : (sqrt ((IZR (Z.sqrt m) + 1) * (IZR (Z.sqrt m) + 1)) = IZR (Z.sqrt m) + 1)%R.
  by apply: sqrt_square; real_lra.
apply: sqrt_lt_1_alt; split; first by apply: IZR_le.
by rewrite -plus_IZR -mult_IZR; apply: IZR_lt.
Qed.

(** The integer formula is the real one: truncating [(sqrt m - 3) / 4] on the
    reals gives [Z.quot (Z.sqrt m - 3) 4]. *)
Lemma degree_of_count_real_eq (N : Z) :
  1 <= N -> degree_of_count N = ret (degree_of_count_real N).
Proof.
move=> ge1; rewrite degree_of_count_ret // /degree_of_count_real; congr (ret (2 * _)).
have ge0 : 0 <= 8 * N - 7 by lia.
have [ger [le_r lt_r]] := sqrt_bounds ge0.
have [le_s lt_s] := sqrt_between ge0.
move: (Z.sqrt _) (sqrt _) ger le_r lt_r le_s lt_s => r s ger le_r lt_r le_s lt_s.
have ge1r : 1 <= r by nia.
rewrite /Rtrunc; case: Rle_dec => [ge0x|nge0x]; last have lt0x := Rnot_le_lt _ _ nge0x.
  have ge3 : 3 <= r.
    have : (IZR r + 1 > 3)%R by real_lra.
    by rewrite -plus_IZR => /lt_IZR; lia.
  apply: Int_part_spec.
  have [q [-> [leq ltq]]] : exists q, Z.quot (r - 3) 4 = q /\ 4 * q <= r - 3 < 4 * q + 4.
    by exists (Z.quot (r - 3) 4); split=> //; Z.to_euclidean_division_equations; lia.
  have : (4 * IZR q <= IZR r - 3)%R.
    by rewrite -[4%R]/(IZR 4) -[3%R]/(IZR 3) -mult_IZR -minus_IZR; apply: IZR_le.
  have : (IZR r - 3 <= 4 * IZR q + 3)%R.
    rewrite -[4%R]/(IZR 4) -[3%R]/(IZR 3) -mult_IZR -minus_IZR -plus_IZR.
    by apply: IZR_le; lia.
  by real_lra.
have lt3 : r < 3.
  by apply: lt_IZR; rewrite -[IZR 3]/(3%R); real_lra.
have -> : Z.quot (r - 3) 4 = 0 by Z.to_euclidean_division_equations; lia.
have <- : 0 = Int_part (- ((s - 3) / 4)); last by [].
apply: Int_part_spec; rewrite -[IZR 0]/(0%R).
have : (1 <= IZR r)%R by apply: IZR_le.
by real_lra.
Qed.

Lemma degree_of_count_strict (N : Z) :
  2 <= N -> largest_even_degree (N - 1) (2 * Z.quot (Z.sqrt (8 * N - 7) - 3) 4).
Proof.
move=> ge2.
have [ge0 [le_r lt_r]] : 0 <= Z.sqrt (8 * N - 7) /\
    Z.sqrt (8 * N - 7) * Z.sqrt (8 * N - 7) <= 8 * N - 7 <
    (Z.sqrt (8 * N - 7) + 1) * (Z.sqrt (8 * N - 7) + 1).
  by apply: sqrt_bounds; lia.
move: (Z.sqrt _) ge0 le_r lt_r => r ge0 le_r lt_r.
have ge3 : 3 <= r by nia.
have [q [-> [leq ltq]]] : exists q, Z.quot (r - 3) 4 = q /\ 4 * q <= r - 3 < 4 * q + 4.
  exists (Z.quot (r - 3) 4); split=> //.
  by Z.to_euclidean_division_equations; lia.
split.
- by rewrite Z.even_mul.
- by lia.
- by rewrite n_coefficients_double; nia.
move=> L' evL' geL' leL'.
rewrite (even_double evL') in leL' *.
move: (L' / 2) leL' (even_double evL') => q'; rewrite n_coefficients_double => leL' eqL'.
have : 4 * q' + 3 <= r by nia.
by lia.
Qed.

Example degree_of_count_values :
  [seq degree_of_count N | N <- [:: 1; 5; 6; 7; 15; 16; 28; 29; 45; 46]] =
  [seq ret L | L <- [:: 0; 0; 0; 2; 2; 4; 4; 6; 6; 8]].
Proof. by []. Qed.

(** C5, as stated, fails: for 6 directions the derived degree is 0, while
    degree 2 has exactly 6 coefficients. *)
Lemma degree_of_count_counterexample :
  degree_of_count 6 = ret 0 /\ ~ largest_even_degree 6 0.
Proof.
split=> // -[_ _ _ /(_ 2)].
by rewrite /n_coefficients /= => /(_ erefl); lia.
Qed.

(** C5, amended. For every vertex count N >= 1, the degree Sampling derives
    from the number of directions is even and its coefficient count never
    exceeds N, also when it is capped by a requested degree; for N >= 2 it
    is the largest even degree L with (L+1)(L/2+1) <= N - 1, that is with
    fewer coefficients than directions, and for N = 1 it is 0. *)
Theorem degree_of_count_largest (N : Z) :
  1 <= N ->
  exists L : Z,
    [/\ degree_of_count N = ret L,
        Z.even L = true /\ n_coefficients L <= N,
        forall sh_degree, 0 <= sh_degree -> n_coefficients (Z.min L sh_degree) <= N,
        2 <= N -> largest_even_degree (N - 1) L &
        N = 1 -> L = 0].
Proof.
move=> ge1; exists (2 * Z.quot (Z.sqrt (8 * N - 7) - 3) 4).
have leN : n_coefficients (2 * Z.quot (Z.sqrt (8 * N - 7) - 3) 4) <= N.
  have [-> //|ge2] : N = 1 \/ 2 <= N by lia.
  by case: (degree_of_count_strict ge2) => _ _ leN _; lia.
have ge0 : 0 <= 2 * Z.quot (Z.sqrt (8 * N - 7) - 3) 4.
  have [-> //|ge2] : N = 1 \/ 2 <= N by lia.
  by case: (degree_of_count_strict ge2).
split; first exact: degree_of_count_ret.
- by split; first by rewrite Z.even_mul.
- move=> d ge0d; apply: Z.le_trans leN.
  by apply: n_coefficients_mono; lia.
- exact: degree_of_count_strict.
by move=> ->.
Qed.

Lemma degree_of_count_largest_witness :
  exists L : Z,
    [/\ degree_of_count 15 = ret L,
        Z.even L = true /\ n_coefficients L <= 15,
        forall sh_degree, 0 <= sh_degree -> n_coefficients (Z.min L sh_degree) <= 15,
        2 <= 15 -> largest_even_degree (15 - 1) L &
        15 = 1 -> L = 0].
Proof. exact: (@degree_of_count_largest 15 _). Defined.

(** With a requested degree [d >= 0] the constant shell has the same S2SH
    matrix, and an SH2S matrix of [(d+1)(d//2+1)] rows: the first is
    constant, the others are zero. *)
Lemma constant_shell_rows
  (sh_body : Z -> seq direction -> Z -> bool -> result (matrix * matrix))
  (vs : seq direction) (d : Z) (max_sh_degree : option Z) :
  0 <= d ->
  Sampling_init sh_body vs (Some d) max_sh_degree true =
  ret (MkSampling vs
         (nseq (size vs) [:: (1 * sqrt (4 * PI) / IZR (Z.of_nat (size vs)))%R])
         (nseq (size vs) (1 / sqrt (4 * PI))%R ::
          nseq (Z.to_nat (n_coefficients d - 1)) (nseq (size vs) 0%R))).
Proof.
move=> ge0; rewrite /Sampling_init /bind /ret /divide /scale /ones /zeros.
have ge1 : 1 <= n_coefficients d.
  rewrite /n_coefficients; have : 0 <= d / 2 by apply: Z.div_pos; lia.
  by nia.
have -> : (n_coefficients d <? 0) = false by apply/Z.ltb_ge; lia.
have -> : Z.to_nat (n_coefficients d) = S (Z.to_nat (n_coefficients d - 1)) by lia.
by rewrite Nat2Z.id -[Z.to_nat 1]/(1%nat) /= !map_nseq.
Qed.

(** C7. A Sampling built with [constant=True] over six directions, the
    degree left to be derived from their number, has an S2SH matrix of six
    rows of one entry, each sqrt(4 pi)/6, and an SH2S matrix of one row of
    six entries, each 1/sqrt(4 pi); [sh_matrix], which holds the
    least-squares solve, is not called. *)
Theorem constant_shell_six
  (sh_body : Z -> seq direction -> Z -> bool -> result (matrix * matrix))
  (v1 v2 v3 v4 v5 v6 : direction) :
  Sampling_init sh_body [:: v1; v2; v3; v4; v5; v6] None None true =
  ret (MkSampling [:: v1; v2; v3; v4; v5; v6]
         (nseq 6 [:: (sqrt (4 * PI) / 6)%R])
         [:: nseq 6 (1 / sqrt (4 * PI))%R]).
Proof.
rewrite /Sampling_init /bind.
have -> : degree_of_count (Z.of_nat (size [:: v1; v2; v3; v4; v5; v6])) = ret 0 by [].
rewrite /ret /min_opt /divide /scale /ones /zeros /fill_row0.
have -> : n_coefficients 0 = 1 by [].
have -> : Z.of_nat (size [:: v1; v2; v3; v4; v5; v6]) = 6 by [].
rewrite -[1 <? 0]/false -[Z.to_nat 6]/(6%nat) -[Z.to_nat 1]/(1%nat).
by rewrite [nseq 1 _]/= [nseq 6 _]/= [map _ _]/= !Rmult_1_l.
Qed.

(** C9. For every odd [sh_degree], [_sh_matrix] in symmetric mode raises a
    validation error, and so does the construction of a Sampling that has
    to build the matrices; [_sh_matrix] returns matrices only when the
    degree is even or the symmetric mode is off. *)
Theorem odd_degree_rejected
  (sh_body : Z -> seq direction -> Z -> bool -> result (matrix * matrix))
  (sh_degree : Z) (vector : seq direction) (with_order : Z)
  (max_sh_degree : option Z) :
  Z.odd sh_degree = true ->
  [/\ exists msg, _sh_matrix sh_body sh_degree vector with_order true =
                  raise _ (ValueError msg),
      exists msg, Sampling_init sh_body vector (Some sh_degree) max_sh_degree false =
                  raise _ (ValueError msg) &
      forall d v w symmetric M, _sh_matrix sh_body d v w symmetric = ret M ->
        Z.even d = true \/ symmetric = false].
Proof.
move=> oddd.
have neq0 : (sh_degree mod 2 =? 0) = false.
  by apply/Z.eqb_neq; rewrite Zmod_odd oddd.
split.
- rewrite /_sh_matrix neq0 /=.
  by case: (negb _); [exists "with_order must be 0 or 1"%string
    | exists "sh_degree must be even or symmetric must be False"%string].
- rewrite /Sampling_init /= /sh_matrix /_sh_matrix neq0 /=.
  by exists "sh_degree must be even or symmetric must be False"%string.
move=> d v w [] M; last by right.
rewrite /_sh_matrix; case: (negb _) => //=.
have := Zmod_even d; case: (Z.even d) => [_ _|->] //; by left.
Qed.

Lemma odd_degree_rejected_witness :
  [/\ exists msg, _sh_matrix singular_body 3 [:: (0, 0, 1)%R] 1 true =
                  raise _ (ValueError msg),
      exists msg, Sampling_init singular_body [:: (0, 0, 1)%R] (Some 3) None false =
                  raise _ (ValueError msg) &
      forall d v w symmetric M, _sh_matrix singular_body d v w symmetric = ret M ->
        Z.even d = true \/ symmetric = false].
Proof. exact: (@odd_degree_rejected singular_body 3 _ 1 None _). Defined.

(** *** The degree of the two matrices *)

Lemma min_opt_even (d : Z) (max_sh_degree : option Z) :
  Z.even d = true ->
  (forall m, max_sh_degree = Some m -> Z.even m = true) ->
  Z.even (min_opt d max_sh_degree) = true.
Proof.
case: max_sh_degree => [m|] //= evd /(_ m erefl) evm.
by rewrite /Z.min; case: (d ?= m).
Qed.

Lemma min_opt_idem (L : Z) (max_sh_degree : option Z) :
  min_opt (Z.min L (min_opt L max_sh_degree)) max_sh_degree = min_opt L max_sh_degree.
Proof. by case: max_sh_degree => [m|] /=; lia. Qed.

Lemma sh_matrix_even
  (sh_body : Z -> seq direction -> Z -> bool -> result (matrix * matrix))
  (d : Z) (vs : seq direction) :
  Z.even d = true -> sh_matrix sh_body d vs 1 = sh_body d vs 1 true.
Proof.
move=> evd; rewrite /sh_matrix /_sh_matrix /=.
by have := Zmod_even d; rewrite evd => ->.
Qed.

Lemma sh_matrix_odd
  (sh_body : Z -> seq direction -> Z -> bool -> result (matrix * matrix))
  (d : Z) (vs : seq direction) :
  Z.odd d = true ->
  sh_matrix sh_body d vs 1 =
  raise _ (ValueError "sh_degree must be even or symmetric must be False").
Proof.
move=> oddd; rewrite /sh_matrix /_sh_matrix /=.
by have := Zmod_odd d; rewrite oddd => ->.
Qed.

(** X22. When the degree is left to be derived from the number of
    directions (at least one) and the cap [max_sh_degree], if given, is even,
    the validation of [_sh_matrix] never fires, and the two matrices of a
    Sampling that is not constant are computed at one and the same even
    degree, the derived degree cut at the cap. *)
Theorem derived_degree_same_basis
  (sh_body : Z -> seq direction -> Z -> bool -> result (matrix * matrix))
  (vs : seq direction) (max_sh_degree : option Z) :
  1 <= Z.of_nat (size vs) ->
  (forall m, max_sh_degree = Some m -> Z.even m = true) ->
  exists d : Z,
    [/\ bind (degree_of_count (Z.of_nat (size vs)))
          (fun L => ret (min_opt L max_sh_degree)) = ret d,
        Z.even d = true &
        Sampling_init sh_body vs None max_sh_degree false =
        bind (sh_body d vs 1 true) (fun '(_, SH2S) =>
        bind (sh_body d vs 1 true) (fun '(S2SH, _) =>
        ret (MkSampling vs S2SH SH2S)))].
Proof.
move=> ge1 ev_max.
set L := 2 * Z.quot (Z.sqrt (8 * Z.of_nat (size vs) - 7) - 3) 4.
have evL : Z.even L = true by rewrite /L Z.even_mul.
have evd := min_opt_even evL ev_max.
exists (min_opt L max_sh_degree).
rewrite /Sampling_init degree_of_count_ret // -/L /= sh_matrix_even //; split=> //.
case E: (sh_body _ _ _ _) => [e|[S2SH SH2S]] //=.
by rewrite min_opt_idem sh_matrix_even // E.
Qed.

Lemma derived_degree_same_basis_witness :
  exists d : Z,
    [/\ bind (degree_of_count (Z.of_nat (size (nseq 7 (0, 0, 1)%R))))
          (fun L => ret (min_opt L None)) = ret d,
        Z.even d = true &
        Sampling_init singular_body (nseq 7 (0, 0, 1)%R) None None false =
        bind (singular_body d (nseq 7 (0, 0, 1)%R) 1 true) (fun '(_, SH2S) =>
        bind (singular_body d (nseq 7 (0, 0, 1)%R) 1 true) (fun '(S2SH, _) =>
        ret (MkSampling (nseq 7 (0, 0, 1)%R) S2SH SH2S)))].
Proof.
by apply: (@derived_degree_same_basis singular_body (nseq 7 (0, 0, 1)%R) None).
Defined.

(** X23. An odd cap [max_sh_degree] below the degree derived from the
    number of directions makes the construction of a Sampling that is not
    constant raise the validation error of [_sh_matrix]: the cap replaces the
    derived degree without being checked for parity. *)
Theorem odd_max_degree_rejected
  (sh_body : Z -> seq direction -> Z -> bool -> result (matrix * matrix))
  (vs : seq direction) (m : Z) :
  1 <= Z.of_nat (size vs) -> Z.odd m = true ->
  m < 2 * Z.quot (Z.sqrt (8 * Z.of_nat (size vs) - 7) - 3) 4 ->
  Sampling_init sh_body vs None (Some m) false =
  raise _ (ValueError "sh_degree must be even or symmetric must be False").
Proof.
move=> ge1 oddm ltm; rewrite /Sampling_init degree_of_count_ret //.
move: ltm; set L := 2 * _ => ltm.
have le_m : m <= L by lia.
by rewrite /bind /ret /min_opt (Z.min_r _ _ le_m) sh_matrix_odd.
Qed.

Lemma odd_max_degree_rejected_witness :
  Sampling_init singular_body (nseq 7 (0, 0, 1)%R) None (Some 1) false =
  raise _ (ValueError "sh_degree must be even or symmetric must be False").
Proof.
by apply: (@odd_max_degree_rejected singular_body (nseq 7 (0, 0, 1)%R) 1).
Defined.

(** X24. The degree formula of the source, read on the real numbers with
    the real square root and truncation toward zero, is the integer formula
    with the integer square root, for every count of at least one direction:
    [2*int((sqrt(8N-7) - 3)/4) = 2*((isqrt(8N-7) - 3) quot 4)]. *)
Theorem degree_of_count_real_reading (N : Z) :
  1 <= N ->
  degree_of_count N = ret (degree_of_count_real N) /\
  degree_of_count_real N = 2 * Z.quot (Z.sqrt (8 * N - 7) - 3) 4.
Proof.
move=> ge1; have := degree_of_count_real_eq ge1.
by rewrite degree_of_count_ret // => -[<-].
Qed.

Lemma degree_of_count_real_reading_witness :
  degree_of_count 15 = ret (degree_of_count_real 15) /\
  degree_of_count_real 15 = 2 * Z.quot (Z.sqrt (8 * 15 - 7) - 3) 4.
Proof. exact: (@degree_of_count_real_reading 15 _). Defined.

(** X25. A constant shell built with a requested degree [d >= 0], over any
    number of directions: the S2SH matrix has one column with every entry
    [sqrt(4 pi) / N], the SH2S matrix has [(d+1)(d//2+1)] rows, the first
    constant [1/sqrt(4 pi)] and the others zero, and [sh_matrix] is not
    called (an odd degree is accepted). *)
Theorem constant_shell_requested_degree
  (sh_body : Z -> seq direction -> Z -> bool -> result (matrix * matrix))
  (vs : seq direction) (d : Z) (max_sh_degree : option Z) :
  0 <= d ->
  Sampling_init sh_body vs (Some d) max_sh_degree true =
  ret (MkSampling vs
         (nseq (size vs) [:: (1 * sqrt (4 * PI) / IZR (Z.of_nat (size vs)))%R])
         (nseq (size vs) (1 / sqrt (4 * PI))%R ::
          nseq (Z.to_nat (n_coefficients d - 1)) (nseq (size vs) 0%R))).
Proof. exact: constant_shell_rows. Qed.

Lemma constant_shell_requested_degree_witness :
  Sampling_init singular_body (nseq 7 (0, 0, 1)%R) (Some 3) None true =
  ret (MkSampling (nseq 7 (0, 0, 1)%R)
         (nseq (size (nseq 7 (0, 0, 1)%R))
            [:: (1 * sqrt (4 * PI) / IZR (Z.of_nat (size (nseq 7 (0, 0, 1)%R))))%R])
         (nseq (size (nseq 7 (0, 0, 1)%R)) (1 / sqrt (4 * PI))%R ::
          nseq (Z.to_nat (n_coefficients 3 - 1))
            (nseq (size (nseq 7 (0, 0, 1)%R)) 0%R))).
Proof.
exact: (@constant_shell_requested_degree singular_body (nseq 7 (0, 0, 1)%R) 3 None _).
Defined.

End Sampling.

(** ** The rows of the spherical-harmonic basis ([sampling.py], the loop
    nest of [_sh_matrix] and [_sh_matrix_sh2s]) *)

Module ShBasis.

Import QArith.
Local Close Scope Q_scope.
Local Open Scope Z_scope.

(** [range(start, stop)] and [range(start, stop, step)] for a positive
    step. *)
Definition range (start stop : Z) : seq Z :=
  [seq start + Z.of_nat i | i <- iota 0 (Z.to_nat (stop - start))].

Definition range_step (start stop step : Z) : seq Z :=
  [seq start + step * Z.of_nat i
  | i <- iota 0 (Z.to_nat ((stop - start + step - 1) / step))].

(** [int(symmetric + 1)] *)
Definition degree_step (symmetric : bool) : Z := if symmetric then 2 else 1.


(** The loop nest over [id_degree] and [id_order]: the pairs (degree, order)
    in the order the loops visit them. [id_column] starts at 0 and is
    incremented after every pair, so the pair at position [i] of this list is
    the one written to row [i] of the matrix. *)
Definition sh_columns (sh_degree with_order : Z) (symmetric : bool) : seq (Z * Z) :=
  flatten
    [seq [seq (id_degree, id_order)
         | id_order <- range (- id_degree * with_order) (id_degree * with_order + 1)]
    | id_degree <- range_step 0 (sh_degree + 1) (degree_step symmetric)].

(** The number of orders visited for the degree of rank [i]. *)
Definition block_size (step with_order : Z) (i : nat) : nat :=
  Z.to_nat (2 * (step * Z.of_nat i) * with_order + 1).

Lemma size_range (a b : Z) : size (range a b) = Z.to_nat (b - a).
Proof. by rewrite /range size_map size_iota. Qed.

Lemma nth_range (a b d0 : Z) (i : nat) :
  (i < Z.to_nat (b - a))%nat -> nth d0 (range a b) i = a + Z.of_nat i.
Proof. by move=> lti; rewrite /range (nth_map 0%nat) ?size_iota // nth_iota. Qed.

Lemma sh_columns_shape (sh_degree with_order : Z) (symmetric : bool) :
  shape [seq [seq (id_degree, id_order)
             | id_order <- range (- id_degree * with_order) (id_degree * with_order + 1)]
        | id_degree <- range_step 0 (sh_degree + 1) (degree_step symmetric)] =
  [seq block_size (degree_step symmetric) with_order i
  | i <- iota 0 (Z.to_nat ((sh_degree + 1 - 0 + degree_step symmetric - 1) /
                           degree_step symmetric))].
Proof.
rewrite /shape /range_step -!map_comp; apply: eq_map => i /=.
rewrite size_map size_range /block_size; congr Z.to_nat; lia.
Qed.

Lemma sumn_block_size (step with_order : Z) (r : nat) :
  0 <= step -> 0 <= with_order ->
  Z.of_nat (sumn [seq block_size step with_order i | i <- iota 0 r]) =
  step * with_order * Z.of_nat r * (Z.of_nat r - 1) + Z.of_nat r.
Proof.
move=> ge0s ge0w; elim: r => [|r IH]; first by rewrite /=; lia.
rewrite Nat2Z.inj_succ -addn1 iotaD map_cat sumn_cat /= add0n addn0.
have ge0 : 0 <= 2 * (step * Z.of_nat r) * with_order + 1 by nia.
rewrite -[(_ + _)%nat]/(Nat.add _ _) Nat2Z.inj_add IH /block_size (Z2Nat.id _ ge0).
by nia.
Qed.


Lemma degree_count (sh_degree : Z) (symmetric : bool) :
  0 <= sh_degree ->
  Z.of_nat (Z.to_nat ((sh_degree + 1 - 0 + degree_step symmetric - 1) /
                      degree_step symmetric)) =
  sh_degree / degree_step symmetric + 1.
Proof.
move=> ge0; rewrite Z2Nat.id; case: symmetric; rewrite /degree_step;
  by Z.to_euclidean_division_equations; lia.
Qed.



Lemma sh_columns_nth (sh_degree l m : Z) (symmetric : bool) (r : nat) :
  degree_step symmetric * Z.of_nat r = l -> 0 <= l <= sh_degree -> - l <= m <= l ->
  nth (0, 0) (sh_columns sh_degree 1 symmetric)
    (sumn [seq block_size (degree_step symmetric) 1 i | i <- iota 0 r] +
     Z.to_nat (m + l)) = (l, m).
Proof.
move=> eq_l [ge0l led] [gem lem].
have gt0s : 0 < degree_step symmetric by case: symmetric {eq_l}.
pose c := Z.to_nat (m + l).
have lt_r : (r < Z.to_nat ((sh_degree + 1 - 0 + degree_step symmetric - 1) /
                           degree_step symmetric))%nat.
  have ge0d : 0 <= sh_degree by lia.
  apply/ltP; apply/Nat2Z.inj_lt; rewrite (@degree_count sh_degree symmetric ge0d).
  suff : Z.of_nat r <= sh_degree / degree_step symmetric by lia.
  by apply: Z.div_le_lower_bound => //; lia.
rewrite /sh_columns; set blocks := map _ _; set sh := shape blocks.
have shE : sh = [seq block_size (degree_step symmetric) 1 i
                | i <- iota 0 (Z.to_nat ((sh_degree + 1 - 0 + degree_step symmetric - 1) /
                                         degree_step symmetric))].
  exact: sh_columns_shape.
have lt_c : (c < nth 0%nat sh r)%nat.
  rewrite shE (nth_map 0%nat) ?size_iota // nth_iota // add0n /block_size /c.
  by apply/ltP; rewrite eq_l; lia.
have -> : (sumn [seq block_size (degree_step symmetric) 1 i | i <- iota 0 r] +
           Z.to_nat (m + l))%nat = flatten_index sh r c.
  rewrite /flatten_index shE -map_take take_iota.
  by have /minn_idPl -> := ltnW lt_r.
rewrite nth_flatten flatten_indexKl // flatten_indexKr //.
rewrite /blocks (nth_map 0) /range_step ?size_map ?size_iota //.
rewrite (nth_map 0%nat) ?size_iota // nth_iota // add0n Z.add_0_l eq_l.
have lt_c' : (c < Z.to_nat (l * 1 + 1 - - l * 1))%nat by apply/ltP; rewrite /c; lia.
rewrite (nth_map 0) ?size_range // nth_range //.
have ge0c : 0 <= m + l by lia.
by rewrite /c (Z2Nat.id _ ge0c); congr (_, _); lia.
Qed.

(** X27. The row of the matrix that holds the harmonic of degree [l] and
    order [m]: in symmetric mode (even degrees only) it is row
    [l(l+1)/2 + m], without symmetry row [l(l+1) + m], for every degree up to
    [sh_degree] and every order between [-l] and [l]. *)
Theorem sh_columns_index (sh_degree l m : Z) (symmetric : bool) :
  0 <= l <= sh_degree -> - l <= m <= l ->
  (symmetric = true -> Z.even l = true) ->
  nth (0, 0) (sh_columns sh_degree 1 symmetric)
    (Z.to_nat ((if symmetric then l * (l + 1) / 2 else l * (l + 1)) + m)) = (l, m).
Proof.
move=> ge0l gem ev.
pose r := Z.to_nat (l / degree_step symmetric).
have eq_l : degree_step symmetric * Z.of_nat r = l.
  rewrite /r Z2Nat.id; case: symmetric ev {r} => [/(_ erefl) /Sampling.even_double|_];
    rewrite /degree_step; by Z.to_euclidean_division_equations; lia.
have := sh_columns_nth eq_l ge0l gem.
suff -> : (sumn [seq block_size (degree_step symmetric) 1 i | i <- iota 0 r] +
           Z.to_nat (m + l))%nat =
          Z.to_nat ((if symmetric then l * (l + 1) / 2 else l * (l + 1)) + m) by [].
have ge0s : 0 <= degree_step symmetric by case: symmetric {ev r eq_l}.
have one : 0 <= 1 by [].
have := sumn_block_size r ge0s one.
move: (sumn _) => total eq_total.
apply: Nat2Z.inj; rewrite -[(_ + _)%nat]/(Nat.add _ _) Nat2Z.inj_add eq_total.
move: eq_l {eq_total}; move: (Z.of_nat r) (Nat2Z.is_nonneg r) => q ge0q.
case: ge0l gem => ge0l led [gem lem].
have ge0i : 0 <= l * (l + 1) by nia.
case: symmetric {ev ge0s r}; rewrite -?[degree_step true]/2 -?[degree_step false]/1 => eq_l.
  have -> : l * (l + 1) / 2 = q * (2 * q + 1).
    by rewrite -eq_l; Z.to_euclidean_division_equations; nia.
  by rewrite !Z2Nat.id; nia.
by rewrite !Z2Nat.id; nia.
Qed.

Lemma sh_columns_index_witness :
  nth (0, 0) (sh_columns 4 1 true)
    (Z.to_nat ((if true then 2 * (2 + 1) / 2 else 2 * (2 + 1)) + - 1)) = (2, - 1).
Proof. by apply: (@sh_columns_index 4 2 (- 1) true). Defined.

End ShBasis.

(** ** Checkpoint state ([graphconv.py], the [state_dict] overrides and the
    parameters and buffers the layers register) *)

Module StateDict.

Local Open Scope string_scope.

(** [key.endswith(suffix)] *)
Definition endswith (key suffix : string) : bool :=
  let n := String.length key in
  let m := String.length suffix in
  (m <= n)%nat && String.eqb (substring (n - m)%nat m key) suffix.

Section Modules.

(** The values a state dict holds. *)
Variable tensor : Type.

(** An ordered dict from keys to tensors. *)
Definition dict : Type := seq (string * tensor).

Definition keys (d : dict) : seq string := [seq kv.1 | kv <- d].

Fixpoint dict_get (k : string) (d : dict) : option tensor :=
  if d is (k', v) :: d' then if String.eqb k k' then Some v else dict_get k d'
  else None.

(** [d[k] = v]: the value is replaced in place, or the key is appended. *)
Fixpoint dict_set (k : string) (v : tensor) (d : dict) : dict :=
  if d is (k', v') :: d' then
    if String.eqb k k' then (k', v) :: d' else (k', v') :: dict_set k v d'
  else [:: (k, v)].

(** [del d[k]] *)
Definition dict_del (k : string) (d : dict) : dict :=
  [seq kv <- d | ~~ String.eqb k kv.1].

(** A [torch.nn.Module] as far as [state_dict] reads it: the suffix its own
    [state_dict] override deletes (if it has one), its parameters in the
    order of registration ([None] for [register_parameter(name, None)]), its
    persistent buffers and its child modules. *)
Inductive module : Type :=
  Module_ (override : option string)
          (parameters : seq (string * option tensor))
          (buffers : seq (string * tensor))
          (children : seq (string * module)).

(** [Module._save_to_state_dict] *)
Definition save_to_state_dict (parameters : seq (string * option tensor))
  (buffers : seq (string * tensor)) (destination : dict) (prefix : string) : dict :=
  let destination :=
    foldl (fun destination (p : string * option tensor) =>
             if p.2 is Some param then dict_set (prefix ++ p.1) param destination
             else destination)
          destination parameters in
  foldl (fun destination (b : string * tensor) =>
           dict_set (prefix ++ b.1) b.2 destination)
        destination buffers.

(** The body the overrides share: the keys that end with the suffix are
    collected, then deleted. *)
Definition delete_suffix (suffix : string) (state_dict : dict) : dict :=
  let del_keys := [seq key <- keys state_dict | endswith key suffix] in
  foldl (fun state_dict key => dict_del key state_dict) state_dict del_keys.

(** [Module.state_dict(destination, prefix)]: the module saves its own
    entries, every child adds its own through its [state_dict] (its override,
    if it has one) on the same dict, and the override of the module runs on
    what [super().state_dict] returns. *)
Fixpoint state_dict (m : module) (destination : dict) (prefix : string) : dict :=
  let: Module_ override parameters buffers children := m in
  let destination := save_to_state_dict parameters buffers destination prefix in
  let destination :=
    (fix children_state_dict (cs : seq (string * module)) (destination : dict) : dict :=
       if cs is (name, child) :: cs' then
         children_state_dict cs' (state_dict child destination (prefix ++ name ++ "."))
       else destination) children destination in
  if override is Some suffix then delete_suffix suffix destination else destination.

(** [Module.named_parameters] and the persistent buffers, with their full
    names. *)
Fixpoint named_parameters (m : module) (prefix : string) : dict :=
  let: Module_ _ parameters _ children := m in
  cat (pmap (fun p : string * option tensor => omap (pair (prefix ++ p.1)) p.2) parameters)
  ((fix children_parameters (cs : seq (string * module)) : dict :=
      if cs is (name, child) :: cs' then
        cat (named_parameters child (prefix ++ name ++ ".")) (children_parameters cs')
      else [::]) children).

Fixpoint named_buffers (m : module) (prefix : string) : dict :=
  let: Module_ _ _ buffers children := m in
  cat [seq (prefix ++ b.1, b.2) | b <- buffers]
  ((fix children_buffers (cs : seq (string * module)) : dict :=
      if cs is (name, child) :: cs' then
        cat (named_buffers child (prefix ++ name ++ ".")) (children_buffers cs')
      else [::]) children).

(** The tensors the constructors create or receive. *)
Record tensors : Type := MkTensors {
  lap : tensor;
  projector_value : tensor;
  weight_value : tensor;
  weightSph_value : tensor;
  weightSpa_value : tensor;
  bias_value : tensor;
  weight_tmp_value : tensor
}.

Definition bias_parameter (bias : bool) (t : tensors) : string * option tensor :=
  ("bias", if bias then Some (bias_value t) else None).

Definition mask_buffer (isoSpa : bool) (t : tensors) : seq (string * tensor) :=
  if isoSpa then [:: ("weight_tmp", weight_tmp_value t)] else [::].

Definition ChebConv (bias : bool) (t : tensors) : module :=
  Module_ None [:: ("weight", Some (weight_value t)); bias_parameter bias t] [::] [::].

Definition SO3SE3Conv (bias isoSpa : bool) (t : tensors) : module :=
  Module_ None
    [:: ("weightSph", Some (weightSph_value t));
        ("weightSpa", Some (weightSpa_value t)); bias_parameter bias t]
    (mask_buffer isoSpa t) [::].

Definition SpatialConv (bias isoSpa : bool) (t : tensors) : module :=
  Module_ None
    [:: ("weightSpa", Some (weightSpa_value t)); bias_parameter bias t]
    (mask_buffer isoSpa t) [::].

Definition is_spatial (conv_name : string) : bool :=
  has (String.eqb conv_name) [:: "spatial"; "spatial_vec"; "spatial_sh"].

(** [Conv.__init__]: with [precompute] the buffer named "laplacian" holds
    the projector. [None] is [NotImplementedError]. *)
Definition Conv (conv_name : string) (bias isoSpa precompute : bool) (t : tensors)
  : option module :=
  let laplacian := if precompute then projector_value t else lap t in
  let wrap conv :=
    Some (Module_ (Some "laplacian") [::] [:: ("laplacian", laplacian)] [:: ("conv", conv)]) in
  if String.eqb conv_name "spherical" then wrap (ChebConv bias t)
  else if String.eqb conv_name "mixed" then wrap (SO3SE3Conv bias isoSpa t)
  else if is_spatial conv_name then wrap (SpatialConv bias isoSpa t)
  else None.

Definition ChebConvPrecomputed (bias : bool) (t : tensors) : module :=
  Module_ (Some "projector")
    [:: ("weight", Some (weight_value t)); bias_parameter bias t]
    [:: ("projector", projector_value t)] [::].

Definition SO3SE3ConvPrecomputer (bias isoSpa : bool) (t : tensors) : module :=
  Module_ (Some "projector")
    [:: ("weightSph", Some (weightSph_value t));
        ("weightSpa", Some (weightSpa_value t)); bias_parameter bias t]
    (("projector", projector_value t) :: mask_buffer isoSpa t) [::].

Definition SpatialConvPrecomputed (bias isoSpa : bool) (t : tensors) : module :=
  Module_ None
    [:: ("weightSpa", Some (weightSpa_value t)); bias_parameter bias t]
    (mask_buffer isoSpa t) [::].

(** [torch.nn.Linear]: the weight and the bias, which is [None] with
    [bias=False]. *)
Definition Linear (weight : tensor) (bias : option tensor) : module :=
  Module_ None [:: ("weight", Some weight); ("bias", bias)] [::] [::].

(** [PolynomialFeatures] and [torch.nn.GELU] register nothing. *)
Definition PolynomialFeatures : module := Module_ None [::] [::] [::].
Definition GELU : module := Module_ None [::] [::] [::].

(** [torch.nn.Sequential]: the modules are children named by their index. *)
Definition index_name (i : nat) : string :=
  DecimalString.NilEmpty.string_of_uint (Nat.to_uint i).

Definition Sequential (modules : seq module) : module :=
  Module_ None [::] [::] (zip [seq index_name i | i <- iota 0 (size modules)] modules).

(** The tensors of the three [Linear] layers of one of the two networks of
    [FiberBundleConvFixedGraphMLP]. *)
Record mlp_tensors : Type := MkMlp {
  weight1 : tensor;
  bias1 : tensor;
  weight3 : tensor;
  bias3 : tensor;
  weight5 : tensor
}.

(** [Sequential(PolynomialFeatures(degree), Linear(...), act_fn, Linear(...),
    act_fn, Linear(..., bias=False))] *)
Definition mlp (w : mlp_tensors) : module :=
  Sequential [:: PolynomialFeatures; Linear (weight1 w) (Some (bias1 w)); GELU;
                 Linear (weight3 w) (Some (bias3 w)); GELU; Linear (weight5 w) None].

(** The tensors the fiber-bundle layers create. *)
Record fiber_tensors : Type := MkFiber {
  spatial_weight_value : tensor;
  spherical_weight_value : tensor;
  mixing_weight_value : tensor;
  fiber_bias_value : tensor;
  spatial_attr_unique_tuple_value : tensor;
  spherical_attr_unique_value : tensor;
  basis_value : mlp_tensors;
  fiber_basis_value : mlp_tensors
}.

Definition FiberBundleConvFixedGraph (bias : bool) (f : fiber_tensors) : module :=
  Module_ None
    [:: ("spatial_weight", Some (spatial_weight_value f));
        ("spherical_weight", Some (spherical_weight_value f));
        ("bias", if bias then Some (fiber_bias_value f) else None)]
    [::]
    [:: ("mixing", Linear (mixing_weight_value f) None)].

Definition FiberBundleConvFixedGraphMLP (bias : bool) (f : fiber_tensors) : module :=
  Module_ None
    [:: ("bias", if bias then Some (fiber_bias_value f) else None)]
    [:: ("spatial_attr_unique_tuple", spatial_attr_unique_tuple_value f);
        ("spherical_attr_unique", spherical_attr_unique_value f)]
    [:: ("basis", mlp (basis_value f)); ("fiber_basis", mlp (fiber_basis_value f))].

(** [ConvPrecomputed.__init__]: the Chebyshev, mixed and spatial
    convolutions, and the two fiber-bundle convolutions (the first is always
    built with [bias=True]). [None] is [NotImplementedError]. *)
Definition ConvPrecomputed (conv_name : string) (bias isoSpa : bool) (t : tensors)
  (f : fiber_tensors) : option module :=
  let wrap conv := Some (Module_ (Some "laplacian") [::] [::] [:: ("conv", conv)]) in
  if String.eqb conv_name "spherical" then wrap (ChebConvPrecomputed bias t)
  else if String.eqb conv_name "mixed" then wrap (SO3SE3ConvPrecomputer bias isoSpa t)
  else if is_spatial conv_name then wrap (SpatialConvPrecomputed bias isoSpa t)
  else if String.eqb conv_name "bekkers" then wrap (FiberBundleConvFixedGraph true f)
  else if String.eqb conv_name "bekkers2" then wrap (FiberBundleConvFixedGraphMLP bias f)
  else None.

(** Every entry of [entries] is in the state dict, with its value. *)
Fixpoint retained (entries : dict) (sd : dict) : Prop :=
  if entries is (k, v) :: entries' then dict_get k sd = Some v /\ retained entries' sd
  else True.

(** No key of the state dict ends with the suffix. *)
Definition excluded (suffix : string) (sd : dict) : bool :=
  all (fun key => ~~ endswith key suffix) (keys sd).

(** The buffers whose name ends with the suffix. *)
Definition buffers_named (suffix : string) (m : module) : dict :=
  [seq b <- named_buffers m "" | endswith b.1 suffix].

(** The buffers that are neither a Laplacian nor a projector. *)
Definition other_buffers (m : module) : dict :=
  [seq b <- named_buffers m "" |
   ~~ endswith b.1 "laplacian" && ~~ endswith b.1 "projector"].

(** The two lists hold the same keys, each as many times, in whatever
    order. *)
Definition same_keys (a b : seq string) : bool :=
  all (fun k => count (String.eqb k) a == count (String.eqb k) b) (a ++ b).

(** The state dict saved for a layer, empty when the constructor raised. *)
Definition checkpoint (layer : option module) : dict :=
  if layer is Some m then state_dict m [::] "" else [::].

End Modules.

(** Tensors named by a label, for concrete layers. *)
Definition labels : tensors string :=
  MkTensors "lap" "projector" "weight" "weightSph" "weightSpa" "bias" "mask".

Definition fiber_labels : fiber_tensors string :=
  MkFiber "spatial_weight" "spherical_weight" "mixing" "bias" "spatial_attr"
    "spherical_attr" (MkMlp "w1" "b1" "w3" "b3" "w5") (MkMlp "v1" "c1" "v3" "c3" "v5").

(** The layer [Conv] builds for a mixed convolution with bias, an isotropic
    spatial kernel and a precomputed projector. *)
Definition mixed_layer : module string :=
  Module_ (Some "laplacian") [::] [:: ("laplacian", "projector")]
    [:: ("conv", SO3SE3Conv true true labels)].

Ltac layer_cases bias isoSpa :=
  case=> <-; case: bias; case: isoSpa; by vm_compute.

Example state_dict_mixed_layer :
  state_dict mixed_layer [::] "" =
  [:: ("conv.weightSph", "weightSph"); ("conv.weightSpa", "weightSpa");
      ("conv.bias", "bias"); ("conv.weight_tmp", "mask")].
Proof. by []. Qed.

Example state_dict_cheb_precomputed :
  checkpoint (ConvPrecomputed "spherical" false true labels fiber_labels) =
  [:: ("conv.weight", "weight")].
Proof. by []. Qed.

(** The four entries of the first fiber-bundle layer and the thirteen of the
    second, in the order [state_dict] gives them. *)
Example state_dict_bekkers :
  keys (checkpoint (ConvPrecomputed "bekkers" false true labels fiber_labels)) =
  [:: "conv.spatial_weight"; "conv.spherical_weight"; "conv.bias";
      "conv.mixing.weight"].
Proof. by vm_compute. Qed.

Example state_dict_bekkers2 :
  keys (checkpoint (ConvPrecomputed "bekkers2" true true labels fiber_labels)) =
  [:: "conv.bias"; "conv.spatial_attr_unique_tuple"; "conv.spherical_attr_unique";
      "conv.basis.1.weight"; "conv.basis.1.bias"; "conv.basis.3.weight";
      "conv.basis.3.bias"; "conv.basis.5.weight";
      "conv.fiber_basis.1.weight"; "conv.fiber_basis.1.bias";
      "conv.fiber_basis.3.weight"; "conv.fiber_basis.3.bias";
      "conv.fiber_basis.5.weight"].
Proof. by vm_compute. Qed.

(** C8, as stated, fails: the state dict of a mixed convolution with an
    isotropic spatial kernel holds the selection mask under the key
    "conv.weight_tmp". *)
Lemma mask_in_checkpoint_counterexample :
  excluded "weight_tmp" (checkpoint (Conv "mixed" true true false labels)) = false /\
  dict_get "conv.weight_tmp" (checkpoint (Conv "mixed" true true false labels)) =
  Some "mask".
Proof. by []. Qed.

(** C8, amended. For every convolution layer that [Conv] or
    [ConvPrecomputed] builds (Chebyshev, mixed, spatial or fiber-bundle),
    the saved state dict has no key of the Laplacian buffer or of the
    precomputed projector buffer, and every weight and bias parameter is in
    it with its value; so is the isotropic selection mask (the [weight_tmp]
    buffer) of a layer that has one, and so is every other buffer that is
    neither a Laplacian nor a projector (the two attribute tables of the
    second fiber-bundle layer): they are persistent buffers that no override
    deletes. The keys of the state dict are those of the parameters and of
    these buffers, and no other. *)
Theorem state_dict_contents (tensor : Type) (conv_name : string)
  (bias isoSpa precompute : bool) (t : tensors tensor) (f : fiber_tensors tensor)
  (layer : module tensor) :
  Conv conv_name bias isoSpa precompute t = Some layer \/
  ConvPrecomputed conv_name bias isoSpa t f = Some layer ->
  [/\ excluded "laplacian" (state_dict layer [::] "") /\
      excluded "projector" (state_dict layer [::] ""),
      retained (named_parameters layer "") (state_dict layer [::] ""),
      retained (buffers_named "weight_tmp" layer) (state_dict layer [::] ""),
      retained (other_buffers layer) (state_dict layer [::] "") &
      same_keys (keys (state_dict layer [::] ""))
        (cat (keys (named_parameters layer "")) (keys (other_buffers layer)))].
Proof.
case; rewrite /Conv /ConvPrecomputed.
- case: (String.eqb conv_name "spherical"); first by layer_cases bias isoSpa.
  case: (String.eqb conv_name "mixed"); first by layer_cases bias isoSpa.
  by case: (is_spatial conv_name); first by layer_cases bias isoSpa.
- case: (String.eqb conv_name "spherical"); first by layer_cases bias isoSpa.
  case: (String.eqb conv_name "mixed"); first by layer_cases bias isoSpa.
  case: (is_spatial conv_name); first by layer_cases bias isoSpa.
  case: (String.eqb conv_name "bekkers"); first by layer_cases bias isoSpa.
  by case: (String.eqb conv_name "bekkers2"); first by layer_cases bias isoSpa.
Qed.

Lemma state_dict_contents_witness :
  [/\ excluded "laplacian" (state_dict mixed_layer [::] "") /\
      excluded "projector" (state_dict mixed_layer [::] ""),
      retained (named_parameters mixed_layer "") (state_dict mixed_layer [::] ""),
      retained (buffers_named "weight_tmp" mixed_layer) (state_dict mixed_layer [::] ""),
      retained (other_buffers mixed_layer) (state_dict mixed_layer [::] "") &
      same_keys (keys (state_dict mixed_layer [::] ""))
        (cat (keys (named_parameters mixed_layer "")) (keys (other_buffers mixed_layer)))].
Proof.
apply: (@state_dict_contents string "mixed" true true true labels fiber_labels).
by left.
Defined.

(** *** The body of the overrides on any state dict *)

Section OverrideTheory.

Variable tensor : Type.

Lemma foldl_dict_del (ks : seq string) (d : dict tensor) :
  foldl (fun state_dict key => dict_del key state_dict) d ks =
  [seq kv <- d | ~~ has (fun k => String.eqb k kv.1) ks].
Proof.
elim: ks d => [|k ks IH] d /=; first by rewrite filter_predT.
rewrite IH /dict_del -filter_predI; apply: eq_filter => kv /=.
by rewrite negb_or andbC.
Qed.

Lemma has_filter_key (P : pred string) (x : string) (ks : seq string) :
  has (fun k => String.eqb k x) [seq k <- ks | P k] =
  P x && has (fun k => String.eqb k x) ks.
Proof.
elim: ks => [|k ks IH] /=; first by rewrite andbF.
case E: (String.eqb k x) => /=.
  move/String.eqb_eq: E => ->.
  by case Px: (P x); rewrite /= ?String.eqb_refl // IH Px.
by case: (P k); rewrite /= ?E ?IH.
Qed.

Lemma filter_own_keys (P : pred string) (ks0 : seq string) (d : dict tensor) :
  [seq kv <- d | ~~ (P kv.1 && has (fun k => String.eqb k kv.1) (cat ks0 (keys d)))] =
  [seq kv <- d | ~~ P kv.1].
Proof.
elim: d ks0 => [|kv d IH] ks0 //=.
rewrite has_cat /= String.eqb_refl orbT andbT.
have -> : cat ks0 (kv.1 :: keys d) = cat (rcons ks0 kv.1) (keys d) by rewrite cat_rcons.
by rewrite IH.
Qed.

Lemma delete_suffixE (suffix : string) (sd : dict tensor) :
  delete_suffix suffix sd = [seq kv <- sd | ~~ endswith kv.1 suffix].
Proof.
rewrite /delete_suffix foldl_dict_del.
rewrite -(filter_own_keys (fun key => endswith key suffix) [::] sd).
by apply: eq_filter => kv; rewrite has_filter_key.
Qed.

Lemma dict_get_filter (P : pred string) (k : string) (d : dict tensor) :
  dict_get k [seq kv <- d | ~~ P kv.1] = if P k then None else dict_get k d.
Proof.
elim: d => [|[k' v] d IH] /=; first by case: (P k).
case Pk': (P k') => /=.
  by rewrite IH; case: (String.eqb_spec k k') => [->|//]; rewrite Pk'.
by rewrite IH; case: (String.eqb_spec k k') => [->|//]; rewrite Pk'.
Qed.

End OverrideTheory.

(** X28. The loops of a [state_dict] override, on any state dict: the
    entries whose key ends with the suffix are removed, all of them, and
    every other entry stays where it was with its value. *)
Theorem delete_suffix_exact (tensor : Type) (suffix : string) (sd : dict tensor) :
  [/\ delete_suffix suffix sd = [seq kv <- sd | ~~ endswith kv.1 suffix],
      excluded suffix (delete_suffix suffix sd) &
      forall key, dict_get key (delete_suffix suffix sd) =
                  if endswith key suffix then None else dict_get key sd].
Proof.
split; first exact: delete_suffixE.
  by rewrite delete_suffixE /excluded /keys all_map; apply: filter_all.
by move=> key; rewrite delete_suffixE (dict_get_filter (fun k => endswith k suffix)).
Qed.

(** X29. A module whose [state_dict] is overridden returns a dict with no
    key that ends with the suffix, whatever its parameters, buffers and
    children are and whatever the destination dict held before: the entries
    of the children, and those that other modules had put in the shared
    destination, are removed as well. *)
Theorem override_excludes_suffix (tensor : Type) (suffix : string)
  (parameters : seq (string * option tensor)) (buffers : seq (string * tensor))
  (children : seq (string * module tensor)) (destination : dict tensor)
  (prefix : string) :
  excluded suffix
    (state_dict (Module_ (Some suffix) parameters buffers children) destination prefix).
Proof.
rewrite [state_dict _ _ _]/=; move: (X in delete_suffix _ X) => sd.
by rewrite delete_suffixE /excluded /keys all_map; apply: filter_all.
Qed.



End StateDict.
